(** * aiocr: image enhancement and field extraction

    A shallow embedding of the OCR pipeline of the repository:
    - [src/utils/ocrProcessor.ts]: [performOCR] with its fallback,
      [cleanExtractedText], [extractFields], [detectDocumentType] and
      the extractors of each document type;
    - the image enhancer: [applyAdaptiveThreshold], [applyErosion],
      [applyDilation], [applyMorphologicalCleaning] and
      [applyDocumentSharpening];
    - the loop over the pages and the removal of duplicate fields in
      [handleFileSelect], and the aggregation of [processDocument];
    - the contrast adjustment of [enhanceImage] in
      [src/utils/ocrProcessor.ts];
    - the document history of [src/utils/documentStorage.ts].

    Conventions of the model.
    - JavaScript strings are lists of 8-bit code units ([list ascii],
      the Latin-1 range); every literal, keyword and character class
      of the source lives in that range.
    - Regular expressions are syntax trees, run by a backtracking
      matcher that follows the ECMAScript rules: leftmost match,
      ordered alternation, greedy quantifiers with the empty-iteration
      check and the reset of captures, word boundaries, anchors and the
      ignore-case flag.
    - The [fields] array that the extractors push to is passed from one
      extractor to the next.
    - Confidences are integers.  Pixel buffers are lists of integers
      with the clamping store of [Uint8ClampedArray]; a read outside
      the array is NaN.  The luma and the local mean of the
      thresholding are computed in IEEE doubles.
    - The amount that [parseFloat] reads is the nearest IEEE double.
    - The recognition engine and the creation of its workers are
      oracles, which may answer or throw; calls to them are recorded
      in a trace.  The progress logger has no effect on the result and
      is left out. *)

From Stdlib Require Import String Ascii.
From Stdlib Require Import ZArith NArith Lia Bool Arith PeanoNat.
From Stdlib Require Floats Uint63.
From Stdlib Require Import List.
Import ListNotations.
Open Scope string_scope.
Open Scope nat_scope.
Open Scope list_scope.

(* ================================================================== *)
(** ** JavaScript strings *)
(* ================================================================== *)

Module JS.

Definition str := list ascii.

(** String literals of the source are written as Rocq strings. *)
Definition lit (s : string) : str := list_ascii_of_string s.
Coercion lit : string >-> str.

Definition code (c : ascii) : N := N_of_ascii c.

(** The line feed, "\n". *)
Definition newline : ascii := "010"%char.

Definition between (lo hi : N) (c : ascii) : bool :=
  (lo <=? code c)%N && (code c <=? hi)%N.

Definition isUpperAZ (c : ascii) : bool := between 65 90 c.
Definition isLowerAZ (c : ascii) : bool := between 97 122 c.
Definition isDigit (c : ascii) : bool := between 48 57 c.

(** [\w]: letters, digits and the underscore. *)
Definition isWordChar (c : ascii) : bool :=
  isUpperAZ c || isLowerAZ c || isDigit c || (code c =? 95)%N.

(** [\s], and the characters removed by [trim]: TAB, LF, VT, FF, CR,
    space and the no-break space (the members below U+0100). *)
Definition isSpace (c : ascii) : bool :=
  between 9 13 c || (code c =? 32)%N || (code c =? 160)%N.

(** Line terminators, which [.] does not match. *)
Definition isLineTerminator (c : ascii) : bool :=
  (code c =? 10)%N || (code c =? 13)%N.

Definition shift_up (c : ascii) : ascii := ascii_of_N (code c + 32).
Definition shift_down (c : ascii) : ascii := ascii_of_N (code c - 32).

(** [toLowerCase] on one code unit: A-Z and the Latin-1 capitals
    U+00C0..U+00DE (without the multiplication sign U+00D7). *)
Definition lowerChar (c : ascii) : ascii :=
  if isUpperAZ c || (between 192 222 c && negb (code c =? 215)%N)
  then shift_up c else c.

Definition toLowerCase (s : str) : str := map lowerChar s.

(** [toUpperCase]: a-z and U+00E0..U+00FE (without the division sign)
    move down by 32, the sharp s becomes "SS".  The two other Latin-1
    letters whose capitals lie above U+00FF (the micro sign and y with
    diaeresis) stand for their capitals. *)
Definition upperChar (c : ascii) : str :=
  if isLowerAZ c || (between 224 254 c && negb (code c =? 247)%N)
  then [shift_down c]
  else if (code c =? 223)%N then lit "SS"
  else [c].

Definition toUpperCase (s : str) : str := flat_map upperChar s.

Fixpoint str_eqb (a b : str) : bool :=
  match a, b with
  | [], [] => true
  | x :: a', y :: b' => Ascii.eqb x y && str_eqb a' b'
  | _, _ => false
  end.

Fixpoint startsWith (s p : str) {struct p} : bool :=
  match p, s with
  | [], _ => true
  | x :: p', y :: s' => Ascii.eqb x y && startsWith s' p'
  | _ :: _, [] => false
  end.

(** [s.includes(sub)] *)
Fixpoint includes (s sub : str) : bool :=
  startsWith s sub ||
  match s with
  | [] => false
  | _ :: s' => includes s' sub
  end.

Fixpoint trimStart (s : str) : str :=
  match s with
  | c :: s' => if isSpace c then trimStart s' else s
  | [] => []
  end.

Definition trimEnd (s : str) : str := rev (trimStart (rev s)).

Definition trim (s : str) : str := trimEnd (trimStart s).

(** [s.split(sep)] for a one-character separator. *)
Fixpoint split (sep : ascii) (s : str) : list str :=
  match s with
  | [] => [[]]
  | c :: s' =>
      if Ascii.eqb c sep then [] :: split sep s'
      else match split sep s' with
           | w :: ws => (c :: w) :: ws
           | [] => [[c]]
           end
  end.

(** [parts.join(sep)] *)
Fixpoint join (sep : str) (parts : list str) : str :=
  match parts with
  | [] => []
  | [p] => p
  | p :: rest => p ++ sep ++ join sep rest
  end.

(** [s.replace(pat, by)] with a string pattern: the first occurrence. *)
Fixpoint replaceFirst (pat by_ s : str) : str :=
  if startsWith s pat then by_ ++ skipn (length pat) s
  else match s with
       | [] => []
       | c :: s' => c :: replaceFirst pat by_ s'
       end.

(** [array.find(p)] used as a truth value. *)
Definition some {A} (p : A -> bool) (l : list A) : bool := existsb p l.

(** [array.findIndex(p)], [None] standing for -1. *)
Fixpoint findIndex {A} (p : A -> bool) (l : list A) : option nat :=
  match l with
  | [] => None
  | x :: l' => if p x then Some 0
               else match findIndex p l' with
                    | Some i => Some (S i)
                    | None => None
                    end
  end.

(** [array.filter((item, index, self) => p(item, index))] *)
Fixpoint filteri_from {A} (i : nat) (p : A -> nat -> bool) (l : list A) : list A :=
  match l with
  | [] => []
  | x :: l' => if p x i then x :: filteri_from (S i) p l'
               else filteri_from (S i) p l'
  end.

Definition filteri {A} (p : A -> nat -> bool) (l : list A) : list A :=
  filteri_from 0 p l.

End JS.

Import JS.

(* ================================================================== *)
(** ** Regular expressions *)
(* ================================================================== *)

Module Regex.

(** Members of a character class. *)
Inductive citem : Type :=
| CChar (c : ascii)
| CRange (lo hi : ascii)
| CDigit
| CWord
| CSpace.

Inductive regex : Type :=
| Eps
| Chr (c : ascii)
| Cls (neg : bool) (items : list citem)
| Dot
| Seq (a b : regex)
| Alt (a b : regex)
| Rep (r : regex) (lo : nat) (hi : option nat)
| Grp (i : nat) (r : regex)
| WordB
| Bol
| Eol.

(** Surface syntax helpers: a literal word, [r*], [r+], [r?], [r{n}],
    [r{n,m}], a sequence and an alternation of several parts. *)
Fixpoint Str_ (s : str) : regex :=
  match s with
  | [] => Eps
  | [c] => Chr c
  | c :: s' => Seq (Chr c) (Str_ s')
  end.
Definition Str (s : string) : regex := Str_ (lit s).
Definition Star (r : regex) : regex := Rep r 0 None.
Definition Plus (r : regex) : regex := Rep r 1 None.
Definition Opt (r : regex) : regex := Rep r 0 (Some 1).
Definition Times (n : nat) (r : regex) : regex := Rep r n (Some n).
Definition Range (n k : nat) (r : regex) : regex := Rep r n (Some k).
Definition AtLeast (n : nat) (r : regex) : regex := Rep r n None.
Fixpoint Seqs (rs : list regex) : regex :=
  match rs with
  | [] => Eps
  | [r] => r
  | r :: rs' => Seq r (Seqs rs')
  end.
Fixpoint Alts (rs : list regex) : regex :=
  match rs with
  | [] => Eps
  | [r] => r
  | r :: rs' => Alt r (Alts rs')
  end.
Definition ch (s : string) : ascii :=
  match s with
  | String c _ => c
  | EmptyString => "000"%char
  end.
Definition d_ : regex := Cls false [CDigit].
Definition s_ : regex := Cls false [CSpace].
Definition w_ : regex := Cls false [CWord].
Definition AZ : regex := Cls false [CRange (ch "A") (ch "Z")].
Definition az : regex := Cls false [CRange (ch "a") (ch "z")].

(** Canonicalisation of the ignore-case flag: upper case, for the
    letters a-z (a code unit above U+007F is never mapped into ASCII). *)
Definition canon (ci : bool) (c : ascii) : ascii :=
  if ci && isLowerAZ c then shift_down c else c.

Definition swapCase (c : ascii) : ascii :=
  if isLowerAZ c then shift_down c
  else if isUpperAZ c then shift_up c else c.

Definition item_has (it : citem) (c : ascii) : bool :=
  match it with
  | CChar x => Ascii.eqb x c
  | CRange lo hi => between (code lo) (code hi) c
  | CDigit => isDigit c
  | CWord => isWordChar c
  | CSpace => isSpace c
  end.

(** A class contains [c] when one of its members canonicalises to the
    same character. *)
Definition class_has (ci : bool) (items : list citem) (c : ascii) : bool :=
  existsb (fun it => item_has it c || (ci && item_has it (swapCase c))) items.

(** Matcher state: the characters before the current position (nearest
    first), the characters from it on, and the captures. *)
Record mstate : Type := MState {
  before : str;
  after : str;
  caps : list (nat * str)
}.

Definition cont : Type := mstate -> option mstate.

Definition advance (st : mstate) : mstate :=
  match after st with
  | c :: rest => MState (c :: before st) rest (caps st)
  | [] => st
  end.

Definition one (p : ascii -> bool) (st : mstate) (k : cont) : option mstate :=
  match after st with
  | c :: _ => if p c then k (advance st) else None
  | [] => None
  end.

Definition wordAt (s : str) : bool :=
  match s with
  | c :: _ => isWordChar c
  | [] => false
  end.

Definition set_cap (i : nat) (s : str) (st : mstate) : mstate :=
  MState (before st) (after st) ((i, s) :: caps st).

Definition clear_caps (gs : list nat) (st : mstate) : mstate :=
  MState (before st) (after st)
         (filter (fun p => negb (existsb (Nat.eqb (fst p)) gs)) (caps st)).

Fixpoint cap (i : nat) (cs : list (nat * str)) : option str :=
  match cs with
  | [] => None
  | (j, s) :: cs' => if Nat.eqb i j then Some s else cap i cs'
  end.

Fixpoint groups (r : regex) : list nat :=
  match r with
  | Seq a b | Alt a b => groups a ++ groups b
  | Rep r' _ _ => groups r'
  | Grp i r' => i :: groups r'
  | _ => []
  end.

Definition dec (hi : option nat) : option nat :=
  match hi with
  | Some n => Some (Nat.pred n)
  | None => None
  end.

(** The quantifier [body{lo,hi}], greedy.  An iteration past the
    minimum that consumes nothing is rejected; the captures of the
    body are reset before each iteration. *)
Fixpoint rep (body : mstate -> cont -> option mstate) (gs : list nat)
         (fuel lo : nat) (hi : option nat) (st : mstate) (k : cont)
         {struct fuel} : option mstate :=
  match fuel with
  | O => None
  | S fuel' =>
      match hi with
      | Some O => k st
      | _ =>
          let iter :=
            body (clear_caps gs st)
                 (fun st2 =>
                    if Nat.eqb lo 0 &&
                       Nat.eqb (length (after st2)) (length (after st))
                    then None
                    else rep body gs fuel' (Nat.pred lo) (dec hi) st2 k) in
          if Nat.eqb lo 0 then
            match iter with
            | Some res => Some res
            | None => k st
            end
          else iter
      end
  end.

(** [m ci r st k]: match [r] at the position of [st], then continue
    with [k]; [None] is failure, on which the caller backtracks. *)
Fixpoint m (ci : bool) (r : regex) (st : mstate) (k : cont) {struct r}
  : option mstate :=
  match r with
  | Eps => k st
  | Chr c => one (fun x => Ascii.eqb (canon ci x) (canon ci c)) st k
  | Cls neg items => one (fun x => xorb neg (class_has ci items x)) st k
  | Dot => one (fun x => negb (isLineTerminator x)) st k
  | Seq a b => m ci a st (fun st1 => m ci b st1 k)
  | Alt a b =>
      match m ci a st k with
      | Some res => Some res
      | None => m ci b st k
      end
  | Rep r' lo hi =>
      rep (m ci r') (groups r') (lo + length (after st) + 1) lo hi st k
  | Grp i r' =>
      m ci r' st
        (fun st2 =>
           k (set_cap i (firstn (length (after st) - length (after st2))
                                (after st)) st2))
  | WordB =>
      if xorb (wordAt (before st)) (wordAt (after st)) then k st else None
  | Bol => match before st with [] => k st | _ :: _ => None end
  | Eol => match after st with [] => k st | _ :: _ => None end
  end.

(** A regular expression literal: the pattern and its ignore-case flag. *)
Record regexp : Type := RegExp { pattern : regex; ignoreCase : bool }.

(** The result of one successful match: the number of characters
    skipped before it, the matched text and the captures. *)
Record hit : Type := Hit { index : nat; whole : str; subs : list (nat * str) }.

(** The match starting exactly at the current position. *)
Definition matchHere (re : regexp) (bef aft : str) : option (nat * list (nat * str)) :=
  match m (ignoreCase re) (pattern re) (MState bef aft []) (fun st => Some st) with
  | Some st => Some (length aft - length (after st), caps st)
  | None => None
  end.

(** The leftmost match at or after the current position. *)
Fixpoint search (re : regexp) (skipped : nat) (bef aft : str) : option hit :=
  match matchHere re bef aft with
  | Some (n, cs) => Some (Hit skipped (firstn n aft) cs)
  | None =>
      match aft with
      | [] => None
      | c :: rest => search re (S skipped) (c :: bef) rest
      end
  end.

(** [re.exec(s)] / [s.match(re)] without the global flag. *)
Definition exec (re : regexp) (s : str) : option hit := search re 0 [] s.

(** [re.test(s)] *)
Definition test (re : regexp) (s : str) : bool :=
  match exec re s with Some _ => true | None => false end.

(** Capture [i] of a match, the empty string when the group took no
    part in it. *)
Definition group (i : nat) (h : hit) : str :=
  match cap i (subs h) with Some s => s | None => [] end.

(** Replacement text.  A replacement is computed from the matched text
    and the captures: a fixed string, a pattern with [$n] references,
    or a callback of the source. *)
Inductive piece : Type :=
| Lit (s : str)
| Ref (i : nat).

Definition replacement : Type := str -> list (nat * str) -> str.

Definition text (s : str) : replacement := fun _ _ => s.

Definition template (tmpl : list piece) : replacement :=
  fun _ cs =>
    flat_map (fun p => match p with
                       | Lit s => s
                       | Ref i => match cap i cs with Some s => s | None => [] end
                       end) tmpl.

(** [s.replace(re, by)] without the global flag: the first match. *)
Definition replace (re : regexp) (by_ : replacement) (s : str) : str :=
  match exec re s with
  | Some h =>
      firstn (index h) s ++ by_ (whole h) (subs h)
             ++ skipn (index h + length (whole h)) s
  | None => s
  end.

(** The scan of a global regular expression over the rest of the
    string: at each position either a match is taken (an empty one
    moves on by one character) or the character is passed over.
    [onHit] and [onChar] build the result. *)
Fixpoint scan {A} (re : regexp) (onHit : str -> list (nat * str) -> A -> A)
         (onChar : ascii -> A -> A) (nil : A)
         (fuel : nat) (bef aft : str) {struct fuel} : A :=
  match fuel with
  | O => nil
  | S fuel' =>
      match matchHere re bef aft with
      | Some (S n, cs) =>
          onHit (firstn (S n) aft) cs
                (scan re onHit onChar nil fuel'
                      (rev (firstn (S n) aft) ++ bef) (skipn (S n) aft))
      | Some (O, cs) =>
          onHit [] cs
                match aft with
                | [] => nil
                | c :: rest =>
                    onChar c (scan re onHit onChar nil fuel' (c :: bef) rest)
                end
      | None =>
          match aft with
          | [] => nil
          | c :: rest =>
              onChar c (scan re onHit onChar nil fuel' (c :: bef) rest)
          end
      end
  end.

(** [s.replace(re, by)] with the global flag: every match. *)
Definition replaceAll (re : regexp) (by_ : replacement) (s : str) : str :=
  scan re (fun w cs out => by_ w cs ++ out) (fun c out => c :: out) []
       (S (length s)) [] s.

(** [s.match(re)] with the global flag: the matched texts, in order. *)
Definition matchAll (re : regexp) (s : str) : list str :=
  scan re (fun w _ out => w :: out) (fun _ out => out) []
       (S (length s)) [] s.

(** A matcher that hands to its continuation only positions at or
    after its own: its result depends on the continuation at those
    positions alone. *)
Definition forward (body : mstate -> cont -> option mstate) : Prop :=
  forall st k k',
    (forall st2, length (after st2) <= length (after st) -> k st2 = k' st2) ->
    body st k = body st k'.

(** A character that is not white space, or the space itself. *)
Definition tidy (c : ascii) : Prop := isSpace c = false \/ c = " "%char.

End Regex.

Import Regex.

(* ================================================================== *)
(** ** Field extraction ([src/utils/ocrProcessor.ts]) *)
(* ================================================================== *)

Module Fields.

(** [{ label: string; value: string; confidence: number }] *)
Record field : Type := Field {
  label : str;
  value : str;
  confidence : Z
}.

(** [fields.find(f => f.label === l)] as a condition. *)
Definition hasLabel (l : str) (fields : list field) : bool :=
  some (fun f => str_eqb (label f) l) fields.

(** [fields.push(f)] *)
Definition push (fields : list field) (f : field) : list field := fields ++ [f].

(** A [for ... of] loop left by [return] at its first success. *)
Fixpoint firstSome {A B} (f : A -> option B) (l : list A) : option B :=
  match l with
  | [] => None
  | x :: l' => match f x with
               | Some y => Some y
               | None => firstSome f l'
               end
  end.

(** "/\s+/g" *)
Definition re_ws : regexp := RegExp (Plus s_) false.

(** *** Document type *)

Definition detectDocumentType (lines : list str) : str :=
  let fullText := toLowerCase (join " " lines) in
  if includes fullText "licence" || includes fullText "license"
     || includes fullText "driver" then lit "license"
  else if includes fullText "invoice" || includes fullText "receipt"
          || includes fullText "total" || includes fullText "amount"
       then lit "invoice"
  else if includes fullText "passport" || includes fullText "travel document"
       then lit "passport"
  else if includes fullText "card" || includes fullText "id"
          || includes fullText "identification" then lit "id"
  else lit "generic".

(** The classification in the words of the specification: the
    categories in priority order, each with its keywords; the first
    category one of whose keywords occurs in the text wins, and the
    document is generic when none does. *)
Definition licenseKeywords : list str := map lit ["licence"; "license"; "driver"].
Definition invoiceKeywords : list str :=
  map lit ["invoice"; "receipt"; "total"; "amount"].
Definition passportKeywords : list str := map lit ["passport"; "travel document"].
Definition idKeywords : list str := map lit ["card"; "id"; "identification"].

Definition priorityTable : list (str * list str) :=
  [(lit "license", licenseKeywords); (lit "invoice", invoiceKeywords);
   (lit "passport", passportKeywords); (lit "id", idKeywords)].

Definition firstMatchingCategory (fullText : str) : str :=
  match find (fun category => existsb (includes fullText) (snd category))
             priorityTable with
  | Some category => fst category
  | None => lit "generic"
  end.

(** Some line of the document contains the keyword, in any letter case. *)
Definition mentions (lines : list str) (keyword : str) : bool :=
  existsb (fun line => includes (toLowerCase line) keyword) lines.

(** *** Document structure *)

Record DocumentStructure : Type := Structure {
  headerSection : list str;
  cardSection : list str;
  addressSection : list str;
  classSection : list str;
  dateSection : list str;
  feeSection : list str;
  allText : str;
  lineContexts : list (str * list str * nat)
}.

Definition letters_or_space : regex :=
  Cls false [CRange (ch "a") (ch "z"); CRange (ch "A") (ch "Z"); CSpace].

Definition street_suffix : regex :=
  Alts [Str "ave"; Str "road"; Str "street"; Str "drive"; Str "lane";
        Str "way"; Str "place"; Str "close"; Str "court"; Str "crescent";
        Str "st"].

(** "/\b\d+\s+[a-zA-Z\s]+(?:ave|road|...|crescent|st)\b/i" *)
Definition re_street_line : regexp :=
  RegExp (Seqs [WordB; Plus d_; Plus s_; Plus letters_or_space;
                street_suffix; WordB]) true.

(** "/\b[a-zA-Z\s]+NSW\s+\d{4}\b/i" *)
Definition re_nsw_line : regexp :=
  RegExp (Seqs [WordB; Plus letters_or_space; Str "NSW"; Plus s_;
                Times 4 d_; WordB]) true.

(** "/\bC\s*&\s*[A-Z][a-z]*\s*[A-Z]\b/i" *)
Definition re_class_line : regexp :=
  RegExp (Seqs [WordB; Chr (ch "C"); Star s_; Chr (ch "&"); Star s_;
                AZ; Star az; Star s_; AZ; WordB]) true.

(** "/\b\d{1,2}\s+[a-z]{3}\s+\d{4}\b/i" *)
Definition re_date_line : regexp :=
  RegExp (Seqs [WordB; Range 1 2 d_; Plus s_; Times 3 az; Plus s_;
                Times 4 d_; WordB]) true.

(** "/\$\d+(?:\.\d{2})?/" *)
Definition re_dollars : regexp :=
  RegExp (Seqs [Chr (ch "$"); Plus d_;
                Opt (Seq (Chr (ch ".")) (Times 2 d_))]) false.

(** The lines around line [index]: from [max(0, index-2)] to
    [min(length-1, index+2)], without the line itself. *)
Definition contextOf (lines : list str) (index : nat) : list str :=
  flat_map (fun i => if Nat.eqb i index then []
                     else match nth_error lines i with
                          | Some l => [l]
                          | None => []
                          end)
           (seq (index - 2)
                (S (Nat.min (length lines - 1) (index + 2)) - (index - 2))).

Definition indexed {A} (l : list A) : list (A * nat) :=
  combine l (seq 0 (length l)).

Definition pushIf (c : bool) (section : list str) (line : str) : list str :=
  if c then section ++ [line] else section.

Definition categorize (structure : DocumentStructure) (entry : str * nat)
  : DocumentStructure :=
  let (line, index) := entry in
  let lowerLine := toLowerCase line in
  Structure
    (pushIf (index <? 3) (headerSection structure) line)
    (pushIf (includes lowerLine "card" || includes lowerLine "licence"
             || includes lowerLine "number") (cardSection structure) line)
    (pushIf (test re_street_line line || test re_nsw_line line)
            (addressSection structure) line)
    (pushIf (includes lowerLine "class" || test re_class_line line)
            (classSection structure) line)
    (pushIf (test re_date_line line || includes lowerLine "birth"
             || includes lowerLine "expir" || includes lowerLine "date")
            (dateSection structure) line)
    (pushIf (includes lowerLine "fee" || test re_dollars line)
            (feeSection structure) line)
    (allText structure)
    (lineContexts structure).

Definition analyzeDocumentStructure (lines : list str) : DocumentStructure :=
  let structure :=
    Structure [] [] [] [] [] [] (toLowerCase (join " " lines))
              (map (fun e => (fst e, contextOf lines (snd e), snd e))
                   (indexed lines)) in
  fold_left categorize (indexed lines) structure.

(** *** Card number *)

Definition cardPatterns : list regexp :=
  [ (* "/\b([A-Z]\d{1,3}\s+\d{3}\s+\d{3})\b/" *)
    RegExp (Seqs [WordB;
                  Grp 1 (Seqs [AZ; Range 1 3 d_; Plus s_; Times 3 d_;
                               Plus s_; Times 3 d_]);
                  WordB]) false;
    (* "/\b([A-Z]\s*\d{1,3}\s*\d{3}\s*\d{3})\b/" *)
    RegExp (Seqs [WordB;
                  Grp 1 (Seqs [AZ; Star s_; Range 1 3 d_; Star s_;
                               Times 3 d_; Star s_; Times 3 d_]);
                  WordB]) false;
    (* "/\b([A-Z]\d{7})\b/" *)
    RegExp (Seqs [WordB; Grp 1 (Seq AZ (Times 7 d_)); WordB]) false;
    (* "/\b(\d{6,9})\b/" *)
    RegExp (Seqs [WordB; Grp 1 (Range 6 9 d_); WordB]) false ].

Definition isValidCardNumber (cardNumber : str) : bool :=
  let clean := replaceAll re_ws (text "") cardNumber in
  (* "/^[A-Z]\d{6,8}$/" *)
  if test (RegExp (Seqs [Bol; AZ; Range 6 8 d_; Eol]) false) clean then true
  (* "/^\d{6,9}$/" *)
  else if test (RegExp (Seqs [Bol; Range 6 9 d_; Eol]) false) clean then true
  (* "/^\d{4,}\s+\d{2,}$/" *)
  else if test (RegExp (Seqs [Bol; AtLeast 4 d_; Plus s_; AtLeast 2 d_; Eol])
                       false) cardNumber then true
  else false.

Definition extractCardNumber (fields : list field) (structure : DocumentStructure)
  : list field :=
  if hasLabel "Card Number" fields then fields
  else
    match firstSome
            (fun pattern =>
               firstSome
                 (fun line =>
                    match exec pattern line with
                    | Some h =>
                        let raw := trim (replaceAll re_ws (text " ") (group 1 h)) in
                        if isValidCardNumber raw then Some raw else None
                    | None => None
                    end)
                 (cardSection structure))
            cardPatterns with
    | Some raw => push fields (Field "Card Number" raw 95)
    | None => fields
    end.

(** *** Name *)

Definition commonWords : list str :=
  map lit
    ["New"; "South"; "Wales"; "Australia"; "Transport"; "NSW"; "Licence";
     "Class"; "Date"; "Birth"; "Expiry"; "Number"; "Card"; "Address"; "Road";
     "Avenue"; "Street"; "Drive"; "Lane"; "Way"; "Place"; "Close"; "Court";
     "Crescent"; "The"; "And"; "For"; "With"; "From"; "This"; "That"; "Will";
     "Have"; "Been"].

Definition isCommonWord (text : str) : bool :=
  some (fun word => includes text word) commonWords.

(** "[A-Z][a-z]+" *)
Definition capitalized : regex := Seq AZ (Plus az).

(** "/\b([A-Z][a-z]+(?:\s+[A-Z][a-z]+){1,3})\b/" *)
Definition re_name : regexp :=
  RegExp (Seqs [WordB;
                Grp 1 (Seq capitalized (Range 1 3 (Seq (Plus s_) capitalized)));
                WordB]) false.

Definition isValidName (name : str) : bool :=
  if isCommonWord name then false
  else if (length name <? 5) || (50 <? length name) then false
  (* "/^[A-Z][a-z]+(?:\s+[A-Z][a-z]+)+$/" *)
  else if negb (test (RegExp (Seqs [Bol; capitalized;
                                    Plus (Seq (Plus s_) capitalized); Eol])
                             false) name) then false
  else
    let parts := split (ch " ") name in
    (2 <=? length parts) && forallb (fun part => 2 <=? length part) parts.

Definition extractName (fields : list field) (structure : DocumentStructure)
  : list field :=
  if hasLabel "Name" fields then fields
  else
    let searchSections := cardSection structure ++ headerSection structure in
    match firstSome
            (fun line =>
               match exec re_name line with
               | Some nameMatch =>
                   if (4 <? length (group 1 nameMatch))
                      && isValidName (group 1 nameMatch)
                   then Some (group 1 nameMatch) else None
               | None => None
               end)
            searchSections with
    | Some name => push fields (Field "Name" name 97)
    | None => fields
    end.

(** *** Address *)

Definition STREET_SUFFIX : regex :=
  Alts [Str "AVE"; Str "ROAD"; Str "STREET"; Str "DRIVE"; Str "LANE";
        Str "WAY"; Str "PLACE"; Str "CLOSE"; Str "COURT"; Str "CRESCENT";
        Str "ST"].

(** "[A-Z][a-z]+(?:\s+[A-Z][a-z]+)*" *)
Definition capitalized_words : regex :=
  Seq capitalized (Star (Seq (Plus s_) capitalized)).

(** "/\b(\d+)\s+(WORDS)\s+(AVE|ROAD|...|CRESCENT|ST)\b/i", WORDS being
    the pattern [capitalized_words]. *)
Definition re_street : regexp :=
  RegExp (Seqs [WordB; Grp 1 (Plus d_); Plus s_; Grp 2 capitalized_words;
                Plus s_; Grp 3 STREET_SUFFIX; WordB]) true.

(** "/\b(WORDS)\s+NSW\s+(\d{4})\b/", WORDS being [capitalized_words]. *)
Definition re_suburb : regexp :=
  RegExp (Seqs [WordB; Grp 1 capitalized_words; Plus s_; Str "NSW"; Plus s_;
                Grp 2 (Times 4 d_); WordB]) false.

Definition isValidAddress (address : str) : bool :=
  (10 <? length address)
  (* "/\b\d+\s+[A-Z][a-z]+\s+(?:AVE|...|ST)\b/i" *)
  && test (RegExp (Seqs [WordB; Plus d_; Plus s_; capitalized; Plus s_;
                         STREET_SUFFIX; WordB]) true) address
  (* "/\bNSW\s+\d{4}\b/" *)
  && test (RegExp (Seqs [WordB; Str "NSW"; Plus s_; Times 4 d_; WordB]) false)
          address.

Definition addressPartsOf (line : str) : list str :=
  (match exec re_street line with
   | Some streetMatch =>
       [group 1 streetMatch ++ lit " " ++ group 2 streetMatch ++ lit " "
          ++ group 3 streetMatch]
   | None => []
   end)
  ++
  (match exec re_suburb line with
   | Some suburbMatch =>
       [group 1 suburbMatch ++ lit " NSW " ++ group 2 suburbMatch]
   | None => []
   end).

Definition extractAddress (fields : list field) (structure : DocumentStructure)
  : list field :=
  if hasLabel "Address" fields then fields
  else
    let addressParts := flat_map addressPartsOf (addressSection structure) in
    if 0 <? length addressParts then
      let fullAddress := join ", " addressParts in
      if isValidAddress fullAddress
      then push fields (Field "Address" fullAddress 95)
      else fields
    else fields.

(** *** Licence class *)

Definition validClasses : list str :=
  map lit ["C"; "C & Ty A"; "CA"; "MR"; "HR"; "HC"; "MC"].

Definition isValidLicenseClass (classValue : str) : bool :=
  let normalized := toUpperCase (replaceAll re_ws (text " ") classValue) in
  some (fun cls => includes normalized (replaceAll re_ws (text " ") cls))
       validClasses.

(** "[A-Z]\s*&\s*[A-Z][a-z]*\s*[A-Z]" *)
Definition class_pair : regex :=
  Seqs [AZ; Star s_; Chr (ch "&"); Star s_; AZ; Star az; Star s_; AZ].

Definition classPatterns : list regexp :=
  [ (* "/\bClass\s+(PAIR|[A-Z]+(?:\s+[A-Z]+)* )\b/i", PAIR being [class_pair] *)
    RegExp (Seqs [WordB; Str "Class"; Plus s_;
                  Grp 1 (Alt class_pair
                             (Seq (Plus AZ) (Star (Seq (Plus s_) (Plus AZ)))));
                  WordB]) true;
    (* "/\b([A-Z]\s*&\s*[A-Z][a-z]*\s*[A-Z])\b/" *)
    RegExp (Seqs [WordB; Grp 1 class_pair; WordB]) false;
    (* "/\b(C\s*&\s*Ty\s*A)\b/i" *)
    RegExp (Seqs [WordB;
                  Grp 1 (Seqs [Chr (ch "C"); Star s_; Chr (ch "&"); Star s_;
                               Str "Ty"; Star s_; Chr (ch "A")]);
                  WordB]) true ].

(** "/\b([A-Z]{1,2})\b/" *)
Definition re_single_class : regexp :=
  RegExp (Seqs [WordB; Grp 1 (Range 1 2 AZ); WordB]) false.

Definition extractLicenseClass (fields : list field) (structure : DocumentStructure)
  : list field :=
  if hasLabel "License Class" fields then fields
  else
    match firstSome
            (fun line =>
               firstSome
                 (fun pattern =>
                    match exec pattern line with
                    | Some h =>
                        if isValidLicenseClass (group 1 h)
                        then Some (trim (replaceAll re_ws (text " ") (group 1 h)))
                        else None
                    | None => None
                    end)
                 classPatterns)
            (classSection structure) with
    | Some classValue => push fields (Field "License Class" classValue 96)
    | None =>
        match exec re_single_class (allText structure) with
        | Some singleClassMatch =>
            if isValidLicenseClass (group 1 singleClassMatch)
            then push fields (Field "License Class" (group 1 singleClassMatch) 85)
            else fields
        | None => fields
        end
    end.

(** *** Dates *)

(** "/\b(\d{1,2}\s+[A-Z]{3}\s+\d{4})\b/gi" *)
Definition re_dates : regexp :=
  RegExp (Seqs [WordB;
                Grp 1 (Seqs [Range 1 2 d_; Plus s_; Times 3 AZ; Plus s_;
                             Times 4 d_]);
                WordB]) true.

(** One step of [uniqueDates.forEach]. *)
Definition assignDate (fields : list field) (item : str * str) : list field :=
  let (date, context) := item in
  if includes context "birth" && negb (hasLabel "Date of Birth" fields)
  then push fields (Field "Date of Birth" date 98)
  else if (includes context "expir" || includes context "valid")
          && negb (hasLabel "Expiry Date" fields)
       then push fields (Field "Expiry Date" date 98)
       else fields.

Definition extractDates (fields : list field) (structure : DocumentStructure)
  : list field :=
  let extractedDates :=
    flat_map (fun line =>
                map (fun date => (toUpperCase date, toLowerCase line))
                    (matchAll re_dates line))
             (dateSection structure) in
  let uniqueDates :=
    filteri (fun item index =>
               match findIndex (fun t => str_eqb (fst t) (fst item))
                               extractedDates with
               | Some i => Nat.eqb index i
               | None => false
               end)
            extractedDates in
  let fields := fold_left assignDate uniqueDates fields in
  let remainingDates :=
    filter (fun item => negb (some (fun f => str_eqb (value f) (fst item)) fields))
           uniqueDates in
  let fields :=
    match remainingDates with
    | d0 :: _ =>
        if negb (hasLabel "Date of Birth" fields)
        then push fields (Field "Date of Birth" (fst d0) 90)
        else fields
    | [] => fields
    end in
  match remainingDates with
  | _ :: d1 :: _ =>
      if negb (hasLabel "Expiry Date" fields)
      then push fields (Field "Expiry Date" (fst d1) 90)
      else fields
  | _ => fields
  end.

(** *** Licence fee *)

(** What [parseFloat] reads at the start of a string: nothing that
    is a number, an infinity, or a signed decimal
    [digits * 10^exponent]. *)
Inductive literal : Type :=
| NaN
| Infinity (negative : bool)
| Decimal (negative : bool) (digits : N) (exponent : Z).

Fixpoint takeDigits (s : str) : str * str :=
  match s with
  | c :: s' => if isDigit c
               then let (ds, rest) := takeDigits s' in (c :: ds, rest)
               else ([], s)
  | [] => ([], [])
  end.

Definition digitsValue (ds : str) : N :=
  fold_left (fun acc c => (acc * 10 + (code c - 48))%N) ds 0%N.

Definition takeSign (s : str) : bool * str :=
  match s with
  | c :: s' => if Ascii.eqb c (ch "-") then (true, s')
               else if Ascii.eqb c (ch "+") then (false, s')
               else (false, s)
  | [] => (false, [])
  end.

(** The longest prefix of the trimmed string that is a decimal literal. *)
Definition readLiteral (s : str) : literal :=
  let (negative, s0) := takeSign (trimStart s) in
  if startsWith s0 "Infinity" then Infinity negative
  else
    let (ip, s1) := takeDigits s0 in
    let (fp, s2) :=
      match s1 with
      | c :: r => if Ascii.eqb c (ch ".") then takeDigits r else ([], s1)
      | [] => ([], s1)
      end in
    if Nat.eqb (length ip) 0 && Nat.eqb (length fp) 0 then NaN
    else
      let e :=
        match s2 with
        | c :: r =>
            if Ascii.eqb c (ch "e") || Ascii.eqb c (ch "E") then
              let (eneg, r') := takeSign r in
              let (ed, _) := takeDigits r' in
              if Nat.eqb (length ed) 0 then 0%Z
              else if eneg then (- Z.of_N (digitsValue ed))%Z
                   else Z.of_N (digitsValue ed)
            else 0%Z
        | [] => 0%Z
        end in
      Decimal negative (digitsValue (ip ++ fp)) (e - Z.of_nat (length fp)).

(** The double nearest to [digits * 10^e], a tie going to the even one.
    The two tests on [e] only spare the computation of a large power:
    from 10^309 on the value is beyond the largest double, and a value
    below 10^-324 is less than half the smallest one. *)
Definition nearestDouble (digits : N) (e : Z) : SpecFloat.spec_float :=
  let m := Z.of_N digits in
  if (m =? 0)%Z then SpecFloat.S754_zero false
  else if (309 <=? e)%Z then SpecFloat.S754_infinity false
  else if (Z.of_N (N.log2 digits) / 3 + 1 + e <=? -324)%Z
       then SpecFloat.S754_zero false
  else if (0 <=? e)%Z
       then SpecFloat.binary_normalize 53 1024 (m * 10 ^ e) 0 false
       else
         let '(q, e', l) :=
           SpecFloat.SFdiv_core_binary 53 1024 m 0 (10 ^ (- e)) 0 in
         SpecFloat.binary_round_aux 53 1024 false q e' l.

Section Amounts.

Import PrimFloat.

(** The Number value of a literal. *)
Definition numberValue (l : literal) : float :=
  match l with
  | NaN => nan
  | Infinity negative => if negative then neg_infinity else infinity
  | Decimal negative digits e =>
      let x := FloatOps.SF2Prim (nearestDouble digits e) in
      if negative then (- x)%float else x
  end.

Definition parseFloat (s : str) : float := numberValue (readLiteral s).

(** [num > 0 && num < 10000] *)
Definition isValidAmount (amount : str) : bool :=
  let num := parseFloat amount in
  (0 <? num)%float && (num <? 10000)%float.

End Amounts.

(** "/\bLicence\s+Fee\s+\$?(\d+(?:\.\d{2})?)\b/i" *)
Definition re_fee : regexp :=
  RegExp (Seqs [WordB; Str "Licence"; Plus s_; Str "Fee"; Plus s_;
                Opt (Chr (ch "$"));
                Grp 1 (Seq (Plus d_) (Opt (Seq (Chr (ch ".")) (Times 2 d_))));
                WordB]) true.

Definition extractLicenseFee (fields : list field) (structure : DocumentStructure)
  : list field :=
  if hasLabel "License Fee" fields then fields
  else
    match firstSome
            (fun line =>
               match exec re_fee line with
               | Some feeMatch =>
                   if isValidAmount (group 1 feeMatch)
                   then Some (group 1 feeMatch) else None
               | None => None
               end)
            (feeSection structure) with
    | Some amount => push fields (Field "License Fee" (lit "$" ++ amount) 97)
    | None => fields
    end.

(** *** Final validation *)

(** "/\b\d{1,2}\s+[A-Z]{3}\s+\d{4}\b/" *)
Definition re_date_value : regexp :=
  RegExp (Seqs [WordB; Range 1 2 d_; Plus s_; Times 3 AZ; Plus s_;
                Times 4 d_; WordB]) false.

Definition minConfidence : Z := 75.

Definition keepField (field : field) : bool :=
  if (confidence field <? minConfidence)%Z then false
  else if str_eqb (label field) "Card Number"
       then isValidCardNumber (value field)
  else if str_eqb (label field) "Name"
       then isValidName (value field) || (75 <=? confidence field)%Z
  else if str_eqb (label field) "Address"
       then isValidAddress (value field) || (75 <=? confidence field)%Z
  else if str_eqb (label field) "License Class"
       then isValidLicenseClass (value field) || (70 <=? confidence field)%Z
  else if str_eqb (label field) "Date of Birth"
          || str_eqb (label field) "Expiry Date"
       then test re_date_value (value field) || (70 <=? confidence field)%Z
  else if str_eqb (label field) "License Fee"
       then isValidAmount (replaceFirst "$" "" (value field))
            || (80 <=? confidence field)%Z
  else true.

Definition validateAndFilterFields (fields : list field)
           (structure : DocumentStructure) : list field :=
  filter keepField fields.

Definition extractLicenseFields (lines : list str) : list field :=
  let fields : list field := [] in
  let documentStructure := analyzeDocumentStructure lines in
  let fields := extractCardNumber fields documentStructure in
  let fields := extractName fields documentStructure in
  let fields := extractAddress fields documentStructure in
  let fields := extractLicenseClass fields documentStructure in
  let fields := extractDates fields documentStructure in
  let fields := extractLicenseFee fields documentStructure in
  validateAndFilterFields fields documentStructure.

(** *** Invoices and receipts *)

(** "/\b(?:invoice|receipt)\s*(?:no\.?|number|#)?\s*([A-Z0-9-]+)\b/i" *)
Definition re_invoice : regexp :=
  RegExp (Seqs [WordB; Alt (Str "invoice") (Str "receipt"); Star s_;
                Opt (Alts [Seq (Str "no") (Opt (Chr (ch ".")));
                           Str "number"; Chr (ch "#")]);
                Star s_;
                Grp 1 (Plus (Cls false [CRange (ch "A") (ch "Z");
                                        CRange (ch "0") (ch "9");
                                        CChar (ch "-")]));
                WordB]) true.

(** "/\b(?:total|amount|sum)\s*\$?\s*(\d+(?:\.\d{2})?)\b/i" *)
Definition re_total : regexp :=
  RegExp (Seqs [WordB; Alts [Str "total"; Str "amount"; Str "sum"]; Star s_;
                Opt (Chr (ch "$")); Star s_;
                Grp 1 (Seq (Plus d_) (Opt (Seq (Chr (ch ".")) (Times 2 d_))));
                WordB]) true.

(** "[/-]" *)
Definition slash_or_dash : regex := Cls false [CChar (ch "/"); CChar (ch "-")].

(** "/\b(\d{1,2}[/-]\d{1,2}[/-]\d{2,4})\b/" *)
Definition re_numeric_date : regexp :=
  RegExp (Seqs [WordB;
                Grp 1 (Seqs [Range 1 2 d_; slash_or_dash; Range 1 2 d_;
                             slash_or_dash; Range 2 4 d_]);
                WordB]) false.

(** The body of the loop over the lines. *)
Definition invoiceLine (fields : list field) (line : str) : list field :=
  let fields :=
    match exec re_invoice line with
    | Some invoiceMatch =>
        if negb (hasLabel "Invoice Number" fields)
        then push fields (Field "Invoice Number" (group 1 invoiceMatch) 90)
        else fields
    | None => fields
    end in
  let fields :=
    match exec re_total line with
    | Some totalMatch =>
        if negb (hasLabel "Total Amount" fields)
        then push fields (Field "Total Amount" (lit "$" ++ group 1 totalMatch) 95)
        else fields
    | None => fields
    end in
  match exec re_numeric_date line with
  | Some dateMatch =>
      if negb (hasLabel "Date" fields)
      then push fields (Field "Date" (group 1 dateMatch) 85)
      else fields
  | None => fields
  end.

Definition extractInvoiceFields (lines : list str) : list field :=
  fold_left invoiceLine lines [].

(** *** Passports *)

(** "/\b([A-Z]\d{7,9})\b/" *)
Definition re_passport : regexp :=
  RegExp (Seqs [WordB; Grp 1 (Seq AZ (Range 7 9 d_)); WordB]) false.

Definition passportLine (fields : list field) (line : str) : list field :=
  let fields :=
    match exec re_passport line with
    | Some passportMatch =>
        if negb (hasLabel "Passport Number" fields)
        then push fields (Field "Passport Number" (group 1 passportMatch) 95)
        else fields
    | None => fields
    end in
  let fields :=
    match exec re_name line with
    | Some nameMatch =>
        if negb (hasLabel "Name" fields)
        then push fields (Field "Name" (group 1 nameMatch) 90)
        else fields
    | None => fields
    end in
  match exec re_numeric_date line with
  | Some dateMatch =>
      if includes (toLowerCase line) "issue"
         && negb (hasLabel "Issue Date" fields)
      then push fields (Field "Issue Date" (group 1 dateMatch) 90)
      else if includes (toLowerCase line) "expiry"
              && negb (hasLabel "Expiry Date" fields)
           then push fields (Field "Expiry Date" (group 1 dateMatch) 90)
           else fields
  | None => fields
  end.

Definition extractPassportFields (lines : list str) : list field :=
  fold_left passportLine lines [].

(** *** Generic documents *)

Definition artifacts : list str :=
  map lit ["image"; "scan"; "page"; "document"; "photo"; "picture"; "file"].

(** "/^[^\w\s]+$/" *)
Definition re_garbage : regexp :=
  RegExp (Seqs [Bol; Plus (Cls true [CWord; CSpace]); Eol]) false.

Definition isMeaningfulField (label value : str) : bool :=
  if (length label <? 2) || (50 <? length label)
     || (length value <? 1) || (200 <? length value) then false
  (* "/^\d+$/" *)
  else if test (RegExp (Seqs [Bol; Plus d_; Eol]) false) label
          || Nat.eqb (length label) 1 then false
  else if test re_garbage label || test re_garbage value then false
  else if some (fun artifact => includes (toLowerCase label) artifact) artifacts
       then false
  else true.

Definition cleanFieldLabel (label : str) : str :=
  let label := replace (RegExp (Seq (Chr (ch ":")) Eol) false) (text "") label in
  (* "/^\s+|\s+$/g" *)
  let label :=
    replaceAll (RegExp (Alt (Seq Bol (Plus s_)) (Seq (Plus s_) Eol)) false)
               (text "") label in
  (* "/\b\w/g", with the callback [l => l.toUpperCase()] *)
  let label :=
    replaceAll (RegExp (Seq WordB w_) false) (fun l _ => toUpperCase l) label in
  replaceAll re_ws (text " ") label.

(** "[\w.-]" *)
Definition mail_char : regex :=
  Cls false [CWord; CChar (ch "."); CChar (ch "-")].

(** "/\b[\w.-]+@[\w.-]+\.\w+\b/" *)
Definition re_email : regexp :=
  RegExp (Seqs [WordB; Plus mail_char; Chr (ch "@"); Plus mail_char;
                Chr (ch "."); Plus w_; WordB]) false.

(** "[-.\s]" *)
Definition phone_sep : regex :=
  Cls false [CChar (ch "-"); CChar (ch "."); CSpace].

(** "/\b(\+?\d{1,3}[-.\s]?)?\(?\d{3}\)?[-.\s]?\d{3}[-.\s]?\d{4}\b/" *)
Definition re_phone : regexp :=
  RegExp (Seqs [WordB;
                Opt (Grp 1 (Seqs [Opt (Chr (ch "+")); Range 1 3 d_;
                                  Opt phone_sep]));
                Opt (Chr (ch "(")); Times 3 d_; Opt (Chr (ch ")"));
                Opt phone_sep; Times 3 d_; Opt phone_sep; Times 4 d_;
                WordB]) false.

(** "/\bhttps?:\/\/[^\s]+\b/" *)
Definition re_url : regexp :=
  RegExp (Seqs [WordB; Str "http"; Opt (Chr (ch "s")); Str "://";
                Plus (Cls true [CSpace]); WordB]) false.

Definition extractStandaloneFields (line : str) (fields : list field)
  : list field :=
  let fields :=
    match exec re_email line with
    | Some emailMatch =>
        if negb (hasLabel "Email" fields)
        then push fields (Field "Email" (whole emailMatch) 90)
        else fields
    | None => fields
    end in
  let fields :=
    match exec re_phone line with
    | Some phoneMatch =>
        if negb (hasLabel "Phone" fields)
        then push fields (Field "Phone" (whole phoneMatch) 85)
        else fields
    | None => fields
    end in
  match exec re_url line with
  | Some urlMatch =>
      if negb (hasLabel "Website" fields)
      then push fields (Field "Website" (whole urlMatch) 85)
      else fields
  | None => fields
  end.

(** "/^([^:]+):\s*(.+)$/i" *)
Definition re_label_value : regexp :=
  RegExp (Seqs [Bol; Grp 1 (Plus (Cls true [CChar (ch ":")])); Chr (ch ":");
                Star s_; Grp 2 (Plus Dot); Eol]) true.

Definition genericLine (fields : list field) (line : str) : list field :=
  let fields :=
    match exec re_label_value line with
    | Some labelValueMatch =>
        let label := trim (group 1 labelValueMatch) in
        let value := trim (group 2 labelValueMatch) in
        if isMeaningfulField label value
        then push fields (Field (cleanFieldLabel label) value 80)
        else fields
    | None => fields
    end in
  extractStandaloneFields line fields.

Definition extractGenericFields (lines : list str) : list field :=
  fold_left genericLine lines [].

(** *** Entry point *)

(** The [lines] of [extractFields]. *)
Definition linesOf (text_ : str) : list str :=
  let cleanText := trim (replaceAll re_ws (text " ") text_) in
  filter (fun line => 0 <? length line)
         (map trim (split newline cleanText)).

Definition extractFields (text_ : str) : list field :=
  let lines := linesOf text_ in
  let documentType := detectDocumentType lines in
  if str_eqb documentType "license" || str_eqb documentType "id"
  then extractLicenseFields lines
  else if str_eqb documentType "invoice" || str_eqb documentType "receipt"
  then extractInvoiceFields lines
  else if str_eqb documentType "passport"
  then extractPassportFields lines
  else extractGenericFields lines.

(** The removal of duplicates of [handleFileSelect]:
    [allFields.filter((field, index, self) => index === self.findIndex(
       f => f.label === field.label && f.value === field.value))]. *)
Definition removeDuplicates (allFields : list field) : list field :=
  filteri (fun field index =>
             match findIndex (fun f => str_eqb (label f) (label field)
                                       && str_eqb (value f) (value field))
                             allFields with
             | Some i => Nat.eqb index i
             | None => false
             end)
          allFields.

(** *** Notions used in the statements

    A field is confident when it reaches the validation threshold. *)
Definition confident (f : field) : Prop := (75 <= confidence f)%Z.

(** The invariant of the field list while it is built. *)
Definition well (fields : list field) : Prop :=
  NoDup (map label fields) /\ Forall confident fields.

(** The two date lines of the specification. *)
Definition birthLine : str := "Date of Birth 20 AUG 1976".
Definition expiryLine : str := "Expiry 19 JAN 2029".

End Fields.

(* ================================================================== *)
(** ** Recognition ([performOCR]) *)
(* ================================================================== *)

Module Recognition.

(** Parts separated by a separator, as in "New\s+South\s+Wales". *)
Fixpoint SepBy (sep : regex) (rs : list regex) : regex :=
  match rs with
  | [] => Eps
  | [r] => r
  | r :: rs' => Seq r (Seq sep (SepBy sep rs'))
  end.

(** Literal words separated by "\s+", between word boundaries. *)
Definition words (ci : bool) (ws : list string) : regexp :=
  RegExp (Seqs [WordB; SepBy (Plus s_) (map Str ws); WordB]) ci.

(** Literal pieces separated by "\s*", between word boundaries. *)
Definition pieces (ci : bool) (ws : list string) : regexp :=
  RegExp (Seqs [WordB; SepBy (Star s_) (map Str ws); WordB]) ci.

(** [corrected.replace(re, by)] with a fixed replacement string. *)
Definition fix_ (re : regexp) (by_ : string) (corrected : str) : str :=
  replace re (text by_) corrected.

(** "/[^\x20-\x7E\u00A0-\uFFFF]/g"; the code units of this model end at
    U+00FF. *)
Definition re_unprintable : regexp :=
  RegExp (Cls true [CRange (ascii_of_N 32) (ascii_of_N 126);
                    CRange (ascii_of_N 160) (ascii_of_N 255)]) false.

(** "/\b(name|card|licence|address|date|class|fee)\b/i" *)
Definition re_keyword : regexp :=
  RegExp (Seqs [WordB;
                Grp 1 (Alts [Str "name"; Str "card"; Str "licence";
                             Str "address"; Str "date"; Str "class";
                             Str "fee"]);
                WordB]) true.

(** "/[^\w\s.,\-/&$]/g" *)
Definition re_special : regexp :=
  RegExp (Cls true [CWord; CSpace; CChar (ch "."); CChar (ch ",");
                    CChar (ch "-"); CChar (ch "/"); CChar (ch "&");
                    CChar (ch "$")]) false.

(** The callback of [lines.map((line, index) => ...)]. *)
Definition correctLine (lines : list str) (entry : str * nat) : str :=
  let (line, index) := entry in
  let corrected := line in
  (* License document specific corrections *)
  let corrected :=
    if includes (toLowerCase line) "new" && includes (toLowerCase line) "wales"
    then
      let corrected :=
        fix_ (words true ["New"; "Bouth"; "Wales"]) "New South Wales" corrected in
      fix_ (words true ["New"; "South"; "Wales"; "Australia"])
           "New South Wales, Australia" corrected
    else corrected in
  (* Name corrections with context awareness *)
  let corrected :=
    if (index <? 3)
       || match nth_error lines (index - 1) with
          | Some previous => includes (toLowerCase previous) "card"
          | None => false
          end
    then
      let corrected :=
        fix_ (words true ["Bhupendragdiri"]) "Bhupendra Giri" corrected in
      let corrected :=
        fix_ (words true ["GAUSWAMI"; "VEJAY"; "GIR"]) "GAUSWAMI VEJAY GIR"
             corrected in
      fix_ (words true ["MARIAM"; "RIZWAN"; "KHAN"]) "MARIAM RIZWAN KHAN"
           corrected
    else corrected in
  (* Address corrections *)
  let corrected := fix_ (words true ["Cos"; "iy"]) "Cos iy" corrected in
  let corrected := fix_ (words true ["WENTWORTHVILLE"]) "WENTWORTHVILLE" corrected in
  let corrected := fix_ (words true ["CHRISTIAN"]) "CHRISTIAN" corrected in
  let corrected := fix_ (words true ["NORTHMEAD"; "AVE"]) "NORTHMEAD AVE" corrected in
  (* Card number corrections *)
  let corrected := fix_ (pieces false ["G4"; "307"; "169"]) "G4 307 169" corrected in
  let corrected :=
    fix_ (pieces false ["G"; "4"; "3"; "0"; "7"; "1"; "6"; "9"]) "G4 307 169"
         corrected in
  (* License class corrections *)
  let corrected :=
    fix_ (words true ["LE"; "a"; "ll"; "I"; "pe"; "Cu"; "A"; "bi"; "fi"; "I";
                      "cgi"; "i"; "Eat"; "Cs"]) "C & Ty A" corrected in
  let corrected := fix_ (pieces true ["C"; "&"; "Ty"; "A"]) "C & Ty A" corrected in
  let corrected :=
    fix_ (words true ["Class"; "Gvenice"; "sealing"; "up"; "to"])
         "Class C & Ty A" corrected in
  (* Date corrections *)
  let corrected := fix_ (words false ["20"; "AUG"; "1976"]) "20 AUG 1976" corrected in
  let corrected := fix_ (words false ["19"; "JAN"; "2029"]) "19 JAN 2029" corrected in
  let corrected := fix_ (words false ["17"; "APR"; "1985"]) "17 APR 1985" corrected in
  let corrected := fix_ (words false ["18"; "OCT"; "2033"]) "18 OCT 2033" corrected in
  (* Fee corrections: "/\bLicence\s+Fee\s+S?171\s*00\b/i"; the pattern has
     no group, so the dollar sign of the replacement is literal *)
  let corrected :=
    fix_ (RegExp (Seqs [WordB; Str "Licence"; Plus s_; Str "Fee"; Plus s_;
                        Opt (Chr (ch "S")); Str "171"; Star s_; Str "00";
                        WordB]) true)
         "Licence Fee $171.00" corrected in
  (* Remove common OCR artifacts: "/\bElf\s*\}\s*\b/" *)
  let corrected :=
    fix_ (RegExp (Seqs [WordB; Str "Elf"; Star s_; Chr (ch "}"); Star s_;
                        WordB]) false) "" corrected in
  (* "/\bUNIT\s+\d+\s+SR\s+P=\s*\b/" *)
  let corrected :=
    fix_ (RegExp (Seqs [WordB; Str "UNIT"; Plus s_; Plus d_; Plus s_;
                        Str "SR"; Plus s_; Str "P="; Star s_; WordB]) false)
         "" corrected in
  (* "/\b#\s*(\d+)\b/" replaced by "#$1" *)
  let corrected :=
    replace (RegExp (Seqs [WordB; Chr (ch "#"); Star s_; Grp 1 (Plus d_);
                           WordB]) false)
            (template [Lit "#"; Ref 1]) corrected in
  (* Remove page 2 noise (long meaningless strings) *)
  if (100 <? length corrected) && negb (test re_keyword corrected)
  then [] else corrected.

(** The [lines] of [cleanExtractedText]. *)
Definition cleanedLines (text_ : str) : list str :=
  let cleaned :=
    trim (replaceAll re_unprintable (text "")
                     (replaceAll Fields.re_ws (text " ") text_)) in
  filter (fun line => 0 <? length line) (map trim (split newline cleaned)).

Definition cleanExtractedText (text_ : str) : str :=
  let lines := cleanedLines text_ in
  let correctedLines :=
    filter (fun line => 0 <? length line)
           (map (correctLine lines) (Fields.indexed lines)) in
  let finalText := join [newline] correctedLines in
  trim (replaceAll Fields.re_ws (text " ")
                   (replaceAll re_special (text "") finalText)).

(** *** The engine and its workers as oracles *)

(** [{ text, confidence }] *)
Record result : Type := Result { text_of : str; confidence_of : Z }.

Definition image : Type := str.

(** What the program does to the outside, in order.  [CreateWorker]
    is a call of [createWorker] that returned a worker, [NoWorker] one
    that was rejected. *)
Inductive event : Type :=
| CreateWorker (withLogger : bool)
| NoWorker (withLogger : bool)
| Recognize (imageData : image)
| Terminate
| ConsoleLog
| ConsoleWarn.

Inductive outcome (A : Type) : Type :=
| Ok (a : A)
| Thrown (error : str).
Arguments Ok {A} a.
Arguments Thrown {A} error.

(** The creation of workers: whether [createWorker] returns a worker or
    is rejected, as when the engine cannot be loaded, which may depend
    on everything done before. *)
Definition factory : Type := list event -> bool -> outcome unit.

(** The recognition engine: the answer of [worker.recognize] to an
    image, which may depend on everything done before. *)
Definition engine : Type := list event -> image -> outcome result.

(** Computations that create workers, call the engine and may throw. *)
Definition M (A : Type) : Type :=
  factory -> engine -> list event -> outcome A * list event.

Definition ret {A} (a : A) : M A := fun _ _ trace => (Ok a, trace).

Definition bind {A B} (c : M A) (f : A -> M B) : M B :=
  fun fac eng trace =>
    match c fac eng trace with
    | (Ok a, trace') => f a fac eng trace'
    | (Thrown e, trace') => (Thrown e, trace')
    end.

Definition throw {A} (e : str) : M A := fun _ _ trace => (Thrown e, trace).

(** [try { body } catch (error) { handler }] *)
Definition tryCatch {A} (body : M A) (handler : str -> M A) : M A :=
  fun fac eng trace =>
    match body fac eng trace with
    | (Ok a, trace') => (Ok a, trace')
    | (Thrown e, trace') => handler e fac eng trace'
    end.

Definition emit (e : event) : M unit :=
  fun _ _ trace => (Ok tt, trace ++ [e]).

(** [await createWorker(...)] *)
Definition createWorker (withLogger : bool) : M unit :=
  fun fac _ trace =>
    match fac trace withLogger with
    | Ok _ => (Ok tt, trace ++ [CreateWorker withLogger])
    | Thrown e => (Thrown e, trace ++ [NoWorker withLogger])
    end.

(** [await worker.recognize(imageData)] *)
Definition recognize (imageData : image) : M result :=
  fun _ eng trace => (eng trace imageData, trace ++ [Recognize imageData]).

(** [await worker.terminate()], which stops the worker and returns. *)
Definition terminate : M unit := emit Terminate.

Notation "x <- c ;; k" := (bind c (fun x => k))
  (at level 61, c at next level, right associativity).
Notation "c ;;; k" := (bind c (fun _ => k))
  (at level 61, right associativity).

Definition performFallbackOCR (imageData : image) : M result :=
  createWorker false ;;;
  tryCatch
    (r <- recognize imageData ;;
     terminate ;;;
     ret (Result (text_of r) (confidence_of r)))
    (fun error => terminate ;;; throw error).

Definition performOCR (imageData : image) : M result :=
  createWorker true ;;;
  tryCatch
    (r <- recognize imageData ;;
     terminate ;;;
     let cleanedText := cleanExtractedText (text_of r) in
     better <-
       (if (confidence_of r <? 40)%Z then
          emit ConsoleLog ;;;
          tryCatch
            (fallbackResult <- performFallbackOCR imageData ;;
             let cleanedFallbackText :=
               cleanExtractedText (text_of fallbackResult) in
             if (confidence_of r <? confidence_of fallbackResult)%Z
             then ret (Some (Result cleanedFallbackText
                                    (confidence_of fallbackResult)))
             else ret None)
            (fun fallbackError => emit ConsoleWarn ;;; ret None)
        else ret None) ;;
     match better with
     | Some res => ret res
     | None => ret (Result cleanedText (confidence_of r))
     end)
    (fun error => terminate ;;; throw error).

(** A run from the empty trace. *)
Definition run {A} (c : M A) (fac : factory) (eng : engine)
  : outcome A * list event :=
  c fac eng [].

(** The number of calls of [worker.recognize] in a trace. *)
Definition recognitions (trace : list event) : nat :=
  length (filter (fun e => match e with Recognize _ => true | _ => false end)
                 trace).

(** The images given to [worker.recognize], in order. *)
Definition recognized (trace : list event) : list image :=
  flat_map (fun e => match e with
                     | Recognize imageData => [imageData]
                     | _ => []
                     end)
           trace.

(** A call of [createWorker] by the fallback, answered or rejected. *)
Definition fallbackCall (e : event) : bool :=
  match e with
  | CreateWorker false | NoWorker false => true
  | _ => false
  end.

(** The number of times the fallback was started. *)
Definition fallbacks (trace : list event) : nat :=
  length (filter fallbackCall trace).

(** The fallback was attempted: it asked for its worker. *)
Definition fallbackAttempted (trace : list event) : bool :=
  existsb fallbackCall trace.

(** The trace when the fallback asks for its worker. *)
Definition beforeFallbackWorker (imageData : image) : list event :=
  [CreateWorker true; Recognize imageData; Terminate; ConsoleLog].

(** The trace before the second call of the engine. *)
Definition beforeFallback (imageData : image) : list event :=
  beforeFallbackWorker imageData ++ [CreateWorker false].

(** A factory that always returns a worker. *)
Definition workers : factory := fun _ _ => Ok tt.

(** A factory that has a worker for the first attempt only. *)
Definition oneWorker : factory :=
  fun _ withLogger =>
    if withLogger then Ok tt else Thrown "Failed to load the engine".

(** An engine that is unsure at first and sure on the second call. *)
Definition hesitantEngine : engine :=
  fun trace _ =>
    if fallbackAttempted trace then Ok (Result "Total 12.50" 85)
    else Ok (Result "Tota1 l2.5O" 30).

End Recognition.

(* ================================================================== *)
(** ** Image enhancement (the raster operations of the enhancer) *)
(* ================================================================== *)

Module Raster.

Import PrimFloat.
Local Open Scope Z_scope.

(** A [Uint8ClampedArray]: its elements lie in 0..255. *)
Definition buffer : Type := list Z.

(** An integer-valued JavaScript number, [None] being NaN. *)
Definition num : Type := option Z.

(** [data[i]]: [undefined], which arithmetic turns into NaN, outside
    the array. *)
Definition get (data : buffer) (i : Z) : num :=
  if i <? 0 then None else nth_error data (Z.to_nat i).

(** The conversion of a store into the array: NaN becomes 0 and the
    value is clamped to 0..255. *)
Definition toUint8Clamp (v : num) : Z :=
  match v with
  | Some z => Z.max 0 (Z.min 255 z)
  | None => 0
  end.

Fixpoint store (data : buffer) (i : nat) (v : Z) : buffer :=
  match data, i with
  | [], _ => []
  | _ :: rest, O => v :: rest
  | d :: rest, S i' => d :: store rest i' v
  end.

(** [data[i] = v]; a store outside the array is ignored. *)
Definition set (data : buffer) (i : Z) (v : num) : buffer :=
  if i <? 0 then data else store data (Z.to_nat i) (toUint8Clamp v).

(** [new Uint8ClampedArray(n)]: zero-filled. *)
Definition newArray (n : nat) : buffer := repeat 0 n.

(** [Math.min] and [Math.max] *)
Definition Math_min (a b : num) : num :=
  match a, b with
  | Some x, Some y => Some (Z.min x y)
  | _, _ => None
  end.

Definition Math_max (a b : num) : num :=
  match a, b with
  | Some x, Some y => Some (Z.max x y)
  | _, _ => None
  end.

Definition mul (a b : num) : num :=
  match a, b with
  | Some x, Some y => Some (x * y)
  | _, _ => None
  end.

Definition add (a b : num) : num :=
  match a, b with
  | Some x, Some y => Some (x + y)
  | _, _ => None
  end.

(** The values [lo, lo+1, ..., hi-1] of a loop variable. *)
Definition range (lo hi : Z) : list Z :=
  map (fun i => lo + Z.of_nat i) (seq 0 (Z.to_nat (hi - lo))).

(** [for (let i = lo; i < hi; i++) body], threading the loop state. *)
Definition for_ {S : Type} (lo hi : Z) (body : Z -> S -> S) (s : S) : S :=
  fold_left (fun s i => body i s) (range lo hi) s.

(** The four stores that end the body of each pixel loop. *)
Definition setPixel (output : buffer) (idx : Z) (r g b a : num) : buffer :=
  let output := set output idx r in
  let output := set output (idx + 1) g in
  let output := set output (idx + 2) b in
  set output (idx + 3) a.

(** *** Erosion and dilation *)

(** The fold of [combine] over the red channel of the 3x3 neighbourhood. *)
Definition neighbourhood (combine : num -> num -> num) (init : num)
           (data : buffer) (width x y : Z) : num :=
  for_ (-1) 2 (fun ky value =>
    for_ (-1) 2 (fun kx value =>
      let nidx := ((y + ky) * width + (x + kx)) * 4 in
      combine value (get data nidx)) value) init.

Definition applyErosion (data : buffer) (width height : Z) : buffer :=
  let output := newArray (length data) in
  for_ 1 (height - 1) (fun y output =>
    for_ 1 (width - 1) (fun x output =>
      let idx := (y * width + x) * 4 in
      let minValue := neighbourhood Math_min (Some 255) data width x y in
      setPixel output idx minValue minValue minValue (get data (idx + 3)))
    output) output.

Definition applyDilation (data : buffer) (width height : Z) : buffer :=
  let output := newArray (length data) in
  for_ 1 (height - 1) (fun y output =>
    for_ 1 (width - 1) (fun x output =>
      let idx := (y * width + x) * 4 in
      let maxValue := neighbourhood Math_max (Some 0) data width x y in
      setPixel output idx maxValue maxValue maxValue (get data (idx + 3)))
    output) output.

(** [output.set(data)] on a fresh array of the same length. *)
Definition copyOf (data : buffer) : buffer := data.

Definition applyMorphologicalCleaning (data : buffer) (width height : Z)
  : buffer :=
  let output := copyOf data in
  let eroded := applyErosion output width height in
  let opened := applyDilation eroded width height in
  opened.

(** *** Sharpening *)

Definition kernel : list Z := [-1; -1; -1; -1; 9; -1; -1; -1; -1].

(** The weighted sum of channel [c] over the 3x3 neighbourhood. *)
Definition convolve (data : buffer) (width x y c : Z) : num :=
  for_ (-1) 2 (fun ky acc =>
    for_ (-1) 2 (fun kx acc =>
      let nidx := ((y + ky) * width + (x + kx)) * 4 in
      let kidx := (ky + 1) * 3 + (kx + 1) in
      let weight := get kernel kidx in
      add acc (mul (get data (nidx + c)) weight)) acc) (Some 0).

Definition applyDocumentSharpening (data : buffer) (width height : Z)
  : buffer :=
  let output := newArray (length data) in
  for_ 1 (height - 1) (fun y output =>
    for_ 1 (width - 1) (fun x output =>
      let idx := (y * width + x) * 4 in
      let r := convolve data width x y 0 in
      let g := convolve data width x y 1 in
      let b := convolve data width x y 2 in
      setPixel output idx
               (Math_max (Some 0) (Math_min (Some 255) r))
               (Math_max (Some 0) (Math_min (Some 255) g))
               (Math_max (Some 0) (Math_min (Some 255) b))
               (get data (idx + 3)))
    output) output.

(** *** Adaptive thresholding *)

(** The numbers of this function are IEEE doubles. *)
Definition toNumber (v : num) : PrimFloat.float :=
  match v with
  | Some z => PrimFloat.of_uint63 (Uint63.of_Z z)
  | None => PrimFloat.nan
  end.

(** [Math.round] (the nearest integer, a tie going up) followed by
    the conversion of the store into the array. *)
Definition roundToByte (x : PrimFloat.float) : Z :=
  match FloatOps.Prim2SF x with
  | SpecFloat.S754_zero _ => 0
  | SpecFloat.S754_finite s mant e =>
      let n := if s then Z.neg mant else Z.pos mant in
      Z.max 0 (Z.min 255
        (if 0 <=? e then n * 2 ^ e else (2 * n + 2 ^ (- e)) / 2 ^ (1 - e)))
  | SpecFloat.S754_infinity s => if s then 0 else 255
  | SpecFloat.S754_nan => 0
  end.

(** [Math.round(0.299 * r + 0.587 * g + 0.114 * b)], as stored. *)
Definition grayOf (r g b : num) : Z :=
  roundToByte
    (PrimFloat.add
       (PrimFloat.add (PrimFloat.mul 0x1.322d0e5604189p-2%float (toNumber r))
                      (PrimFloat.mul 0x1.2c8b439581062p-1%float (toNumber g)))
       (PrimFloat.mul 0x1.d2f1a9fbe76c9p-4%float (toNumber b))).

(** [for (let i = 0; i < data.length; i += 4)] *)
Definition grayscale (data : buffer) : buffer :=
  fold_left
    (fun output k =>
       let i := 4 * Z.of_nat k in
       let gray := Some (grayOf (get data i) (get data (i + 1)) (get data (i + 2))) in
       setPixel output i gray gray gray (get data (i + 3)))
    (seq 0 (Nat.div (length data + 3) 4))
    (newArray (length data)).

Definition windowSize : Z := 15.
Definition halfWindow : Z := windowSize / 2.

(** [localSum] and [count] after the two window loops. *)
Definition localWindow (output : buffer) (width x y : Z)
  : PrimFloat.float * PrimFloat.float :=
  for_ (- halfWindow) (halfWindow + 1) (fun wy acc =>
    for_ (- halfWindow) (halfWindow + 1) (fun wx acc =>
      let idx := ((y + wy) * width + (x + wx)) * 4 in
      (PrimFloat.add (fst acc) (toNumber (get output idx)),
       PrimFloat.add (snd acc) 1%float)) acc) (0%float, 0%float).

(** The body of the two pixel loops: the local mean is taken from the
    buffer that is being binarized. *)
Definition thresholdPixel (width x y : Z) (output : buffer) : buffer :=
  let (localSum, count) := localWindow output width x y in
  let localMean := PrimFloat.div localSum count in
  let threshold := PrimFloat.sub localMean 10%float in
  let idx := (y * width + x) * 4 in
  let grayValue := toNumber (get output idx) in
  let binaryValue :=
    if PrimFloat.ltb threshold grayValue then Some 255 else Some 0 in
  let output := set output idx binaryValue in
  let output := set output (idx + 1) binaryValue in
  set output (idx + 2) binaryValue.

Definition applyAdaptiveThreshold (data : buffer) (width height : Z) : buffer :=
  let output := grayscale data in
  for_ halfWindow (height - halfWindow) (fun y output =>
    for_ halfWindow (width - halfWindow) (fun x output =>
      thresholdPixel width x y output)
    output) output.

(** *** Reading an image *)

(** Channel [c] of the pixel in column [x] of row [y]. *)
Definition channel (data : buffer) (width x y c : Z) : num :=
  get data ((y * width + x) * 4 + c).

(** The values of the binary image: the thresholding writes 255 where
    the pixel is brighter than its threshold ("bias towards
    foreground") and 0 elsewhere. *)
Definition foreground : Z := 255.
Definition background : Z := 0.

(** *** The pixel loops as one pass over the interior *)

(** The index of the first channel of a pixel [(x, y)]. *)
Definition addr (width : Z) (p : Z * Z) : Z := (snd p * width + fst p) * 4.

(** The pixels visited by
    [for (y = ylo; y < yhi; y++) for (x = xlo; x < xhi; x++)], in the
    order of the visit; the three filters visit the interior (from 1 to
    the last index but one). *)
Definition grid (xlo xhi ylo yhi : Z) : list (Z * Z) :=
  flat_map (fun y => map (fun x => (x, y)) (range xlo xhi)) (range ylo yhi).

Definition interior (width height : Z) : list (Z * Z) :=
  grid 1 (width - 1) 1 (height - 1).

(** One iteration of a loop body that stores a colour computed from
    the input alone. *)
Definition paint (width : Z) (colour : Z -> Z -> num * num * num * num)
           (output : buffer) (p : Z * Z) : buffer :=
  let '(r, g, b, a) := colour (fst p) (snd p) in
  setPixel output (addr width p) r g b a.

Definition erodedColour (data : buffer) (width x y : Z) : num * num * num * num :=
  let minValue := neighbourhood Math_min (Some 255) data width x y in
  (minValue, minValue, minValue, get data ((y * width + x) * 4 + 3)).

Definition dilatedColour (data : buffer) (width x y : Z) : num * num * num * num :=
  let maxValue := neighbourhood Math_max (Some 0) data width x y in
  (maxValue, maxValue, maxValue, get data ((y * width + x) * 4 + 3)).

Definition sharpenedColour (data : buffer) (width x y : Z)
  : num * num * num * num :=
  (Math_max (Some 0) (Math_min (Some 255) (convolve data width x y 0)),
   Math_max (Some 0) (Math_min (Some 255) (convolve data width x y 1)),
   Math_max (Some 0) (Math_min (Some 255) (convolve data width x y 2)),
   get data ((y * width + x) * 4 + 3)).

(** A pixel on row 0, column 0, the last row or the last column. *)
Definition onBorder (width height x y : Z) : Prop :=
  0 <= x < width /\ 0 <= y < height
  /\ (x = 0 \/ x = width - 1 \/ y = 0 \/ y = height - 1).

(** An image whose pixels all have the colour [(r, g, b, a)]. *)
Definition uniform (width height : nat) (r g b a : Z) : buffer :=
  concat (repeat [r; g; b; a] (width * height)).

(** A black 5x5 image with one foreground pixel in the middle. *)
Definition speck : buffer :=
  concat (map (fun k => if Nat.eqb k 12 then [255; 255; 255; 255]
                        else [0; 0; 0; 255])
              (seq 0 25)).

End Raster.
(* ================================================================== *)
(** ** The enhancement pipeline ([enhanceImage] of the enhancer) *)
(* ================================================================== *)

Module Enhancer.

Import Raster.
Local Open Scope Z_scope.

(** The three steps that [enhanceImage] applies to the pixels of the
    canvas, in their order; [data] is the content of the canvas after
    the image was drawn onto it, [width] and [height] its size. *)
Definition enhancePixels (data : buffer) (width height : Z) : buffer :=
  let thresholdedData := applyAdaptiveThreshold data width height in
  let cleanedData := applyMorphologicalCleaning thresholdedData width height in
  let sharpenedData := applyDocumentSharpening cleanedData width height in
  sharpenedData.

(** The elements of a [Uint8ClampedArray] are bytes. *)
Definition bytes (data : buffer) : Prop :=
  Forall (fun v => 0 <= v <= 255) data.

(** The pixel buffer of an image of [width] x [height] pixels. *)
Definition imageData (data : buffer) (width height : Z) : Prop :=
  length data = Z.to_nat (width * height * 4) /\ bytes data.

(** The values of the thresholded image. *)
Definition binary (v : Z) : Prop := v = 0 \/ v = 255.

End Enhancer.

(* ================================================================== *)
(** ** What the extractors can produce *)
(* ================================================================== *)

Module Catalogue.

Import Fields.

(** The labels that the extractors of a document type push, each with
    the confidence of the push. *)
Definition licenceRows : list (str * Z) :=
  [(lit "Card Number", 95); (lit "Name", 97); (lit "Address", 95);
   (lit "License Class", 96); (lit "Date of Birth", 98);
   (lit "Expiry Date", 98); (lit "Date of Birth", 90);
   (lit "Expiry Date", 90); (lit "License Fee", 97)]%Z.

Definition invoiceRows : list (str * Z) :=
  [(lit "Invoice Number", 90); (lit "Total Amount", 95); (lit "Date", 85)]%Z.

Definition passportRows : list (str * Z) :=
  [(lit "Passport Number", 95); (lit "Name", 90); (lit "Issue Date", 90);
   (lit "Expiry Date", 90)]%Z.

Definition standaloneRows : list (str * Z) :=
  [(lit "Email", 90); (lit "Phone", 85); (lit "Website", 85)]%Z.

Definition listed (rows : list (str * Z)) (f : field) : Prop :=
  In (label f, confidence f) rows.

(** A field whose label has a validator in the licence path holds a
    value that the validator accepts. *)
Definition validated (f : field) : Prop :=
  (label f = lit "Card Number" -> isValidCardNumber (value f) = true)
  /\ (label f = lit "Name" -> isValidName (value f) = true)
  /\ (label f = lit "Address" -> isValidAddress (value f) = true)
  /\ (label f = lit "License Fee" ->
      exists amount, value f = lit "$" ++ amount
                     /\ isValidAmount amount = true).

(** The property of a field that the licence path maintains. *)
Definition sound (f : field) : Prop := listed licenceRows f /\ validated f.

(** [later] starts with the fields of [earlier], in their order. *)
Definition extends (earlier later : list field) : Prop :=
  exists more, later = earlier ++ more.

(** The tests that put a line into the sections of the document
    structure. *)
Definition inCardSection (line : str) : bool :=
  let lowerLine := toLowerCase line in
  includes lowerLine "card" || includes lowerLine "licence"
  || includes lowerLine "number".

Definition inAddressSection (line : str) : bool :=
  test re_street_line line || test re_nsw_line line.

Definition inClassSection (line : str) : bool :=
  includes (toLowerCase line) "class" || test re_class_line line.

Definition inDateSection (line : str) : bool :=
  let lowerLine := toLowerCase line in
  test re_date_line line || includes lowerLine "birth"
  || includes lowerLine "expir" || includes lowerLine "date".

Definition inFeeSection (line : str) : bool :=
  includes (toLowerCase line) "fee" || test re_dollars line.

(** The characters that [cleanExtractedText] lets through: "\w", the
    space and the punctuation of its last pattern. *)
Definition plain (c : ascii) : bool :=
  isWordChar c || existsb (Ascii.eqb c) (lit " .,-/&$").

(** No white space at either end. *)
Definition trimmed (s : str) : Prop :=
  match s with
  | [] => True
  | c :: _ => isSpace c = false /\ isSpace (last s c) = false
  end.

(** No two white-space characters in a row. *)
Fixpoint singleSpaced (s : str) : Prop :=
  match s with
  | a :: (b :: _) as rest =>
      (isSpace a = true -> isSpace b = false) /\ singleSpaced rest
  | _ => True
  end.

End Catalogue.

(* ================================================================== *)
(** ** Workers *)
(* ================================================================== *)

Module Workers.

Import Recognition.

(** The number of workers alive after each event of a trace, when [n]
    were alive before it. *)
Fixpoint alive (n : nat) (trace : list event) : list nat :=
  match trace with
  | [] => []
  | e :: trace' =>
      let n' := match e with
                | CreateWorker _ => S n
                | Terminate => Nat.pred n
                | _ => n
                end in
      n' :: alive n' trace'
  end.

(** The workers left alive at the end of a trace. *)
Definition leftAlive (trace : list event) : nat := last (alive 0 trace) 0.

End Workers.

(* ================================================================== *)
(** ** Documents of several pages *)
(* ================================================================== *)

Module Batch.

Import Fields Recognition.

(** [String(n)] for a natural number. *)
Fixpoint decimal (fuel n : nat) (acc : str) : str :=
  let acc := ascii_of_nat (48 + n mod 10) :: acc in
  match fuel with
  | O => acc
  | S fuel' => if n / 10 =? 0 then acc else decimal fuel' (n / 10) acc
  end.

Definition String_ (n : nat) : str := decimal n n [].

(** The image enhancer, which works on a canvas, is an oracle like the
    engine: it returns the enhanced image or throws. *)
Definition enhancer : Type := image -> outcome image.

(** *** Loops that update local variables

    Computations on the local variables [S] of a function that call
    the enhancer, the factory and the engine and may throw; a handler
    starts from the variables as they are when the exception is
    thrown. *)
Section Effects.

Variable S : Type.

Definition B (A : Type) : Type :=
  enhancer -> factory -> engine -> S * list event
  -> outcome A * (S * list event).

Definition retB {A} (a : A) : B A := fun _ _ _ st => (Ok a, st).

Definition bindB {A C} (c : B A) (f : A -> B C) : B C :=
  fun enh fac eng st =>
    match c enh fac eng st with
    | (Ok a, st') => f a enh fac eng st'
    | (Thrown e, st') => (Thrown e, st')
    end.

Definition tryCatchB {A} (body : B A) (handler : str -> B A) : B A :=
  fun enh fac eng st =>
    match body enh fac eng st with
    | (Ok a, st') => (Ok a, st')
    | (Thrown e, st') => handler e enh fac eng st'
    end.

Definition getB : B S := fun _ _ _ st => (Ok (fst st), st).

Definition modify (f : S -> S) : B unit :=
  fun _ _ _ st => (Ok tt, (f (fst st), snd st)).

(** [await enhanceImage(imageData)] *)
Definition enhance (imageData : image) : B image :=
  fun enh _ _ st => (enh imageData, st).

(** A computation of the recognition, on the trace. *)
Definition ocr {A} (c : M A) : B A :=
  fun _ fac eng st =>
    let (r, trace') := c fac eng (snd st) in (r, (fst st, trace')).

(** [for (let i = 0; i < l.length; i++) body(l[i], i)] *)
Fixpoint forEach {A} (l : list A) (body : A -> B unit) : B unit :=
  match l with
  | [] => retB tt
  | x :: l' => bindB (body x) (fun _ => forEach l' body)
  end.

(** A run from the initial variables and the empty trace. *)
Definition runB {A} (c : B A) (enh : enhancer) (fac : factory)
           (eng : engine) (init : S)
  : outcome A * (S * list event) :=
  c enh fac eng (init, []).

End Effects.

Arguments retB {S A} a.
Arguments bindB {S A C} c f.
Arguments tryCatchB {S A} body handler.
Arguments getB {S}.
Arguments modify {S} f.
Arguments enhance {S} imageData.
Arguments ocr {S A} c.
Arguments forEach {S A} l body.
Arguments runB {S A} c enh fac eng init.

Notation "'let*' x ':=' c 'in' k" := (bindB c (fun x => k))
  (at level 10, x pattern, c at level 100, k at level 200).

(** *** [processDocument]

    The function from the page images on: the loading and rendering of
    the file that produce them happen on a canvas.  The best-effort
    write of the history entry, whose failure is only logged, is not
    part of the model. *)

Record aggregate : Type := Aggregate {
  aggregatedText : str;
  confidences : list Z
}.

(** [confidence || 0] *)
Definition orZero (c : Z) : Z := if (c =? 0)%Z then 0%Z else c.

(** The body of the loop over the pages. *)
Definition recognizePage (entry : image * nat) : B aggregate unit :=
  let (pageImage, i) := entry in
  tryCatchB
    (let* r := ocr (performOCR pageImage) in
     let* _ :=
       modify (fun a =>
                 Aggregate (aggregatedText a
                              ++ ([newline] ++ lit "=== Page "
                                    ++ String_ (i + 1) ++ lit " ==="
                                    ++ [newline])
                              ++ text_of r ++ [newline])
                           (confidences a)) in
     modify (fun a =>
               Aggregate (aggregatedText a)
                         (confidences a ++ [orZero (confidence_of r)])))
    (fun e => ocr (emit ConsoleWarn)).

(** [Math.round(sum / n)] for integers: the nearest integer, a tie
    going up. *)
Definition roundedQuotient (sum : Z) (n : nat) : Z :=
  ((2 * sum + Z.of_nat n) / (2 * Z.of_nat n))%Z.

Definition averageOf (confidences : list Z) : Z :=
  if 0 <? length confidences
  then roundedQuotient (fold_left Z.add confidences 0%Z) (length confidences)
  else 0%Z.

(** [{ fullText, confidence, fields }] *)
Record processed : Type := Processed {
  fullText : str;
  avgConfidence : Z;
  fields : list field
}.

Definition processDocument (pageImages : list image) : B aggregate processed :=
  let* _ := forEach (indexed pageImages) recognizePage in
  let* a := getB in
  retB (Processed (trim (aggregatedText a))
                  (averageOf (confidences a))
                  (extractFields (aggregatedText a))).

(** *** [handleFileSelect]

    The handler from the images to process on; its toasts, progress
    values and console messages are not part of the model. *)

(** [{ imageData: string; pageNumber?: number }] *)
Record pageImage : Type := PageImage {
  imageData : image;
  pageNumber : option nat
}.

(** The variables that the loop updates. *)
Record progress : Type := Progress {
  allExtractedText : list str;
  allFields : list field;
  totalConfidence : Z;
  enhancedPreview : image
}.

(** A page number used as a condition: [undefined] and 0 are false. *)
Definition given (pageNumber : option nat) : bool :=
  match pageNumber with
  | Some (S _) => true
  | _ => false
  end.

(** [pageNumber || i + 1] *)
Definition pageNumberOr (pageNumber : option nat) (other : nat) : nat :=
  match pageNumber with
  | Some (S n) => S n
  | _ => other
  end.

(** "=== Page n ===\n" followed by the text and "\n" *)
Definition pageText (n : nat) (text_ : str) : str :=
  lit "=== Page " ++ String_ n ++ lit " ===" ++ [newline] ++ text_ ++ [newline].

(** "\n=== Page n - Processing Error ===\n" *)
Definition errorPlaceholder (n : nat) : str :=
  [newline] ++ lit "=== Page " ++ String_ n ++ lit " - Processing Error ==="
            ++ [newline].

Definition pushText (s : str) (v : progress) : progress :=
  Progress (allExtractedText v ++ [s]) (allFields v) (totalConfidence v)
           (enhancedPreview v).

Definition pushFields (fs : list field) (v : progress) : progress :=
  Progress (allExtractedText v) (allFields v ++ fs) (totalConfidence v)
           (enhancedPreview v).

Definition addConfidence (c : Z) (v : progress) : progress :=
  Progress (allExtractedText v) (allFields v) (totalConfidence v + c)%Z
           (enhancedPreview v).

Definition setPreview (enhancedImage : image) (v : progress) : progress :=
  Progress (allExtractedText v) (allFields v) (totalConfidence v)
           enhancedImage.

(** The body of the loop over [imagesToProcess]. *)
Definition processPage (entry : pageImage * nat) : B progress unit :=
  let (page, i) := entry in
  tryCatchB
    (let* enhancedImage := enhance (imageData page) in
     let* _ :=
       (if Nat.eqb i 0 then modify (setPreview enhancedImage) else retB tt) in
     let* r := ocr (performOCR enhancedImage) in
     let pageFields := extractFields (text_of r) in
     let* _ :=
       (match pageNumber page with
        | Some (S n) => modify (pushText (pageText (S n) (text_of r)))
        | _ => modify (pushText (text_of r))
        end) in
     let* _ := modify (pushFields pageFields) in
     modify (addConfidence (confidence_of r)))
    (fun error =>
       let* _ :=
         modify (pushText (errorPlaceholder
                             (pageNumberOr (pageNumber page) (i + 1)))) in
       modify (addConfidence 0)).

(** The entry that a page leaves in the text list when it succeeds with
    the text [text_]. *)
Definition entryOf (page : pageImage) (text_ : str) : str :=
  match pageNumber page with
  | Some (S n) => pageText (S n) text_
  | _ => text_
  end.

(** A confidence that the engine can answer lies between 0 and 100. *)
Definition percent (eng : engine) : Prop :=
  forall trace imageData r,
    eng trace imageData = Ok r -> (0 <= confidence_of r <= 100)%Z.

(** A page that cannot be read: its enhancement throws, or the engine
    throws on its enhanced image whatever was done before. *)
Definition unreadable (enh : enhancer) (eng : engine) (page : pageImage) : Prop :=
  (exists e, enh (imageData page) = Thrown e)
  \/ (exists enhancedImage,
        enh (imageData page) = Ok enhancedImage
        /\ forall trace, exists e, eng trace enhancedImage = Thrown e).

Definition processPages (imagesToProcess : list pageImage) : B progress unit :=
  forEach (indexed imagesToProcess) processPage.

(** The variables before the loop; [imagesToProcess] is not empty. *)
Definition initially (imagesToProcess : list pageImage) : progress :=
  Progress [] [] 0
           match imagesToProcess with
           | page :: _ => imageData page
           | [] => []
           end.

(** The trace when the loop reaches the page of index [i]: the one
    that the pages before it leave. *)
Definition traceAt (enh : enhancer) (fac : factory) (eng : engine)
           (imagesToProcess : list pageImage) (i : nat) : list event :=
  snd (snd (runB (processPages (firstn i imagesToProcess)) enh fac eng
                 (initially imagesToProcess))).

(** What the enhancement and the recognition of a page give when they
    start at a trace. *)
Definition reading (enh : enhancer) (fac : factory) (eng : engine)
           (page : pageImage) (trace : list event) : outcome result :=
  match enh (imageData page) with
  | Ok enhancedImage => fst (performOCR enhancedImage fac eng trace)
  | Thrown e => Thrown e
  end.

(** The entry that the page of index [i] leaves in the text list, by
    what its enhancement and its recognition gave. *)
Definition entryFor (page : pageImage) (i : nat) (o : outcome result) : str :=
  match o with
  | Ok r => entryOf page (text_of r)
  | Thrown _ => errorPlaceholder (pageNumberOr (pageNumber page) (i + 1))
  end.

(** What the document record takes from the loop: the texts joined by a
    blank line and the fields without duplicates. *)
Definition extractedTextOf (v : progress) : str :=
  join [newline; newline] (allExtractedText v).

Definition fieldsOf (v : progress) : list field :=
  removeDuplicates (allFields v).

End Batch.

(* ================================================================== *)
(** ** Contrast and brightness ([enhanceImage] of [ocrProcessor.ts]) *)
(* ================================================================== *)

Module Contrast.

Import Raster.
Import PrimFloat.
Local Open Scope Z_scope.

(** [Math.min] and [Math.max] on doubles. *)
Definition Math_minF (a b : float) : float :=
  if is_nan a || is_nan b then nan else if ltb b a then b else a.

Definition Math_maxF (a b : float) : float :=
  if is_nan a || is_nan b then nan else if ltb a b then b else a.

(** The conversion of a double stored into a [Uint8ClampedArray]: NaN
    becomes 0, the value is clamped to 0..255 and rounded to the
    nearest integer, a tie going to the even one. *)
Definition toUint8ClampF (x : float) : Z :=
  match FloatOps.Prim2SF x with
  | SpecFloat.S754_finite false mant e =>
      Z.min 255
        (if 0 <=? e then Z.pos mant * 2 ^ e
         else
           let d := 2 ^ (- e) in
           let q := Z.pos mant / d in
           let r := Z.pos mant mod d in
           if 2 * r <? d then q
           else if d <? 2 * r then q + 1
           else if Z.even q then q else q + 1)
  | SpecFloat.S754_infinity false => 255
  | _ => 0
  end.

(** [data[i] = x] *)
Definition setF (data : buffer) (i : Z) (x : float) : buffer :=
  if i <? 0 then data else store data (Z.to_nat i) (toUint8ClampF x).

(** 1.1, the nearest double *)
Definition contrast : float := 0x1.199999999999ap+0%float.
Definition brightness : float := 5%float.

Definition factor : float :=
  ((259 * (contrast + 255)) / (255 * (259 - contrast)))%float.

(** [factor * (val - 128) + 128 + brightness], clamped by [Math.min]
    and [Math.max]. *)
Definition adjusted (val : float) : float :=
  let val := (factor * (val - 128) + 128 + brightness)%float in
  Math_maxF 0%float (Math_minF 255%float val).

(** The body of the loop over the pixels: the three colour channels of
    pixel number [k] are updated in place. *)
Definition adjustPixel (data : buffer) (k : nat) : buffer :=
  let i := 4 * Z.of_nat k in
  for_ 0 3 (fun c data =>
              let val := toNumber (get data (i + c)) in
              setF data (i + c) (adjusted val)) data.

(** [for (let i = 0; i < data.length; i += 4)] *)
Definition adjustPixels (data : buffer) : buffer :=
  fold_left adjustPixel (seq 0 (Nat.div (length data + 3) 4)) data.

(** The value that the loop leaves in a colour cell that held [v]. *)
Definition rewritten (v : num) : num :=
  match v with
  | Some _ => Some (toUint8ClampF (adjusted (toNumber v)))
  | None => None
  end.

(** The byte that the loop stores for a byte. *)
Definition adjustedByte (v : Z) : Z := toUint8ClampF (adjusted (toNumber (Some v))).

(** What the adjustment amounts to on bytes: 4, 5 or 6 more, up to 255. *)
Definition brightened (v : Z) : Z :=
  Z.min 255 (v + (if v <? 70 then 4 else if v <? 187 then 5 else 6)).

End Contrast.

(* ================================================================== *)
(** ** The document history ([documentStorage.ts]) *)
(* ================================================================== *)

Module Storage.

Import Fields Recognition PrimFloat.

(** [DocumentRecord]; an optional member that is missing or [undefined]
    is [None].  The confidence is a number, or [null] ([None]), which is
    what [JSON.parse] reads back for a number that was not finite. *)
Record DocumentRecord : Type := Document {
  id : str;
  fileName : str;
  fileType : str;
  timestamp : nat;
  extractedText : str;
  confidence : option float;
  fields : option (list field);
  imageData : option str;
  enhancedImageData : option str
}.

(** [JSON.parse(JSON.stringify(x))] for a number: [NaN] and the
    infinities are written as [null], and [-0] as [0]; every other
    double is written with digits that read back as the same double. *)
Definition throughJSON_number (x : option float) : option float :=
  match x with
  | Some v =>
      if is_finite v then Some (if is_zero v then zero else v) else None
  | None => None
  end.

(** [JSON.parse(JSON.stringify(doc))]: strings and integers read back
    as they are, and a member that is [undefined] is left out. *)
Definition throughJSON (doc : DocumentRecord) : DocumentRecord :=
  Document (id doc) (fileName doc) (fileType doc) (timestamp doc)
           (extractedText doc) (throughJSON_number (confidence doc))
           (fields doc) (imageData doc) (enhancedImageData doc).

(** The item of [localStorage] under the key of the history: missing,
    or a JSON text.  The only texts written under the key are those of
    [saveDocument] and [deleteDocument]; such a text is represented by
    the list of records that [JSON.parse] reads back from it. *)
Definition localStorage : Type := option (list DocumentRecord).

Definition getDocumentHistory (store : localStorage) : list DocumentRecord :=
  match store with
  | Some history => history
  | None => []
  end.

(** [{ ...document, imageData: undefined, enhancedImageData: undefined }] *)
Definition withoutImages (document : DocumentRecord) : DocumentRecord :=
  Document (id document) (fileName document) (fileType document)
           (timestamp document) (extractedText document)
           (confidence document) (fields document) None None.

Section Quota.

(** Whether the storage has room for the JSON text of a history. *)
Variable hasRoom : list DocumentRecord -> bool.

(** [localStorage.setItem(STORAGE_KEY, JSON.stringify(history))]: the
    call throws, and leaves the item as it was, when the storage has no
    room for the text. *)
Definition setItem (history : list DocumentRecord) (store : localStorage)
  : outcome unit * localStorage :=
  if hasRoom history
  then (Ok tt, Some (map throughJSON history))
  else (Thrown (lit "QuotaExceededError"), store).

Definition saveDocument (document : DocumentRecord) (store : localStorage)
  : outcome unit * localStorage :=
  let history := getDocumentHistory store in
  let documentForStorage := withoutImages document in
  setItem (documentForStorage :: history) store.

Definition deleteDocument (id_ : str) (store : localStorage)
  : outcome unit * localStorage :=
  let history := getDocumentHistory store in
  let filtered := filter (fun doc => negb (str_eqb (id doc) id_)) history in
  setItem filtered store.

(** [localStorage.removeItem(STORAGE_KEY)] *)
Definition clearHistory (store : localStorage)
  : outcome unit * localStorage :=
  (Ok tt, None).

(** The stores that the functions lead to from the empty one, whether
    their calls return or throw. *)
Inductive reachable : localStorage -> Prop :=
| reach_empty : reachable None
| reach_save document store :
    reachable store -> reachable (snd (saveDocument document store))
| reach_delete id_ store :
    reachable store -> reachable (snd (deleteDocument id_ store))
| reach_clear store : reachable store -> reachable (snd (clearHistory store)).

End Quota.

(** A history that holds no image. *)
Definition light (history : list DocumentRecord) : Prop :=
  Forall (fun doc => imageData doc = None /\ enhancedImageData doc = None)
         history.

(** A history that reads back from its JSON text as it is. *)
Definition settled (history : list DocumentRecord) : Prop :=
  map throughJSON history = history.

End Storage.


(* ================================================================== *)
(** * Properties *)
(* ================================================================== *)

(** ** Strings *)

Module JSFacts.

Lemma str_eqb_eq (a b : str) : str_eqb a b = true <-> a = b.
Proof.
  revert b. induction a as [|x a IH]; intros [|y b]; simpl; split;
    try congruence; try reflexivity.
  - intros H. apply andb_true_iff in H as [Hx Hab].
    apply Ascii.eqb_eq in Hx. apply IH in Hab. congruence.
  - intros H. injection H as -> ->. rewrite Ascii.eqb_refl. simpl.
    now apply IH.
Qed.

Lemma str_eqb_refl (a : str) : str_eqb a a = true.
Proof. now apply str_eqb_eq. Qed.

Lemma str_eqb_neq (a b : str) : str_eqb a b = false <-> a <> b.
Proof.
  split.
  - intros H E. apply str_eqb_eq in E. congruence.
  - intros H. destruct (str_eqb a b) eqn:E; [|reflexivity].
    apply str_eqb_eq in E. contradiction.
Qed.

Lemma startsWith_app (p s : str) : startsWith (p ++ s) p = true.
Proof.
  induction p as [|x p IH]; simpl; [reflexivity|].
  now rewrite Ascii.eqb_refl, IH.
Qed.

Lemma startsWith_inv (s p : str) :
  startsWith s p = true -> exists rest, s = p ++ rest.
Proof.
  revert s. induction p as [|x p IH]; intros s H; simpl in *.
  - now exists s.
  - destruct s as [|y s]; [discriminate|].
    apply andb_true_iff in H as [Hx Hs].
    apply Ascii.eqb_eq in Hx. subst y.
    destruct (IH _ Hs) as [rest ->]. now exists rest.
Qed.

Lemma includes_unfold (s sub : str) :
  includes s sub =
  startsWith s sub || match s with [] => false | _ :: s' => includes s' sub end.
Proof. destruct s; reflexivity. Qed.

(** [includes] decides the presence of a substring. *)
Lemma includes_spec (s sub : str) :
  includes s sub = true <-> exists pre post, s = pre ++ sub ++ post.
Proof.
  split.
  - induction s as [|c s IH]; simpl; intros H.
    + rewrite orb_false_r in H. apply startsWith_inv in H as [rest E].
      now exists [], rest.
    + apply orb_true_iff in H as [H|H].
      * apply startsWith_inv in H as [rest E]. now exists [], rest.
      * destruct (IH H) as (pre & post & ->). now exists (c :: pre), post.
  - intros (pre & post & ->).
    induction pre as [|c pre IH]; simpl.
    + now rewrite includes_unfold, startsWith_app.
    + rewrite IH. apply orb_true_r.
Qed.

Lemma toLowerCase_app (a b : str) :
  toLowerCase (a ++ b) = toLowerCase a ++ toLowerCase b.
Proof. apply map_app. Qed.

(** A line is a substring of the joined text. *)
Lemma join_In (sep : str) (parts : list str) (p : str) :
  In p parts -> exists pre post, join sep parts = pre ++ p ++ post.
Proof.
  induction parts as [|q parts IH]; [intros []|].
  intros [->|H].
  - destruct parts as [|r parts].
    + exists [], []. simpl. now rewrite app_nil_r.
    + exists [], (sep ++ join sep (r :: parts)). reflexivity.
  - destruct (IH H) as (pre & post & E).
    destruct parts as [|r parts]; [destruct H|].
    exists (q ++ sep ++ pre), post.
    change (join sep (q :: r :: parts)) with (q ++ sep ++ join sep (r :: parts)).
    rewrite E. now rewrite <- !app_assoc.
Qed.

Lemma trimStart_Forall (P : ascii -> Prop) (s : str) :
  Forall P s -> Forall P (trimStart s).
Proof.
  induction 1 as [|c s Hc Hs IH]; simpl; [constructor|].
  destruct (isSpace c); [assumption|now constructor].
Qed.

Lemma trim_Forall (P : ascii -> Prop) (s : str) :
  Forall P s -> Forall P (trim s).
Proof.
  intros H. unfold trim, trimEnd.
  apply Forall_rev, trimStart_Forall, Forall_rev, trimStart_Forall, H.
Qed.

(** Splitting a string without the separator yields the string. *)
Lemma split_absent (sep : ascii) (s : str) :
  Forall (fun c => c <> sep) s -> split sep s = [s].
Proof.
  induction 1 as [|c s Hc Hs IH]; simpl; [reflexivity|].
  destruct (Ascii.eqb c sep) eqn:E.
  - apply Ascii.eqb_eq in E. contradiction.
  - now rewrite IH.
Qed.

Lemma lowerChar_not_upper (c : ascii) : isUpperAZ (lowerChar c) = false.
Proof.
  destruct c as [[] [] [] [] [] [] [] []]; reflexivity.
Qed.

End JSFacts.

(** ** The matcher on whitespace runs, and global replacement *)

Module RegexFacts.

Lemma clear_caps_nil (st : mstate) : clear_caps [] st = st.
Proof.
  destruct st as [bef aft cs]. unfold clear_caps. simpl. f_equal.
  induction cs as [|p cs IH]; simpl; [reflexivity|now rewrite IH].
Qed.

Lemma rep_S (body : mstate -> cont -> option mstate) (gs : list nat)
      (fuel lo : nat) (hi : option nat) (st : mstate) (k : cont) :
  rep body gs (S fuel) lo hi st k =
  match hi with
  | Some O => k st
  | _ =>
      let iter :=
        body (clear_caps gs st)
             (fun st2 =>
                if Nat.eqb lo 0 &&
                   Nat.eqb (length (after st2)) (length (after st))
                then None
                else rep body gs fuel (Nat.pred lo) (dec hi) st2 k) in
      if Nat.eqb lo 0 then
        match iter with
        | Some res => Some res
        | None => k st
        end
      else iter
  end.
Proof. reflexivity. Qed.

(** *** The quantifier never runs out of fuel *)

Lemma after_clear_caps (gs : list nat) (st : mstate) :
  after (clear_caps gs st) = after st.
Proof. reflexivity. Qed.

Lemma rep_forward (body : mstate -> cont -> option mstate) (gs : list nat) :
  forward body ->
  forall fuel lo hi, forward (fun st k => rep body gs fuel lo hi st k).
Proof.
  intros Hbody. induction fuel as [|fuel IH]; intros lo hi st k k' Hk;
    [reflexivity|].
  rewrite !rep_S.
  assert (Hst : k st = k' st) by (apply Hk; lia).
  assert (Hiter :
            body (clear_caps gs st)
                 (fun st2 =>
                    if Nat.eqb lo 0 &&
                       Nat.eqb (length (after st2)) (length (after st))
                    then None
                    else rep body gs fuel (Nat.pred lo) (dec hi) st2 k)
            = body (clear_caps gs st)
                   (fun st2 =>
                      if Nat.eqb lo 0 &&
                         Nat.eqb (length (after st2)) (length (after st))
                      then None
                      else rep body gs fuel (Nat.pred lo) (dec hi) st2 k')).
  { apply Hbody. intros st2 H2. rewrite after_clear_caps in H2.
    destruct (_ && _); [reflexivity|].
    apply IH. intros st3 H3. apply Hk. lia. }
  destruct hi as [[|n]|]; cbv zeta; rewrite ?Hiter, ?Hst; reflexivity.
Qed.

(** Every pattern is matched forwards. *)
Lemma m_forward (ci : bool) (r : regex) : forward (m ci r).
Proof.
  induction r as [|c|neg items| |a IHa b IHb|a IHa b IHb|r IH lo hi|i r IH| | |];
    intros st k k' Hk; cbn [m].
  - apply Hk. lia.
  - unfold one. destruct (after st) as [|x rest] eqn:E; [reflexivity|].
    destruct (Ascii.eqb _ _); [|reflexivity].
    apply Hk. unfold advance. rewrite E. simpl. lia.
  - unfold one. destruct (after st) as [|x rest] eqn:E; [reflexivity|].
    destruct (xorb _ _); [|reflexivity].
    apply Hk. unfold advance. rewrite E. simpl. lia.
  - unfold one. destruct (after st) as [|x rest] eqn:E; [reflexivity|].
    destruct (negb _); [|reflexivity].
    apply Hk. unfold advance. rewrite E. simpl. lia.
  - apply IHa. intros st1 H1. apply IHb. intros st2 H2. apply Hk. lia.
  - rewrite (IHa st k k' Hk), (IHb st k k' Hk). reflexivity.
  - now apply (rep_forward (m ci r) (groups r) IH).
  - apply IH. intros st2 H2. apply Hk. exact H2.
  - destruct (xorb _ _); [apply Hk; lia|reflexivity].
  - destruct (before st); [apply Hk; lia|reflexivity].
  - destruct (after st) eqn:E; [apply Hk; rewrite E; lia|reflexivity].
Qed.

(** Once the fuel exceeds the minimum count plus the characters left,
    more fuel changes nothing. *)
Lemma rep_fuel (body : mstate -> cont -> option mstate) (gs : list nat) :
  forward body ->
  forall fuel fuel' lo hi st k,
    lo + length (after st) < fuel -> lo + length (after st) < fuel' ->
    rep body gs fuel lo hi st k = rep body gs fuel' lo hi st k.
Proof.
  intros Hbody. induction fuel as [|fuel IH];
    intros [|fuel'] lo hi st k Hf Hf'; try lia.
  rewrite !rep_S.
  assert (Hiter :
            body (clear_caps gs st)
                 (fun st2 =>
                    if Nat.eqb lo 0 &&
                       Nat.eqb (length (after st2)) (length (after st))
                    then None
                    else rep body gs fuel (Nat.pred lo) (dec hi) st2 k)
            = body (clear_caps gs st)
                   (fun st2 =>
                      if Nat.eqb lo 0 &&
                         Nat.eqb (length (after st2)) (length (after st))
                      then None
                      else rep body gs fuel' (Nat.pred lo) (dec hi) st2 k)).
  { apply Hbody. intros st2 H2. rewrite after_clear_caps in H2.
    destruct (Nat.eqb lo 0) eqn:Elo; cbn [andb].
    - apply Nat.eqb_eq in Elo. subst lo.
      destruct (Nat.eqb _ _) eqn:Elen; [reflexivity|].
      apply Nat.eqb_neq in Elen. apply IH; simpl; lia.
    - apply Nat.eqb_neq in Elo. apply IH; lia. }
  destruct hi as [[|n]|]; cbv zeta; rewrite ?Hiter; reflexivity.
Qed.

(** The fuel that [m] gives to a quantifier is enough: any larger
    amount yields the same result. *)
Lemma quantifier_fuel_enough (ci : bool) (r : regex) (lo : nat)
      (hi : option nat) (st : mstate) (k : cont) (extra : nat) :
  rep (m ci r) (groups r) (lo + length (after st) + 1 + extra) lo hi st k
  = m ci (Rep r lo hi) st k.
Proof.
  cbn [m]. apply rep_fuel; [apply m_forward|lia|lia].
Qed.

(** *** White-space runs *)

(** The star of a character class always succeeds, and never leaves
    the position further from the end than it found it. *)
Lemma rep_star_class (ci neg : bool) (items : list citem) :
  forall fuel st,
    length (after st) < fuel ->
    exists st',
      rep (m ci (Cls neg items)) [] fuel 0 None st (fun s => Some s) = Some st'
      /\ length (after st') <= length (after st).
Proof.
  set (body := m ci (Cls neg items)).
  assert (Hbody : forall s k,
             body s k = one (fun x => xorb neg (class_has ci items x)) s k)
    by reflexivity.
  induction fuel as [|fuel IH]; intros st Hfuel; [lia|].
  rewrite rep_S. cbv zeta. rewrite clear_caps_nil.
  cbn [Nat.eqb andb Nat.pred dec].
  rewrite Hbody. unfold one at 1.
  destruct (after st) as [|c rest] eqn:E.
  - exists st. now rewrite E.
  - destruct (xorb neg (class_has ci items c)).
    + assert (Hadv : after (advance st) = rest)
        by (unfold advance; now rewrite E).
      rewrite Hadv.
      replace (length rest =? length (c :: rest)) with false.
      2:{ symmetry. apply Nat.eqb_neq. simpl. lia. }
      destruct (IH (advance st)) as (st' & -> & Hlen).
      { rewrite Hadv. simpl in Hfuel. lia. }
      exists st'. split; [reflexivity|]. rewrite Hadv in Hlen. simpl. lia.
    + exists st. rewrite E. split; [reflexivity|]. simpl; lia.
Qed.

(** At a character of the class, the plus of the class matches at
    least that character. *)
Lemma matchHere_plus_class (ci neg : bool) (items : list citem)
      (bef rest : str) (c : ascii) :
  xorb neg (class_has ci items c) = true ->
  exists n cs,
    matchHere (RegExp (Plus (Cls neg items)) ci) bef (c :: rest) = Some (S n, cs).
Proof.
  intros Hc. unfold matchHere, Plus. cbn [pattern ignoreCase].
  change (m ci (Rep (Cls neg items) 1 None) (MState bef (c :: rest) [])
            (fun s => Some s))
    with (rep (m ci (Cls neg items)) []
              (1 + length (c :: rest) + 1) 1 None (MState bef (c :: rest) [])
              (fun s => Some s)).
  replace (1 + length (c :: rest) + 1)
    with (S (S (S (length rest)))) by (simpl; lia).
  set (body := m ci (Cls neg items)).
  assert (Hbody : forall s k,
             body s k = one (fun x => xorb neg (class_has ci items x)) s k)
    by reflexivity.
  rewrite rep_S. cbv zeta. rewrite clear_caps_nil.
  cbn [Nat.eqb andb Nat.pred dec].
  rewrite Hbody. unfold one at 1. cbn [after]. rewrite Hc.
  subst body.
  destruct (rep_star_class ci neg items (S (S (length rest)))
                           (advance (MState bef (c :: rest) [])))
    as (st' & -> & Hlen).
  { simpl. lia. }
  cbn [advance after] in Hlen.
  exists (length rest - length (after st')), (caps st').
  cbn [length].
  replace (S (length rest) - length (after st'))
    with (S (length rest - length (after st'))) by lia.
  reflexivity.
Qed.

Lemma scan_unfold {A} (re : regexp) (onHit : str -> list (nat * str) -> A -> A)
      (onChar : ascii -> A -> A) (nil : A) (fuel : nat) (bef aft : str) :
  scan re onHit onChar nil (S fuel) bef aft =
  match matchHere re bef aft with
  | Some (S n, cs) =>
      onHit (firstn (S n) aft) cs
            (scan re onHit onChar nil fuel (rev (firstn (S n) aft) ++ bef)
                  (skipn (S n) aft))
  | Some (O, cs) =>
      onHit [] cs
            match aft with
            | [] => nil
            | c :: rest => onChar c (scan re onHit onChar nil fuel (c :: bef) rest)
            end
  | None =>
      match aft with
      | [] => nil
      | c :: rest => onChar c (scan re onHit onChar nil fuel (c :: bef) rest)
      end
  end.
Proof. reflexivity. Qed.

Lemma Forall_skipn {A} (P : A -> Prop) (n : nat) (l : list A) :
  Forall P l -> Forall P (skipn n l).
Proof.
  intros H. rewrite <- (firstn_skipn n l) in H.
  now apply Forall_app in H.
Qed.

(** Replacing every match by a fixed string keeps a property of the
    characters that the replacement has. *)
Lemma scan_text_Forall (P : ascii -> Prop) (re : regexp) (by_ : str) :
  Forall P by_ ->
  forall fuel bef s,
    Forall P s ->
    Forall P (scan re (fun w cs out => text by_ w cs ++ out)
                   (fun c out => c :: out) [] fuel bef s).
Proof.
  intros Hby.
  induction fuel as [|fuel IH]; intros bef s Hs; [constructor|].
  rewrite scan_unfold.
  assert (Hstep : Forall P match s with
                           | [] => []
                           | c :: rest =>
                               c :: scan re (fun w cs out => text by_ w cs ++ out)
                                         (fun c out => c :: out) [] fuel
                                         (c :: bef) rest
                           end).
  { destruct s as [|c rest]; [constructor|].
    inversion Hs; subst. constructor; [assumption|now apply IH]. }
  destruct (matchHere re bef s) as [[[|n] cs]|].
  - apply Forall_app. split; assumption.
  - apply Forall_app. split; [assumption|]. apply IH. now apply Forall_skipn.
  - assumption.
Qed.

Lemma replaceAll_text_Forall (P : ascii -> Prop) (re : regexp) (by_ s : str) :
  Forall P by_ -> Forall P s -> Forall P (replaceAll re (text by_) s).
Proof. intros Hby Hs. now apply scan_text_Forall. Qed.

(** After ["/\s+/g"] has been replaced by a space, the only white space
    left is the space. *)
Lemma scan_ws_tidy :
  forall fuel bef s,
    Forall tidy (scan Fields.re_ws (fun w cs out => text " " w cs ++ out)
                      (fun c out => c :: out) [] fuel bef s).
Proof.
  induction fuel as [|fuel IH]; intros bef s; [constructor|].
  rewrite scan_unfold.
  assert (Hsp : Forall tidy (text " " [] [])).
  { constructor; [now right|constructor]. }
  destruct s as [|c rest].
  - destruct (matchHere Fields.re_ws bef []) as [[[|n] cs]|].
    + apply Forall_app. split; [exact Hsp|constructor].
    + apply Forall_app. split; [exact Hsp|apply IH].
    + constructor.
  - destruct (isSpace c) eqn:Hc.
    + destruct (matchHere_plus_class false false [CSpace] bef rest c)
        as (n & cs & E).
      { simpl. now rewrite Hc. }
      unfold Fields.re_ws, s_. rewrite E.
      apply Forall_app. split; [exact Hsp|apply IH].
    + destruct (matchHere Fields.re_ws bef (c :: rest)) as [[[|n] cs]|].
      * apply Forall_app. split; [exact Hsp|].
        constructor; [now left|apply IH].
      * apply Forall_app. split; [exact Hsp|apply IH].
      * constructor; [now left|apply IH].
Qed.

Lemma replaceAll_ws_tidy (s : str) :
  Forall tidy (replaceAll Fields.re_ws (text " ") s).
Proof. apply scan_ws_tidy. Qed.

Lemma tidy_not_newline (c : ascii) : tidy c -> c <> newline.
Proof. intros [H|H] E; subst c; discriminate. Qed.

End RegexFacts.

(** ** Field extraction *)

Module FieldsFacts.

Import Fields JSFacts RegexFacts.

(** *** The line list *)

Lemma single_line (s : str) :
  Forall (fun c => c <> newline) s ->
  let lines := filter (fun line => 0 <? length line)
                      (map trim (split newline (trim s))) in
  lines = [] \/ lines = [trim (trim s)].
Proof.
  intros H. cbv zeta.
  rewrite (split_absent newline (trim s)) by now apply trim_Forall.
  cbn [map filter]. destruct (0 <? length (trim (trim s))); auto.
Qed.

Lemma linesOf_cases (text_ : str) :
  linesOf text_ = [] \/ exists line, linesOf text_ = [line].
Proof.
  unfold linesOf.
  destruct (single_line (replaceAll re_ws (text " ") text_)) as [E|E].
  - eapply Forall_impl; [|apply replaceAll_ws_tidy].
    apply tidy_not_newline.
  - left. exact E.
  - right. eexists. exact E.
Qed.

Lemma cleanedLines_cases (text_ : str) :
  Recognition.cleanedLines text_ = []
  \/ exists line, Recognition.cleanedLines text_ = [line].
Proof.
  unfold Recognition.cleanedLines.
  destruct (single_line
              (replaceAll Recognition.re_unprintable (text "")
                          (replaceAll re_ws (text " ") text_))) as [E|E].
  - apply replaceAll_text_Forall; [constructor|].
    eapply Forall_impl; [|apply replaceAll_ws_tidy].
    apply tidy_not_newline.
  - left. exact E.
  - right. eexists. exact E.
Qed.

(** The sections of a document of one line. *)
Lemma analyze_single (line : str) :
  let structure := analyzeDocumentStructure [line] in
  Forall (fun section => section = [] \/ section = [line])
         [headerSection structure; cardSection structure;
          addressSection structure; classSection structure;
          dateSection structure; feeSection structure]
  /\ lineContexts structure = [(line, [], 0)].
Proof.
  unfold analyzeDocumentStructure, indexed.
  cbn [length seq combine map fold_left fst snd]. unfold categorize.
  cbn [headerSection cardSection addressSection classSection dateSection
       feeSection lineContexts allText].
  split.
  - unfold pushIf.
    repeat (constructor;
            [match goal with
             | |- context [if ?c then _ else _] => destruct c
             end; auto|]).
    constructor.
  - reflexivity.
Qed.

Lemma analyze_empty :
  analyzeDocumentStructure [] = Structure [] [] [] [] [] [] [] [].
Proof. reflexivity. Qed.

(** *** Labels are unique and confidences are high *)

Lemma hasLabel_false (l : str) (fields : list field) :
  hasLabel l fields = false -> ~ In l (map label fields).
Proof.
  unfold hasLabel, some. induction fields as [|f fields IH]; simpl.
  - intros _ [].
  - intros H. apply orb_false_iff in H as [Hf Hrest].
    apply str_eqb_neq in Hf. intros [E|E]; [congruence|now apply IH].
Qed.

Lemma NoDup_snoc {A} (l : list A) (x : A) :
  NoDup l -> ~ In x l -> NoDup (l ++ [x]).
Proof.
  induction 1 as [|y l Hy Hl IH]; simpl; intros Hx.
  - constructor; [intros []|constructor].
  - constructor.
    + rewrite in_app_iff. simpl. intuition congruence.
    + apply IH. intuition.
Qed.

Lemma well_nil : well [].
Proof. split; constructor. Qed.

Lemma well_push (fields : list field) (l v : str) (c : Z) :
  well fields -> hasLabel l fields = false -> (75 <= c)%Z ->
  well (push fields (Field l v c)).
Proof.
  intros [Hu Hc] Hl Hconf. unfold push. split.
  - rewrite map_app. simpl. apply NoDup_snoc; [assumption|].
    now apply hasLabel_false.
  - apply Forall_app. split; [assumption|].
    constructor; [exact Hconf|constructor].
Qed.

Lemma filter_labels_NoDup (keep : field -> bool) (fields : list field) :
  NoDup (map label fields) -> NoDup (map label (filter keep fields)).
Proof.
  induction fields as [|f fields IH]; simpl; intros H; [constructor|].
  inversion H as [|? ? Hf Hrest]; subst.
  destruct (keep f); simpl; [|now apply IH].
  constructor; [|now apply IH].
  intros Hin. apply Hf. apply in_map_iff in Hin as (f' & E & Hf').
  apply filter_In in Hf' as [Hf' _]. rewrite <- E. now apply in_map.
Qed.

Lemma well_filter (p : field -> bool) (fields : list field) :
  well fields -> well (filter p fields).
Proof.
  intros [Hu Hc]. split.
  - now apply filter_labels_NoDup.
  - apply Forall_forall. intros f Hf. apply filter_In in Hf as [Hf _].
    rewrite Forall_forall in Hc. now apply Hc.
Qed.

(** Turn the guards in the context into facts about [hasLabel]. *)
Ltac guards :=
  repeat match goal with
         | H : _ && _ = true |- _ => apply andb_true_iff in H; destruct H
         | H : negb _ = true |- _ => apply negb_true_iff in H
         end.

(** Follow the branches of an extractor down to its pushes. *)
Ltac branches :=
  repeat first
    [ assumption
    | exact well_nil
    | match goal with
      | |- well (if ?c then _ else _) => destruct c eqn:?
      | |- well (match ?o with _ => _ end) => destruct o eqn:?
      | |- well (push _ (Field _ _ _)) =>
          apply well_push; [|guards; assumption|unfold confident; lia]
      end ].

Lemma well_extractCardNumber fields structure :
  well fields -> well (extractCardNumber fields structure).
Proof. intros H. unfold extractCardNumber. branches. Qed.

Lemma well_extractName fields structure :
  well fields -> well (extractName fields structure).
Proof. intros H. unfold extractName. cbv zeta. branches. Qed.

Lemma well_extractAddress fields structure :
  well fields -> well (extractAddress fields structure).
Proof. intros H. unfold extractAddress. cbv zeta. branches. Qed.

Lemma well_extractLicenseClass fields structure :
  well fields -> well (extractLicenseClass fields structure).
Proof. intros H. unfold extractLicenseClass. branches. Qed.

Lemma well_assignDate fields item :
  well fields -> well (assignDate fields item).
Proof. intros H. unfold assignDate. destruct item as [date context]. branches. Qed.

Lemma well_fold {A} (step : list field -> A -> list field) (l : list A) :
  (forall fields a, well fields -> well (step fields a)) ->
  forall fields, well fields -> well (fold_left step l fields).
Proof.
  intros Hstep. induction l as [|a l IH]; simpl; intros fields H;
    [assumption|]. apply IH. now apply Hstep.
Qed.

Lemma well_extractDates fields structure :
  well fields -> well (extractDates fields structure).
Proof.
  intros H. unfold extractDates. cbv zeta.
  match goal with
  | |- context [fold_left assignDate ?l fields] =>
      pose proof (well_fold assignDate l well_assignDate fields H) as Hfold;
      generalize dependent (fold_left assignDate l fields)
  end.
  intros fields' Hfold. branches.
Qed.

Lemma well_extractLicenseFee fields structure :
  well fields -> well (extractLicenseFee fields structure).
Proof. intros H. unfold extractLicenseFee. branches. Qed.

Lemma well_extractLicenseFields lines : well (extractLicenseFields lines).
Proof.
  unfold extractLicenseFields, validateAndFilterFields. cbv zeta.
  apply well_filter, well_extractLicenseFee, well_extractDates,
    well_extractLicenseClass, well_extractAddress, well_extractName,
    well_extractCardNumber, well_nil.
Qed.

Lemma well_invoiceLine fields line :
  well fields -> well (invoiceLine fields line).
Proof. intros H. unfold invoiceLine. cbv zeta. branches. Qed.

Lemma well_passportLine fields line :
  well fields -> well (passportLine fields line).
Proof. intros H. unfold passportLine. cbv zeta. branches. Qed.

Lemma well_extractStandaloneFields line fields :
  well fields -> well (extractStandaloneFields line fields).
Proof. intros H. unfold extractStandaloneFields. cbv zeta. branches. Qed.

(** The label/value field of a generic line is pushed without a guard:
    on the first line it is alone. *)
Lemma well_genericLine_first line : well (genericLine [] line).
Proof.
  unfold genericLine. cbv zeta. apply well_extractStandaloneFields.
  destruct (exec re_label_value line) as [h|]; [|exact well_nil].
  destruct (isMeaningfulField _ _); [|exact well_nil].
  apply well_push; [exact well_nil|reflexivity|lia].
Qed.

Lemma well_extractFields (text_ : str) : well (extractFields text_).
Proof.
  unfold extractFields. cbv zeta.
  destruct (_ || _); [apply well_extractLicenseFields|].
  destruct (_ || _).
  { apply well_fold; [apply well_invoiceLine|exact well_nil]. }
  destruct (str_eqb _ _).
  { apply well_fold; [apply well_passportLine|exact well_nil]. }
  unfold extractGenericFields.
  destruct (linesOf_cases text_) as [->|[line ->]]; simpl.
  - exact well_nil.
  - apply well_genericLine_first.
Qed.

Lemma NoDup_map_pair {A B C} (f : A -> B) (g : A -> C) (l : list A) :
  NoDup (map f l) -> NoDup (map (fun x => (f x, g x)) l).
Proof.
  induction l as [|x l IH]; simpl; intros H; [constructor|].
  inversion H as [|? ? Hx Hl]; subst. constructor; [|now apply IH].
  intros Hin. apply Hx. apply in_map_iff in Hin as (y & E & Hy).
  injection E as E1 _. rewrite <- E1. now apply in_map.
Qed.

End FieldsFacts.

Module DedupFacts.

Import Fields JSFacts.

(** *** The removal of duplicates in [handleFileSelect] *)

Lemma findIndex_first {A} (p : A -> bool) (l : list A) (i : nat) :
  findIndex p l = Some i ->
  forall j y, j < i -> nth_error l j = Some y -> p y = false.
Proof.
  revert i. induction l as [|x l IH]; simpl; intros i H; [discriminate|].
  destruct (p x) eqn:Ex.
  - injection H as <-. intros j y Hj. lia.
  - destruct (findIndex p l) as [i'|]; [|discriminate].
    injection H as <-. intros [|j] y Hj; simpl.
    + intros E. injection E as <-. exact Ex.
    + apply (IH i' eq_refl). lia.
Qed.

Lemma In_filteri_from {A} (p : A -> nat -> bool) (l : list A) (k : nat) (x : A) :
  In x (filteri_from k p l) ->
  exists j, nth_error l j = Some x /\ p x (k + j) = true.
Proof.
  revert k. induction l as [|y l IH]; simpl; intros k H; [destruct H|].
  destruct (p y k) eqn:Ey.
  - destruct H as [<-|H].
    + exists 0. rewrite Nat.add_0_r. auto.
    + destruct (IH _ H) as (j & Hj & Hp). exists (S j).
      rewrite Nat.add_succ_r. auto.
  - destruct (IH _ H) as (j & Hj & Hp). exists (S j).
    rewrite Nat.add_succ_r. auto.
Qed.

(** After the removal no two fields have the same label and value. *)
Lemma removeDuplicates_NoDup (allFields : list field) :
  NoDup (map (fun f => (label f, value f)) (removeDuplicates allFields)).
Proof.
  unfold removeDuplicates, filteri.
  set (keep := fun (field : field) (index : nat) =>
                 match findIndex (fun f => str_eqb (label f) (label field)
                                           && str_eqb (value f) (value field))
                                 allFields with
                 | Some i => Nat.eqb index i
                 | None => false
                 end).
  assert (H : forall rest seen,
             allFields = seen ++ rest ->
             NoDup (map (fun f => (label f, value f))
                        (filteri_from (length seen) keep rest))).
  { induction rest as [|x rest IH]; intros seen E; simpl; [constructor|].
    assert (IH' := IH (seen ++ [x])).
    rewrite length_app, Nat.add_1_r in IH'.
    specialize (IH' ltac:(now rewrite <- app_assoc)).
    destruct (keep x (length seen)); [|exact IH'].
    simpl. constructor; [|exact IH'].
    intros Hin. apply in_map_iff in Hin as (y & Ekey & Hy).
    injection Ekey as El Ev.
    apply In_filteri_from in Hy as (j & _ & Hkeep).
    unfold keep in Hkeep.
    destruct (findIndex _ allFields) as [i|] eqn:Ei; [|discriminate].
    apply Nat.eqb_eq in Hkeep. subst i.
    pose proof (findIndex_first _ _ _ Ei (length seen) x) as Hx.
    cbv beta in Hx. rewrite El, Ev, !str_eqb_refl in Hx.
    assert (true = false); [|discriminate].
    apply Hx; [lia|].
    rewrite E, nth_error_app2, Nat.sub_diag by lia. reflexivity. }
  apply (H allFields []). reflexivity.
Qed.

End DedupFacts.

Module FieldsClaims.

Import Fields JSFacts RegexFacts FieldsFacts.

(** *** Invoices *)

(** Claim C1.  The line "Invoice Number: A-1234" is an invoice, and
    [extractFields] returns one field for it, labelled "Invoice Number"
    with confidence 90; its value is the word "Number", not "A-1234":
    the pattern skips the word "Number" only when the identifier
    follows it directly, and the colon makes it take the word itself. *)
Theorem invoice_number_after_colon :
  detectDocumentType (linesOf "Invoice Number: A-1234") = lit "invoice"
  /\ extractFields "Invoice Number: A-1234"
     = [Field "Invoice Number" "Number" 90].
Proof. split; vm_compute; reflexivity. Qed.

(** Without the colon the identifier is found. *)
Lemma invoice_number_without_colon :
  extractFields "Invoice Number A-1234"
  = [Field "Invoice Number" "A-1234" 90].
Proof. vm_compute. reflexivity. Qed.

(** *** A licence *)

(** The extractors on the lines of a licence. *)
Example licence_sample :
  extractLicenseFields
    [lit "Driver Licence"; lit "Card Number G4 307 169"; lit "John Smith";
     lit "12 Northmead Ave"; lit "Wentworthville NSW 2145";
     lit "Licence Class C & Ty A"; lit "Expiry 19 JAN 2029";
     lit "Date of Birth 20 AUG 1976"; lit "Licence Fee $171.00"]
  = [Field "Card Number" "G4 307 169" 95;
     Field "Name" "John Smith" 97;
     Field "Address" "12 Northmead Ave, Wentworthville NSW 2145" 95;
     Field "License Class" "C & Ty A" 96;
     Field "Expiry Date" "19 JAN 2029" 98;
     Field "Date of Birth" "20 AUG 1976" 98;
     Field "License Fee" "$171.00" 97].
Proof. vm_compute. reflexivity. Qed.

(** *** Dates *)

(** Claim C2.  On a licence whose text has the birth line before the
    expiry line, [extractFields] assigns the two dates as expected; with
    the two lines in the other order it assigns them the other way
    round, the expiry date becoming the date of birth. *)
Theorem date_roles_depend_on_order :
  extractFields (join [newline] [lit "Licence"; birthLine; expiryLine])
  = [Field "Date of Birth" "20 AUG 1976" 98;
     Field "Expiry Date" "19 JAN 2029" 98]
  /\
  extractFields (join [newline] [lit "Licence"; expiryLine; birthLine])
  = [Field "Date of Birth" "19 JAN 2029" 98;
     Field "Expiry Date" "20 AUG 1976" 98].
Proof. split; vm_compute; reflexivity. Qed.

(** On lines that are kept apart, the date extractor gives each date
    its role in both orders. *)
Lemma date_roles_on_separate_lines :
  extractLicenseFields [birthLine; expiryLine]
  = [Field "Date of Birth" "20 AUG 1976" 98;
     Field "Expiry Date" "19 JAN 2029" 98]
  /\
  extractLicenseFields [expiryLine; birthLine]
  = [Field "Expiry Date" "19 JAN 2029" 98;
     Field "Date of Birth" "20 AUG 1976" 98].
Proof. split; vm_compute; reflexivity. Qed.

(** The two lines alone are not recognised as a licence, and no date
    is extracted from them. *)
Lemma date_lines_alone :
  extractFields (join [newline] [birthLine; expiryLine]) = []
  /\ extractFields (join [newline] [expiryLine; birthLine]) = [].
Proof. split; vm_compute; reflexivity. Qed.

(** *** Document type *)

Lemma mentions_fullText (lines : list str) (keyword : str) :
  mentions lines keyword = true ->
  includes (toLowerCase (join " " lines)) keyword = true.
Proof.
  unfold mentions. intros H.
  apply existsb_exists in H as (line & Hin & Hinc).
  apply includes_spec in Hinc as (a & b & Ek).
  destruct (join_In " " lines line Hin) as (pre & post & Ej).
  apply includes_spec.
  exists (toLowerCase pre ++ a), (b ++ toLowerCase post).
  rewrite Ej, !toLowerCase_app, Ek. now rewrite <- !app_assoc.
Qed.

(** Claim C6.  [detectDocumentType] is the first matching category of
    the priority table (licence terms, then invoice terms, then
    passport terms, then id/card terms, else generic) on the lowercased
    joined lines; in particular a document that mentions a licence
    keyword and an invoice keyword is a licence. *)
Theorem detectDocumentType_priority (lines : list str) :
  detectDocumentType lines
  = firstMatchingCategory (toLowerCase (join " " lines))
  /\
  (forall kl ki,
      In kl licenseKeywords -> In ki invoiceKeywords ->
      mentions lines kl = true -> mentions lines ki = true ->
      detectDocumentType lines = lit "license").
Proof.
  split.
  - unfold detectDocumentType, firstMatchingCategory. cbv zeta.
    generalize (toLowerCase (join " " lines)) as fullText. intros fullText.
    cbn [find existsb priorityTable licenseKeywords invoiceKeywords
         passportKeywords idKeywords map snd fst].
    repeat (reflexivity
            || match goal with
               | |- context [includes fullText ?k] =>
                   destruct (includes fullText k); cbn [orb]
               end).
  - intros kl ki Hkl _ Hl _. apply mentions_fullText in Hl.
    unfold detectDocumentType. cbv zeta.
    unfold licenseKeywords in Hkl. cbn [map In] in Hkl.
    destruct Hkl as [<- | [<- | [<- | []]]]; rewrite Hl;
      repeat rewrite orb_true_r; reflexivity.
Qed.

Lemma detectDocumentType_priority_witness :
  detectDocumentType [lit "Tax Invoice"; lit "Driver LICENCE total 5"]
  = lit "license".
Proof.
  apply (proj2 (detectDocumentType_priority
                  [lit "Tax Invoice"; lit "Driver LICENCE total 5"]))
    with (kl := lit "licence") (ki := lit "invoice").
  - simpl. auto.
  - simpl. auto.
  - reflexivity.
  - reflexivity.
Defined.

(** *** Uniqueness *)

(** Claim C7.  The list returned by [extractFields] has no two entries
    with the same label and value; indeed no two with the same label. *)
Theorem extractFields_no_duplicates (text_ : str) :
  NoDup (map (fun f => (label f, value f)) (extractFields text_)).
Proof. apply NoDup_map_pair, well_extractFields. Qed.

(** The list that [handleFileSelect] stores has no two entries with
    the same label and value either, whatever the pages yield. *)
Lemma stored_fields_no_duplicates (allFields : list field) :
  NoDup (map (fun f => (label f, value f)) (removeDuplicates allFields)).
Proof. apply DedupFacts.removeDuplicates_NoDup. Qed.

(** *** Confidence threshold *)

(** Claim C9.  Every field returned by [extractFields] has confidence
    at least 75 (the lower bounds 85 of the class fallback and 80 of
    the fee are above it), and [validateAndFilterFields] removes every
    candidate whose confidence is below 75. *)
Theorem confidence_threshold :
  (forall text_ f, In f (extractFields text_) -> (75 <= confidence f)%Z)
  /\
  (forall fields structure f,
      In f fields -> (confidence f < 75)%Z ->
      ~ In f (validateAndFilterFields fields structure)).
Proof.
  split.
  - intros text_ f Hf. destruct (well_extractFields text_) as [_ Hc].
    rewrite Forall_forall in Hc. exact (Hc f Hf).
  - intros fields structure f _ Hlow Hin.
    unfold validateAndFilterFields in Hin. apply filter_In in Hin as [_ Hk].
    unfold keepField, minConfidence in Hk.
    apply Z.ltb_lt in Hlow. rewrite Hlow in Hk. discriminate.
Qed.

Lemma confidence_threshold_witness :
  (75 <= confidence (Field "Invoice Number" "A-1234" 90))%Z
  /\ ~ In (Field "Name" "Jo" 60)
          (validateAndFilterFields
             [Field "Name" "Jo" 60]
             (analyzeDocumentStructure [])).
Proof.
  split.
  - apply (proj1 confidence_threshold "Invoice Number A-1234").
    vm_compute. left. reflexivity.
  - apply (proj2 confidence_threshold).
    + left. reflexivity.
    + reflexivity.
Defined.

(** *** The collapsed line list *)

(** Claim C10.  The line lists of [extractFields] and of
    [cleanExtractedText] have at most one element; hence each section
    of the document structure is empty or the whole line list, and
    every context window is empty. *)
Theorem lines_collapse (text_ : str) :
  length (linesOf text_) <= 1
  /\ length (Recognition.cleanedLines text_) <= 1
  /\ (let structure := analyzeDocumentStructure (linesOf text_) in
      Forall (fun section => section = [] \/ section = linesOf text_)
             [headerSection structure; cardSection structure;
              addressSection structure; classSection structure;
              dateSection structure; feeSection structure]
      /\ Forall (fun entry => snd (fst entry) = []) (lineContexts structure)).
Proof.
  split; [|split].
  - destruct (linesOf_cases text_) as [->|[line ->]]; simpl; lia.
  - destruct (cleanedLines_cases text_) as [->|[line ->]]; simpl; lia.
  - cbv zeta. destruct (linesOf_cases text_) as [->|[line ->]].
    + rewrite analyze_empty. simpl. split.
      * repeat constructor; auto.
      * constructor.
    + destruct (analyze_single line) as [Hs Hc]. split.
      * exact Hs.
      * rewrite Hc. repeat constructor.
Qed.

End FieldsClaims.

(** ** Recognition with fallback *)

Module RecognitionClaims.

Import Recognition.

(** What a run of [performOCR] returns and does, by the answers of the
    factory and of the engine. *)
Lemma performOCR_run (fac : factory) (eng : engine) (imageData : image) :
  run (performOCR imageData) fac eng =
  match fac [] true with
  | Thrown e => (Thrown e, [NoWorker true])
  | Ok _ =>
      match eng [CreateWorker true] imageData with
      | Thrown e =>
          (Thrown e, [CreateWorker true; Recognize imageData; Terminate])
      | Ok r1 =>
          let firstResult :=
            Result (cleanExtractedText (text_of r1)) (confidence_of r1) in
          if (confidence_of r1 <? 40)%Z then
            match fac (beforeFallbackWorker imageData) false with
            | Thrown _ =>
                (Ok firstResult,
                 beforeFallbackWorker imageData
                   ++ [NoWorker false; ConsoleWarn])
            | Ok _ =>
                match eng (beforeFallback imageData) imageData with
                | Ok r2 =>
                    (Ok (if (confidence_of r1 <? confidence_of r2)%Z
                         then Result (cleanExtractedText (text_of r2))
                                     (confidence_of r2)
                         else firstResult),
                     beforeFallback imageData
                       ++ [Recognize imageData; Terminate])
                | Thrown _ =>
                    (Ok firstResult,
                     beforeFallback imageData
                       ++ [Recognize imageData; Terminate; ConsoleWarn])
                end
            end
          else (Ok firstResult,
                [CreateWorker true; Recognize imageData; Terminate])
      end
  end.
Proof.
  cbv beta iota zeta delta
      [run performOCR performFallbackOCR bind tryCatch emit recognize ret
           throw app beforeFallback beforeFallbackWorker createWorker
           terminate].
  destruct (fac [] true) as [u|e]; [|reflexivity].
  destruct (eng [CreateWorker true] imageData) as [[t1 c1]|e]; [|reflexivity].
  cbv beta iota delta [text_of confidence_of].
  destruct (c1 <? 40)%Z; [|reflexivity].
  destruct (fac _ false) as [u'|e]; [|reflexivity].
  destruct (eng _ imageData) as [[t2 c2]|e]; [|reflexivity].
  cbv beta iota delta [text_of confidence_of].
  destruct (c1 <? c2)%Z; reflexivity.
Qed.

(** Claim C5.  Whatever the factory and the engine answer, [performOCR]
    starts the fallback at most once and calls the engine at most
    twice, each time on the image it was given.  When the first
    recognition succeeds, the fallback is attempted if and only if its
    confidence is below 40, and the engine is called a second time if
    and only if, moreover, the fallback gets its worker; otherwise the
    engine is called once.  [performOCR] then returns a result whose
    confidence is at least that of the first attempt, and a result
    other than the cleaned first one is the cleaned answer of the
    second call, of strictly greater confidence. *)
Theorem performOCR_fallback (fac : factory) (eng : engine)
        (imageData : image) :
  fallbacks (snd (run (performOCR imageData) fac eng)) <= 1
  /\ recognitions (snd (run (performOCR imageData) fac eng)) <= 2
  /\ recognized (snd (run (performOCR imageData) fac eng))
     = repeat imageData
              (recognitions (snd (run (performOCR imageData) fac eng)))
  /\ (forall first,
         fac [] true = Ok tt ->
         eng [CreateWorker true] imageData = Ok first ->
         let trace := snd (run (performOCR imageData) fac eng) in
         let firstResult :=
           Result (cleanExtractedText (text_of first)) (confidence_of first) in
         (fallbackAttempted trace = true <-> (confidence_of first < 40)%Z)
         /\ (recognitions trace = 2
             <-> (confidence_of first < 40)%Z
                 /\ fac (beforeFallbackWorker imageData) false = Ok tt)
         /\ 1 <= recognitions trace
         /\ exists res,
             fst (run (performOCR imageData) fac eng) = Ok res
             /\ (confidence_of first <= confidence_of res)%Z
             /\ (res = firstResult
                 \/ exists second,
                     eng (beforeFallback imageData) imageData = Ok second
                     /\ (confidence_of first < confidence_of second)%Z
                     /\ res = Result (cleanExtractedText (text_of second))
                                     (confidence_of second))).
Proof.
  rewrite performOCR_run. unfold beforeFallback, beforeFallbackWorker.
  destruct (fac [] true) as [[]|e] eqn:E0.
  2:{ split; [cbn; lia|split; [cbn; lia|split; [reflexivity|]]].
      intros first' H. discriminate. }
  destruct (eng [CreateWorker true] imageData) as [r1|e] eqn:E1.
  2:{ split; [cbn; lia|split; [cbn; lia|split; [reflexivity|]]].
      intros first' _ H. discriminate. }
  destruct (confidence_of r1 <? 40)%Z eqn:Elow.
  - destruct (fac [CreateWorker true; Recognize imageData; Terminate;
                   ConsoleLog] false) as [[]|e'] eqn:E3.
    + destruct (eng ([CreateWorker true; Recognize imageData; Terminate;
                      ConsoleLog] ++ [CreateWorker false]) imageData)
        as [second|e] eqn:E2.
      * split; [cbn; lia|split; [cbn; lia|split; [reflexivity|]]].
        intros first' _ H; injection H as <-. cbv zeta. cbn [fst snd].
        apply Z.ltb_lt in Elow.
        split; [split; [intros _; assumption|reflexivity]|].
        split; [split; [intros _; split; [assumption|reflexivity]
                       |reflexivity]|].
        split; [cbn; lia|].
        eexists. split; [reflexivity|].
        destruct (confidence_of r1 <? confidence_of second)%Z eqn:Ebetter.
        -- apply Z.ltb_lt in Ebetter. cbn [confidence_of]. split; [lia|].
           right. exists second. auto.
        -- cbn [confidence_of]. split; [lia|]. now left.
      * split; [cbn; lia|split; [cbn; lia|split; [reflexivity|]]].
        intros first' _ H; injection H as <-. cbv zeta. cbn [fst snd].
        apply Z.ltb_lt in Elow.
        split; [split; [intros _; assumption|reflexivity]|].
        split; [split; [intros _; split; [assumption|reflexivity]
                       |reflexivity]|].
        split; [cbn; lia|].
        eexists. split; [reflexivity|]. cbn [confidence_of]. split; [lia|].
        now left.
    + split; [cbn; lia|split; [cbn; lia|split; [reflexivity|]]].
      intros first' _ H; injection H as <-. cbv zeta. cbn [fst snd].
      apply Z.ltb_lt in Elow.
      split; [split; [intros _; assumption|reflexivity]|].
      split; [split; [cbn; discriminate|intros [_ Habs]; discriminate]|].
      split; [cbn; lia|].
      eexists. split; [reflexivity|]. cbn [confidence_of]. split; [lia|].
      now left.
  - split; [cbn; lia|split; [cbn; lia|split; [reflexivity|]]].
    intros first' _ H; injection H as <-. cbv zeta. cbn [fst snd].
    apply Z.ltb_ge in Elow.
    split; [split; [cbn; discriminate|intros Hlt; lia]|].
    split; [split; [cbn; discriminate|intros [Hlt _]; lia]|].
    split; [cbn; lia|].
    eexists. split; [reflexivity|]. cbn [confidence_of]. split; [lia|].
    now left.
Qed.

(** The engine is called twice when it is unsure at first. *)
Lemma performOCR_fallback_witness :
  recognitions (snd (run (performOCR (lit "page")) workers hesitantEngine)) = 2
  <-> (30 < 40)%Z /\ workers (beforeFallbackWorker (lit "page")) false = Ok tt.
Proof.
  apply (proj2 (proj2 (proj2 (performOCR_fallback workers hesitantEngine
                                                  (lit "page"))))
               (Result "Tota1 l2.5O" 30)).
  - reflexivity.
  - reflexivity.
Defined.

End RecognitionClaims.

(** ** Raster operations *)

Module RasterFacts.

Import Raster.
Local Open Scope Z_scope.

(** *** Stores and loads *)

Lemma length_store (d : buffer) (i : nat) (v : Z) :
  length (store d i v) = length d.
Proof.
  revert i. induction d as [|x d IH]; intros [|i]; simpl; auto.
Qed.

Lemma nth_store_same (d : buffer) (i : nat) (v : Z) :
  (i < length d)%nat -> nth_error (store d i v) i = Some v.
Proof.
  revert i. induction d as [|x d IH]; intros [|i]; simpl; intros H;
    try lia; auto. apply IH. lia.
Qed.

Lemma nth_store_other (d : buffer) (i j : nat) (v : Z) :
  i <> j -> nth_error (store d i v) j = nth_error d j.
Proof.
  revert i j. induction d as [|x d IH]; intros [|i] [|j] H; simpl; auto;
    try congruence.
Qed.

Lemma length_set (d : buffer) (i : Z) (v : num) :
  length (set d i v) = length d.
Proof. unfold set. destruct (i <? 0); [reflexivity|apply length_store]. Qed.

Lemma get_set_same (d : buffer) (i : Z) (v : num) :
  0 <= i < Z.of_nat (length d) ->
  get (set d i v) i = Some (toUint8Clamp v).
Proof.
  intros H. unfold get, set.
  destruct (i <? 0) eqn:E; [apply Z.ltb_lt in E; lia|].
  apply nth_store_same. lia.
Qed.

Lemma get_set_other (d : buffer) (i j : Z) (v : num) :
  i <> j -> get (set d i v) j = get d j.
Proof.
  intros H. unfold get, set.
  destruct (j <? 0) eqn:Ej; [reflexivity|].
  destruct (i <? 0) eqn:Ei; [reflexivity|].
  apply Z.ltb_ge in Ei, Ej. apply nth_store_other. lia.
Qed.

Lemma length_setPixel (out : buffer) (idx : Z) (r g b a : num) :
  length (setPixel out idx r g b a) = length out.
Proof. unfold setPixel. now rewrite !length_set. Qed.

Lemma get_setPixel (out : buffer) (idx : Z) (r g b a : num) :
  0 <= idx -> idx + 3 < Z.of_nat (length out) ->
  get (setPixel out idx r g b a) idx = Some (toUint8Clamp r)
  /\ get (setPixel out idx r g b a) (idx + 1) = Some (toUint8Clamp g)
  /\ get (setPixel out idx r g b a) (idx + 2) = Some (toUint8Clamp b)
  /\ get (setPixel out idx r g b a) (idx + 3) = Some (toUint8Clamp a).
Proof.
  intros H0 H3. unfold setPixel. repeat split.
  - rewrite !get_set_other by lia. apply get_set_same. lia.
  - rewrite !get_set_other by lia. apply get_set_same.
    rewrite length_set. lia.
  - rewrite get_set_other by lia. apply get_set_same.
    rewrite !length_set. lia.
  - apply get_set_same. rewrite !length_set. lia.
Qed.

Lemma get_setPixel_other (out : buffer) (idx i : Z) (r g b a : num) :
  i < idx \/ idx + 3 < i ->
  get (setPixel out idx r g b a) i = get out i.
Proof. intros H. unfold setPixel. rewrite !get_set_other by lia. reflexivity. Qed.

Lemma get_newArray (n : nat) (i : Z) :
  0 <= i < Z.of_nat n -> get (newArray n) i = Some 0.
Proof.
  intros H. unfold get, newArray.
  destruct (i <? 0) eqn:E; [apply Z.ltb_lt in E; lia|].
  apply nth_error_repeat. lia.
Qed.

Lemma get_inside (d : buffer) (i : Z) :
  0 <= i < Z.of_nat (length d) -> exists v, get d i = Some v.
Proof.
  intros H. unfold get.
  destruct (i <? 0) eqn:E; [apply Z.ltb_lt in E; lia|].
  destruct (nth_error d (Z.to_nat i)) as [v|] eqn:En; [now exists v|].
  apply nth_error_None in En. lia.
Qed.

(** *** The loop nest *)

Lemma In_range (lo hi i : Z) : In i (range lo hi) <-> lo <= i < hi.
Proof.
  unfold range. rewrite in_map_iff. split.
  - intros (k & <- & Hk). apply in_seq in Hk. lia.
  - intros H. exists (Z.to_nat (i - lo)). split; [lia|].
    apply in_seq. lia.
Qed.

Lemma In_grid (xlo xhi ylo yhi x y : Z) :
  In (x, y) (grid xlo xhi ylo yhi) <-> xlo <= x < xhi /\ ylo <= y < yhi.
Proof.
  unfold grid. rewrite in_flat_map. split.
  - intros (y' & Hy & Hin). apply in_map_iff in Hin as (x' & E & Hx).
    injection E as <- <-. apply In_range in Hy, Hx. lia.
  - intros [Hx Hy]. exists y. split; [now apply In_range|].
    apply in_map_iff. exists x. split; [reflexivity|now apply In_range].
Qed.

Lemma In_interior (w h x y : Z) :
  In (x, y) (interior w h) <-> 1 <= x < w - 1 /\ 1 <= y < h - 1.
Proof. apply In_grid. Qed.

(** Two nested loops are one pass over the pixels of their grid. *)
Lemma loops_as_fold {S : Type} (g : Z -> Z -> S -> S)
      (xlo xhi ylo yhi : Z) (s : S) :
  for_ ylo yhi (fun y s => for_ xlo xhi (fun x s => g x y s) s) s
  = fold_left (fun s p => g (fst p) (snd p) s) (grid xlo xhi ylo yhi) s.
Proof.
  unfold for_, grid. generalize (range ylo yhi) as ys.
  intros ys. revert s. induction ys as [|y ys IH]; intros s; simpl;
    [reflexivity|].
  rewrite fold_left_app, IH. f_equal.
  generalize (range xlo xhi) as xs. intros xs. revert s.
  induction xs as [|x xs IHx]; intros s; simpl; [reflexivity|apply IHx].
Qed.

Section Paint.

Variable w : Z.
Variable colour : Z -> Z -> num * num * num * num.

Lemma length_fold_paint (ps : list (Z * Z)) (out : buffer) :
  length (fold_left (paint w colour) ps out) = length out.
Proof.
  revert out. induction ps as [|p ps IH]; intros out; simpl; [reflexivity|].
  rewrite IH. unfold paint. destruct (colour _ _) as [[[r g] b] a].
  apply length_setPixel.
Qed.

(** A cell that no iteration addresses keeps its value. *)
Lemma get_fold_paint_other (ps : list (Z * Z)) (out : buffer) (i : Z) :
  (forall q, In q ps -> i < addr w q \/ addr w q + 3 < i) ->
  get (fold_left (paint w colour) ps out) i = get out i.
Proof.
  revert out. induction ps as [|p ps IH]; intros out H; simpl; [reflexivity|].
  rewrite IH by (intros q Hq; apply H; now right).
  unfold paint. destruct (colour _ _) as [[[r g] b] a].
  apply get_setPixel_other. apply H. now left.
Qed.

(** The cells of a visited pixel hold the colour computed for it. *)
Lemma get_fold_paint (ps : list (Z * Z)) (out : buffer) (p : Z * Z) :
  In p ps ->
  (forall q, In q ps -> addr w q = addr w p -> q = p) ->
  0 <= addr w p -> addr w p + 3 < Z.of_nat (length out) ->
  let '(r, g, b, a) := colour (fst p) (snd p) in
  let out' := fold_left (paint w colour) ps out in
  get out' (addr w p) = Some (toUint8Clamp r)
  /\ get out' (addr w p + 1) = Some (toUint8Clamp g)
  /\ get out' (addr w p + 2) = Some (toUint8Clamp b)
  /\ get out' (addr w p + 3) = Some (toUint8Clamp a).
Proof.
  intros Hin Hinj H0 H3.
  destruct (colour (fst p) (snd p)) as [[[r g] b] a] eqn:Ec. cbv zeta.
  induction ps as [|q ps IH] using rev_ind; [destruct Hin|].
  rewrite fold_left_app. cbn [fold_left].
  destruct (Z.eq_dec (addr w q) (addr w p)) as [E|E].
  - assert (q = p) as -> by (apply Hinj; [apply in_or_app; right; now left|exact E]).
    unfold paint. rewrite Ec. apply get_setPixel; [assumption|].
    now rewrite length_fold_paint.
  - assert (Hp : In p ps).
    { apply in_app_or in Hin as [Hin|[->|[]]]; [assumption|congruence]. }
    assert (Hinj' : forall q0, In q0 ps -> addr w q0 = addr w p -> q0 = p).
    { intros q0 Hq0. apply Hinj. apply in_or_app. now left. }
    specialize (IH Hp Hinj').
    assert (Hfar : addr w q + 3 < addr w p \/ addr w p + 3 < addr w q).
    { unfold addr in *. lia. }
    unfold paint at 1 3 5 7. destruct (colour (fst q) (snd q)) as [[[r' g'] b'] a'].
    rewrite !get_setPixel_other by lia. exact IH.
Qed.

End Paint.

(** The first-channel index determines the pixel within a row width. *)
Lemma addr_inj (w x y x' y' : Z) :
  0 <= x < w -> 0 <= x' < w ->
  addr w (x', y') = addr w (x, y) -> (x', y') = (x, y).
Proof.
  unfold addr. cbn [fst snd]. intros Hx Hx' E.
  assert (Ey : y' = y) by nia. subst y'. f_equal. lia.
Qed.

Lemma addr_bounds (w h x y : Z) :
  0 <= x < w -> 0 <= y < h ->
  0 <= addr w (x, y) /\ addr w (x, y) + 3 < w * h * 4.
Proof. unfold addr. cbn [fst snd]. intros Hx Hy. split; nia. Qed.

(** A pass over the interior: what an interior pixel holds afterwards. *)
Lemma get_pass_interior (colour : Z -> Z -> num * num * num * num)
      (w h x y : Z) (out : buffer) :
  length out = Z.to_nat (w * h * 4) ->
  1 <= x < w - 1 -> 1 <= y < h - 1 ->
  let '(r, g, b, a) := colour x y in
  let out' := fold_left (paint w colour) (interior w h) out in
  channel out' w x y 0 = Some (toUint8Clamp r)
  /\ channel out' w x y 1 = Some (toUint8Clamp g)
  /\ channel out' w x y 2 = Some (toUint8Clamp b)
  /\ channel out' w x y 3 = Some (toUint8Clamp a).
Proof.
  intros Hlen Hx Hy.
  destruct (addr_bounds w h x y) as [H0 H3]; [lia|lia|].
  pose proof (get_fold_paint w colour (interior w h) out (x, y)) as H.
  cbn [fst snd] in H. destruct (colour x y) as [[[r g] b] a]. cbv zeta in *.
  unfold channel. change ((y * w + x) * 4) with (addr w (x, y)).
  rewrite Z.add_0_r. apply H.
  - apply In_interior. lia.
  - intros [x' y'] Hq E. apply In_interior in Hq.
    apply (addr_inj w x y x' y'); [lia|lia|exact E].
  - exact H0.
  - rewrite Hlen. lia.
Qed.

(** A pass over the interior leaves the border as it was. *)
Lemma get_pass_border (colour : Z -> Z -> num * num * num * num)
      (w h x y c : Z) (out : buffer) :
  onBorder w h x y -> 0 <= c < 4 ->
  channel (fold_left (paint w colour) (interior w h) out) w x y c
  = channel out w x y c.
Proof.
  intros (Hx & Hy & Hb) Hc. unfold channel. apply get_fold_paint_other.
  intros [x' y'] Hq. apply In_interior in Hq. unfold addr. cbn [fst snd].
  assert (y' <> y \/ x' <> x) as [Hne|Hne] by lia.
  - assert (y' < y \/ y < y') as [Hlt|Hlt] by lia; [right|left]; nia.
  - assert (y' < y \/ y' = y \/ y < y') as [Hlt|[->|Hlt]] by lia;
      [right; nia| |left; nia].
    assert (x' < x \/ x < x') as [Hl|Hl] by lia; [right|left]; lia.
Qed.

Lemma applyErosion_pass (data : buffer) (w h : Z) :
  applyErosion data w h
  = fold_left (paint w (erodedColour data w)) (interior w h)
              (newArray (length data)).
Proof. unfold applyErosion, interior. cbv zeta. now rewrite loops_as_fold. Qed.

Lemma applyDilation_pass (data : buffer) (w h : Z) :
  applyDilation data w h
  = fold_left (paint w (dilatedColour data w)) (interior w h)
              (newArray (length data)).
Proof. unfold applyDilation, interior. cbv zeta. now rewrite loops_as_fold. Qed.

Lemma applyDocumentSharpening_pass (data : buffer) (w h : Z) :
  applyDocumentSharpening data w h
  = fold_left (paint w (sharpenedColour data w)) (interior w h)
              (newArray (length data)).
Proof.
  unfold applyDocumentSharpening, interior. cbv zeta.
  now rewrite loops_as_fold.
Qed.

End RasterFacts.

Module ThresholdFacts.

Import Raster RasterFacts.
Local Open Scope Z_scope.

(** *** Thresholding: what the border keeps *)

(** A pass whose steps leave a cell alone leaves it alone. *)
Lemma get_fold_frame (step : buffer -> Z * Z -> buffer)
      (ps : list (Z * Z)) (i : Z) :
  (forall out q, In q ps -> get (step out q) i = get out i) ->
  forall out, get (fold_left step ps out) i = get out i.
Proof.
  induction ps as [|p ps IH]; intros H out; simpl; [reflexivity|].
  rewrite IH by (intros out' q Hq; apply H; now right).
  apply H. now left.
Qed.

Lemma get_thresholdPixel_other (w x y i : Z) (out : buffer) :
  i < (y * w + x) * 4 \/ (y * w + x) * 4 + 2 < i ->
  get (thresholdPixel w x y out) i = get out i.
Proof.
  intros H. unfold thresholdPixel.
  destruct (localWindow out w x y) as [localSum count]. cbv zeta.
  rewrite !get_set_other by lia. reflexivity.
Qed.

Lemma halfWindow_is_7 : halfWindow = 7.
Proof. reflexivity. Qed.

(** The thresholding loops store only into the three colour cells of
    the pixels at least 7 away from every edge. *)
Lemma get_threshold_frame (data : buffer) (w h i : Z) :
  (forall x y, 7 <= x < w - 7 -> 7 <= y < h - 7 ->
               i < (y * w + x) * 4 \/ (y * w + x) * 4 + 2 < i) ->
  get (applyAdaptiveThreshold data w h) i = get (grayscale data) i.
Proof.
  intros H. unfold applyAdaptiveThreshold. cbv zeta.
  rewrite (loops_as_fold (fun x y out => thresholdPixel w x y out)).
  apply get_fold_frame. intros out [x y] Hq.
  apply In_grid in Hq. rewrite halfWindow_is_7 in Hq. cbn [fst snd].
  apply get_thresholdPixel_other. apply H; lia.
Qed.

Lemma roundToByte_range (x : PrimFloat.float) : 0 <= roundToByte x <= 255.
Proof.
  unfold roundToByte. destruct (FloatOps.Prim2SF x) as [s|s| |s mant e];
    try destruct s; lia.
Qed.

Lemma toUint8Clamp_grayOf (r g b : num) :
  toUint8Clamp (Some (grayOf r g b)) = grayOf r g b.
Proof.
  unfold grayOf. cbn [toUint8Clamp].
  match goal with |- context [roundToByte ?x] =>
    pose proof (roundToByte_range x) end.
  lia.
Qed.

(** The colour that the grayscale loop stores for pixel number [k]. *)
Lemma grayscale_pass (data : buffer) :
  grayscale data
  = fold_left
      (paint 0 (fun k _ =>
                  let gray := Some (grayOf (get data (4 * k))
                                           (get data (4 * k + 1))
                                           (get data (4 * k + 2))) in
                  (gray, gray, gray, get data (4 * k + 3))))
      (map (fun k => (Z.of_nat k, 0)) (seq 0 (Nat.div (length data + 3) 4)))
      (newArray (length data)).
Proof.
  unfold grayscale. generalize (newArray (length data)) as out.
  generalize (seq 0 (Nat.div (length data + 3) 4)) as ks.
  induction ks as [|k ks IH]; intros out; simpl; [reflexivity|].
  rewrite IH. f_equal. unfold paint, addr. cbn [fst snd].
  replace ((0 * 0 + Z.of_nat k) * 4) with (4 * Z.of_nat k) by lia.
  reflexivity.
Qed.

(** After the grayscale loop a pixel holds its luma in the three colour
    channels and its own alpha. *)
Lemma get_grayscale (data : buffer) (k : Z) :
  0 <= k -> 4 * k + 3 < Z.of_nat (length data) ->
  let gray := Some (grayOf (get data (4 * k)) (get data (4 * k + 1))
                           (get data (4 * k + 2))) in
  get (grayscale data) (4 * k) = gray
  /\ get (grayscale data) (4 * k + 1) = gray
  /\ get (grayscale data) (4 * k + 2) = gray
  /\ get (grayscale data) (4 * k + 3)
     = Some (toUint8Clamp (get data (4 * k + 3))).
Proof.
  intros Hk Hin. rewrite grayscale_pass. cbv zeta.
  match goal with
  | |- context [fold_left (paint 0 ?c) ?ps ?out] =>
      pose proof (get_fold_paint 0 c ps out (k, 0)) as H
  end.
  cbn [fst snd] in H. cbv zeta in H. unfold addr in H. cbn [fst snd] in H.
  replace ((0 * 0 + k) * 4) with (4 * k) in H by lia.
  rewrite !toUint8Clamp_grayOf in H. apply H.
  - apply in_map_iff. exists (Z.to_nat k). split; [f_equal; lia|].
    apply in_seq. split; [lia|].
    assert (Hd : (Z.to_nat k < (length data + 3) / 4)%nat).
    { apply Nat.div_le_lower_bound; lia. }
    lia.
  - intros [k' z] Hq E. apply in_map_iff in Hq as (n & En & _).
    injection En as <- <-. unfold addr in E. cbn [fst snd] in E.
    f_equal. lia.
  - lia.
  - unfold newArray. rewrite repeat_length. lia.
Qed.

(** Every pixel less than 7 away from an edge keeps its luma in the
    three colour channels, and its alpha. *)
Lemma threshold_border (data : buffer) (w h x y : Z) :
  length data = Z.to_nat (w * h * 4) ->
  0 <= x < w -> 0 <= y < h ->
  x < 7 \/ w - 7 <= x \/ y < 7 \/ h - 7 <= y ->
  let output := applyAdaptiveThreshold data w h in
  let gray := Some (grayOf (channel data w x y 0) (channel data w x y 1)
                           (channel data w x y 2)) in
  channel output w x y 0 = gray
  /\ channel output w x y 1 = gray
  /\ channel output w x y 2 = gray
  /\ channel output w x y 3 = Some (toUint8Clamp (channel data w x y 3)).
Proof.
  intros Hlen Hx Hy Hb. cbv zeta. unfold channel.
  assert (Hframe : forall c, 0 <= c < 4 ->
             get (applyAdaptiveThreshold data w h) ((y * w + x) * 4 + c)
             = get (grayscale data) ((y * w + x) * 4 + c)).
  { intros c Hc. apply get_threshold_frame. intros x' y' Hx' Hy'.
    assert (y' <> y \/ x' <> x) as [Hne|Hne] by lia.
    - assert (y' < y \/ y < y') as [Hlt|Hlt] by lia; [right|left]; nia.
    - assert (y' < y \/ y' = y \/ y < y') as [Hlt|[->|Hlt]] by lia;
        [right; nia| |left; nia].
      assert (x' < x \/ x < x') as [Hl|Hl] by lia; [right|left]; lia. }
  rewrite !Hframe by lia.
  destruct (addr_bounds w h x y Hx Hy) as [H0 H3].
  unfold addr in H0, H3. cbn [fst snd] in H0, H3.
  destruct (get_grayscale data (y * w + x)) as (G0 & G1 & G2 & G3);
    [lia|lia|].
  replace (4 * (y * w + x)) with ((y * w + x) * 4) in * by lia.
  rewrite Z.add_0_r. auto.
Qed.

End ThresholdFacts.

Module RasterClaims.

Import Raster RasterFacts.
Local Open Scope Z_scope.

(** *** Reading neighbourhoods *)

Lemma channel0 (data : buffer) (w x y : Z) :
  channel data w x y 0 = get data ((y * w + x) * 4).
Proof. unfold channel. f_equal. lia. Qed.

Lemma read_inside (data : buffer) (w h x y c : Z) :
  length data = Z.to_nat (w * h * 4) ->
  0 <= x < w -> 0 <= y < h -> 0 <= c < 4 ->
  exists v, channel data w x y c = Some v.
Proof.
  intros Hlen Hx Hy Hc. unfold channel. apply get_inside.
  destruct (addr_bounds w h x y Hx Hy) as [H0 H3].
  unfold addr in *. cbn [fst snd] in *. lia.
Qed.

(** The nine reads of a neighbourhood, in the order of the loops. *)
Lemma neighbourhood_channels (combine : num -> num -> num) (init : num)
      (data : buffer) (w x y : Z) :
  neighbourhood combine init data w x y =
  let at_ dx dy := channel data w (x + dx) (y + dy) 0 in
  combine (combine (combine (combine (combine (combine (combine (combine
    (combine init (at_ (-1) (-1))) (at_ 0 (-1))) (at_ 1 (-1)))
    (at_ (-1) 0)) (at_ 0 0)) (at_ 1 0))
    (at_ (-1) 1)) (at_ 0 1)) (at_ 1 1).
Proof. cbv beta zeta. rewrite !channel0. reflexivity. Qed.

Lemma length_applyErosion (data : buffer) (w h : Z) :
  length (applyErosion data w h) = length data.
Proof.
  rewrite applyErosion_pass, length_fold_paint. apply repeat_length.
Qed.

(** *** Erosion *)

Lemma eroded_inside (data : buffer) (w h x y : Z) :
  length data = Z.to_nat (w * h * 4) ->
  1 <= x < w - 1 -> 1 <= y < h - 1 ->
  let m := Some (toUint8Clamp (neighbourhood Math_min (Some 255) data w x y)) in
  channel (applyErosion data w h) w x y 0 = m
  /\ channel (applyErosion data w h) w x y 1 = m
  /\ channel (applyErosion data w h) w x y 2 = m.
Proof.
  intros Hlen Hx Hy. rewrite applyErosion_pass.
  pose proof (get_pass_interior (erodedColour data w) w h x y
                                (newArray (length data))) as H.
  unfold erodedColour in H at 1. cbv zeta in H.
  destruct H as (H0 & H1 & H2 & _); try assumption.
  { unfold newArray. now rewrite repeat_length. }
  cbv zeta. auto.
Qed.

Lemma dilated_inside (data : buffer) (w h x y : Z) :
  length data = Z.to_nat (w * h * 4) ->
  1 <= x < w - 1 -> 1 <= y < h - 1 ->
  let m := Some (toUint8Clamp (neighbourhood Math_max (Some 0) data w x y)) in
  channel (applyDilation data w h) w x y 0 = m
  /\ channel (applyDilation data w h) w x y 1 = m
  /\ channel (applyDilation data w h) w x y 2 = m.
Proof.
  intros Hlen Hx Hy. rewrite applyDilation_pass.
  pose proof (get_pass_interior (dilatedColour data w) w h x y
                                (newArray (length data))) as H.
  unfold dilatedColour in H at 1. cbv zeta in H.
  destruct H as (H0 & H1 & H2 & _); try assumption.
  { unfold newArray. now rewrite repeat_length. }
  cbv zeta. auto.
Qed.

(** The three filters allocate a zero-filled output and store only
    into the interior: every channel of a border pixel is 0 afterwards,
    whatever the input holds there. *)
Lemma border_of_pass (colour : Z -> Z -> num * num * num * num)
      (n : nat) (w h x y c : Z) :
  n = Z.to_nat (w * h * 4) ->
  onBorder w h x y -> 0 <= c < 4 ->
  channel (fold_left (paint w colour) (interior w h) (newArray n)) w x y c
  = Some 0.
Proof.
  intros Hn Hb Hc. rewrite get_pass_border by assumption.
  unfold channel. apply get_newArray.
  destruct Hb as (Hx & Hy & _).
  destruct (addr_bounds w h x y Hx Hy) as [H0 H3].
  unfold addr in *. cbn [fst snd] in *. lia.
Qed.

Lemma eroded_border (data : buffer) (w h x y c : Z) :
  length data = Z.to_nat (w * h * 4) ->
  onBorder w h x y -> 0 <= c < 4 ->
  channel (applyErosion data w h) w x y c = Some 0.
Proof. intros. rewrite applyErosion_pass. now apply border_of_pass. Qed.

Lemma dilated_border (data : buffer) (w h x y c : Z) :
  length data = Z.to_nat (w * h * 4) ->
  onBorder w h x y -> 0 <= c < 4 ->
  channel (applyDilation data w h) w x y c = Some 0.
Proof. intros. rewrite applyDilation_pass. now apply border_of_pass. Qed.

Lemma sharpened_border (data : buffer) (w h x y c : Z) :
  length data = Z.to_nat (w * h * 4) ->
  onBorder w h x y -> 0 <= c < 4 ->
  channel (applyDocumentSharpening data w h) w x y c = Some 0.
Proof. intros. rewrite applyDocumentSharpening_pass. now apply border_of_pass. Qed.

(** Replace the reads of a neighbourhood by their values. *)
Ltac reads data w h :=
  repeat match goal with
         | |- context [channel data w ?a ?b 0] =>
             let v := fresh "v" in
             let E := fresh "E" in
             destruct (read_inside data w h a b 0) as [v E];
             [assumption|lia|lia|lia|rewrite E]
         end.

(** Erosion never raises a pixel, and yields a byte. *)
Lemma eroded_value (data : buffer) (w h x y v : Z) :
  length data = Z.to_nat (w * h * 4) ->
  0 <= x < w -> 0 <= y < h ->
  channel data w x y 0 = Some v ->
  exists e, channel (applyErosion data w h) w x y 0 = Some e
            /\ 0 <= e <= Z.max 0 v.
Proof.
  intros Hlen Hx Hy Hv.
  assert (Hcase : (1 <= x < w - 1 /\ 1 <= y < h - 1) \/ onBorder w h x y)
    by (unfold onBorder; lia).
  destruct Hcase as [[Hix Hiy]|Hb].
  - destruct (eroded_inside data w h x y Hlen Hix Hiy) as (-> & _).
    rewrite neighbourhood_channels. cbv beta zeta.
    rewrite !Z.add_0_r, Hv. reads data w h.
    cbn [Math_min toUint8Clamp]. eexists. split; [reflexivity|lia].
  - rewrite eroded_border by (assumption || lia).
    exists 0. split; [reflexivity|lia].
Qed.

(** An isolated brighter pixel is lowered to the value around it. *)
Lemma eroded_isolated (data : buffer) (w h x y fg bg : Z) :
  length data = Z.to_nat (w * h * 4) ->
  1 <= x < w - 1 -> 1 <= y < h - 1 ->
  0 <= bg <= 255 -> bg <= fg ->
  channel data w x y 0 = Some fg ->
  (forall dx dy, -1 <= dx <= 1 -> -1 <= dy <= 1 -> dx <> 0 \/ dy <> 0 ->
                 channel data w (x + dx) (y + dy) 0 = Some bg) ->
  channel (applyErosion data w h) w x y 0 = Some bg.
Proof.
  intros Hlen Hx Hy Hbg Hfg Hc Hn.
  destruct (eroded_inside data w h x y Hlen Hx Hy) as (-> & _).
  rewrite neighbourhood_channels. cbv beta zeta.
  rewrite (Hn (-1) (-1)), (Hn 0 (-1)), (Hn 1 (-1)), (Hn (-1) 0), (Hn 1 0),
    (Hn (-1) 1), (Hn 0 1), (Hn 1 1) by lia.
  rewrite !Z.add_0_r, Hc.
  cbn [Math_min toUint8Clamp]. f_equal. lia.
Qed.

(** *** Opening *)

(** The opening lowers an isolated brighter pixel to the value of its
    eight neighbours, in the three colour channels. *)
Lemma opening_isolated (data : buffer) (w h x y fg bg : Z) :
  length data = Z.to_nat (w * h * 4) ->
  1 <= x < w - 1 -> 1 <= y < h - 1 ->
  0 <= bg <= 255 -> bg <= fg ->
  channel data w x y 0 = Some fg ->
  (forall dx dy, -1 <= dx <= 1 -> -1 <= dy <= 1 -> dx <> 0 \/ dy <> 0 ->
                 channel data w (x + dx) (y + dy) 0 = Some bg) ->
  let opened := applyMorphologicalCleaning data w h in
  channel opened w x y 0 = Some bg
  /\ channel opened w x y 1 = Some bg
  /\ channel opened w x y 2 = Some bg.
Proof.
  intros Hlen Hx Hy Hbg Hfg Hc Hn.
  unfold applyMorphologicalCleaning, copyOf. cbv zeta.
  assert (Hlen' : length (applyErosion data w h) = Z.to_nat (w * h * 4))
    by now rewrite length_applyErosion.
  destruct (dilated_inside (applyErosion data w h) w h x y Hlen' Hx Hy)
    as (-> & -> & ->).
  assert (Hm : toUint8Clamp
                 (neighbourhood Math_max (Some 0) (applyErosion data w h) w x y)
               = bg).
  { rewrite neighbourhood_channels. cbv beta zeta.
    assert (Hnear : forall dx dy,
               -1 <= dx <= 1 -> -1 <= dy <= 1 -> dx <> 0 \/ dy <> 0 ->
               exists e, channel (applyErosion data w h) w (x + dx) (y + dy) 0
                         = Some e /\ 0 <= e <= bg).
    { intros dx dy Hdx Hdy Hd.
      destruct (eroded_value data w h (x + dx) (y + dy) bg)
        as (e & E & He); [assumption|lia|lia|now apply Hn|].
      exists e. split; [exact E|lia]. }
    destruct (Hnear (-1) (-1)) as (e1 & -> & ?); [lia|lia|lia|].
    destruct (Hnear 0 (-1)) as (e2 & -> & ?); [lia|lia|lia|].
    destruct (Hnear 1 (-1)) as (e3 & -> & ?); [lia|lia|lia|].
    destruct (Hnear (-1) 0) as (e4 & -> & ?); [lia|lia|lia|].
    destruct (Hnear 1 0) as (e6 & -> & ?); [lia|lia|lia|].
    destruct (Hnear (-1) 1) as (e7 & -> & ?); [lia|lia|lia|].
    destruct (Hnear 0 1) as (e8 & -> & ?); [lia|lia|lia|].
    destruct (Hnear 1 1) as (e9 & -> & ?); [lia|lia|lia|].
    rewrite !Z.add_0_r.
    rewrite (eroded_isolated data w h x y fg bg) by assumption.
    cbn [Math_max toUint8Clamp]. lia. }
  rewrite Hm. auto.
Qed.

(** Claim C3.  In an image, take a pixel whose 3x3 neighbourhood lies
    in the interior.  If it holds the foreground value and its eight
    neighbours hold the background value, then after the opening
    (erosion, then dilation) it holds the background value, in each
    colour channel. *)
Theorem opening_erases_isolated_pixel (data : buffer) (w h x y : Z) :
  length data = Z.to_nat (w * h * 4) ->
  2 <= x < w - 2 -> 2 <= y < h - 2 ->
  channel data w x y 0 = Some foreground ->
  (forall dx dy, -1 <= dx <= 1 -> -1 <= dy <= 1 -> dx <> 0 \/ dy <> 0 ->
                 channel data w (x + dx) (y + dy) 0 = Some background) ->
  let opened := applyMorphologicalCleaning data w h in
  channel opened w x y 0 = Some background
  /\ channel opened w x y 1 = Some background
  /\ channel opened w x y 2 = Some background.
Proof.
  intros Hlen Hx Hy Hc Hn.
  apply (opening_isolated data w h x y foreground background);
    try assumption; unfold foreground, background; lia.
Qed.

Lemma opening_erases_isolated_pixel_witness :
  channel speck 5 2 2 0 = Some foreground
  /\ channel (applyMorphologicalCleaning speck 5 5) 5 2 2 0 = Some background.
Proof.
  split; [reflexivity|].
  apply (opening_erases_isolated_pixel speck 5 5 2 2).
  - reflexivity.
  - lia.
  - lia.
  - reflexivity.
  - intros dx dy Hdx Hdy Hd.
    assert (Ex : dx = -1 \/ dx = 0 \/ dx = 1) by lia.
    assert (Ey : dy = -1 \/ dy = 0 \/ dy = 1) by lia.
    destruct Ex as [-> | [-> | ->]]; destruct Ey as [-> | [-> | ->]];
      try reflexivity; lia.
Defined.

(** *** Borders *)

(** Claim C4.  On the white 3x3 image, the erosion, the dilation and
    the sharpening each return an image whose corner pixel is 0 in all
    four channels, although it is 255 in their input: the border is
    not carried over to the output. *)
Theorem border_pixels_zeroed :
  let white := uniform 3 3 255 255 255 255 in
  map (channel white 3 0 0) [0; 1; 2; 3]
  = [Some 255; Some 255; Some 255; Some 255]
  /\ map (channel (applyErosion white 3 3) 3 0 0) [0; 1; 2; 3]
     = [Some 0; Some 0; Some 0; Some 0]
  /\ map (channel (applyDilation white 3 3) 3 0 0) [0; 1; 2; 3]
     = [Some 0; Some 0; Some 0; Some 0]
  /\ map (channel (applyDocumentSharpening white 3 3) 3 0 0) [0; 1; 2; 3]
     = [Some 0; Some 0; Some 0; Some 0].
Proof. repeat split; vm_compute; reflexivity. Qed.

(** *** Thresholding *)

(** Claim C8.  On the uniformly black 19x16 image, whose interior is
    the columns 7..11 of the rows 7..8, the adaptive thresholding turns
    the interior pixel (7, 7) into 255 and the interior pixel (11, 8)
    into 0, while the border pixel (0, 0) keeps its gray value 0: the
    window of a pixel is read from the buffer that the earlier pixels
    have already been binarized in. *)
Theorem threshold_of_uniform_image :
  let output := applyAdaptiveThreshold (uniform 19 16 0 0 0 255) 19 16 in
  channel output 19 7 7 0 = Some 255
  /\ channel output 19 11 8 0 = Some 0
  /\ channel output 19 0 0 0 = Some 0.
Proof. vm_compute. repeat split. Qed.

(** The same on a mid-gray image (every pixel 100, 22x16): the last
    interior pixel of the second interior row comes out black, the
    others white. *)
Lemma threshold_of_gray_image :
  let output := applyAdaptiveThreshold (uniform 22 16 100 100 100 255) 22 16 in
  map (fun x => channel output 22 x 7 0) (range 7 15)
  = repeat (Some 255) 8
  /\ map (fun x => channel output 22 x 8 0) (range 7 15)
     = repeat (Some 255) 7 ++ [Some 0].
Proof. vm_compute. split; reflexivity. Qed.

End RasterClaims.
(* ================================================================== *)
(** ** Further properties of the raster operations *)
(* ================================================================== *)

Module RasterProperties.

Import Raster RasterFacts ThresholdFacts RasterClaims Enhancer.
Local Open Scope Z_scope.

(** *** Loops that do not run *)

Lemma range_empty (lo hi : Z) : hi <= lo -> range lo hi = [].
Proof.
  intros H. unfold range.
  replace (Z.to_nat (hi - lo)) with 0%nat by lia. reflexivity.
Qed.

Lemma grid_empty (xlo xhi ylo yhi : Z) :
  xhi <= xlo \/ yhi <= ylo -> grid xlo xhi ylo yhi = [].
Proof.
  intros [H|H]; unfold grid.
  - rewrite (range_empty xlo xhi H).
    induction (range ylo yhi) as [|y ys IH]; simpl; auto.
  - now rewrite (range_empty ylo yhi H).
Qed.

(** *** Lengths *)

Lemma length_fold_step (step : buffer -> Z * Z -> buffer) (ps : list (Z * Z)) :
  (forall out q, length (step out q) = length out) ->
  forall out, length (fold_left step ps out) = length out.
Proof.
  intros H. induction ps as [|p ps IH]; intros out; simpl; [reflexivity|].
  now rewrite IH, H.
Qed.

Lemma length_thresholdPixel (w x y : Z) (out : buffer) :
  length (thresholdPixel w x y out) = length out.
Proof.
  unfold thresholdPixel. destruct (localWindow out w x y) as [localSum count].
  cbv zeta. now rewrite !length_set.
Qed.

Lemma length_grayscale (data : buffer) : length (grayscale data) = length data.
Proof.
  rewrite grayscale_pass, length_fold_paint. apply repeat_length.
Qed.

Lemma length_applyAdaptiveThreshold (data : buffer) (w h : Z) :
  length (applyAdaptiveThreshold data w h) = length data.
Proof.
  unfold applyAdaptiveThreshold. cbv zeta.
  rewrite (loops_as_fold (fun x y out => thresholdPixel w x y out)).
  rewrite length_fold_step; [apply length_grayscale|].
  intros out q. apply length_thresholdPixel.
Qed.

Lemma length_applyDilation (data : buffer) (w h : Z) :
  length (applyDilation data w h) = length data.
Proof.
  rewrite applyDilation_pass, length_fold_paint. apply repeat_length.
Qed.

Lemma length_applyDocumentSharpening (data : buffer) (w h : Z) :
  length (applyDocumentSharpening data w h) = length data.
Proof.
  rewrite applyDocumentSharpening_pass, length_fold_paint. apply repeat_length.
Qed.

Lemma length_applyMorphologicalCleaning (data : buffer) (w h : Z) :
  length (applyMorphologicalCleaning data w h) = length data.
Proof.
  unfold applyMorphologicalCleaning, copyOf. cbv zeta.
  now rewrite length_applyDilation, length_applyErosion.
Qed.

(** *** Bytes *)

Lemma bytes_get (data : buffer) (i v : Z) :
  bytes data -> get data i = Some v -> 0 <= v <= 255.
Proof.
  intros Hb Hg. unfold get in Hg.
  destruct (i <? 0); [discriminate|].
  apply nth_error_In in Hg.
  unfold bytes in Hb. rewrite Forall_forall in Hb. now apply Hb.
Qed.

Lemma bytes_channel (data : buffer) (w x y c v : Z) :
  bytes data -> channel data w x y c = Some v -> 0 <= v <= 255.
Proof. unfold channel. apply bytes_get. Qed.

(** Two different pixels of an image do not share a cell. *)
Lemma addr_apart (w x y x' y' : Z) :
  0 <= x < w -> 0 <= x' < w -> (x', y') <> (x, y) ->
  addr w (x', y') + 3 < addr w (x, y) \/ addr w (x, y) + 3 < addr w (x', y').
Proof.
  intros Hx Hx' Hne. unfold addr. cbn [fst snd].
  assert (y' <> y \/ (y' = y /\ x' <> x)) as [Hy|[-> Hxx]].
  { destruct (Z.eq_dec y' y) as [->|]; [right|left; assumption].
    split; [reflexivity|]. intros ->. now apply Hne. }
  - assert (y' < y \/ y < y') as [Hlt|Hlt] by lia; [left|right]; nia.
  - assert (x' < x \/ x < x') as [Hlt|Hlt] by lia; [left|right]; lia.
Qed.

(** *** A pass whose steps depend on the buffer *)

(** What the step of a pixel establishes holds at the end of the pass
    when the steps of the other pixels keep it. *)
Lemma fold_establish (step : buffer -> Z * Z -> buffer)
      (Inv P : buffer -> Prop) (p : Z * Z) (ps : list (Z * Z)) :
  (forall out q, Inv out -> Inv (step out q)) ->
  (forall out, Inv out -> P (step out p)) ->
  (forall out q, In q ps -> q <> p -> Inv out -> P out -> P (step out q)) ->
  In p ps ->
  forall out, Inv out -> P (fold_left step ps out).
Proof.
  intros HInv Hp Hq.
  assert (HI : forall l out, Inv out -> Inv (fold_left step l out)).
  { induction l as [|a l IH]; intros out Ho; simpl; auto. }
  induction ps as [|q ps IH] using rev_ind; intros Hin out Ho; [destruct Hin|].
  rewrite fold_left_app. simpl.
  assert (Hdec : q = p \/ q <> p).
  { destruct q as [a b], p as [c d].
    destruct (Z.eq_dec a c) as [->|]; [|right; congruence].
    destruct (Z.eq_dec b d) as [->|]; [now left|right; congruence]. }
  destruct Hdec as [->|Hne].
  - apply Hp. now apply HI.
  - apply Hq; [apply in_or_app; right; now left|assumption|now apply HI|].
    apply IH; [| |assumption].
    + intros out' q' Hq' Hne'. apply Hq; [apply in_or_app; now left|assumption].
    + apply in_app_or in Hin as [Hin|[Hin|[]]]; [assumption|congruence].
Qed.


Lemma bytes_checked (data : buffer) :
  forallb (fun v => (0 <=? v) && (v <=? 255)) data = true -> bytes data.
Proof.
  intros H. unfold bytes. apply Forall_forall. intros v Hv.
  rewrite forallb_forall in H. specialize (H v Hv).
  apply andb_true_iff in H as [H1 H2].
  apply Z.leb_le in H1, H2. lia.
Qed.

(** *** Images too small for a filter *)

(** X1.  An image less than three pixels wide or high has no interior
    pixel: the erosion, the dilation, the opening, the sharpening and
    the whole enhancement return a buffer of zeros, of the length of
    the input. *)
Theorem narrow_image_is_erased (data : buffer) (w h : Z) :
  w <= 2 \/ h <= 2 ->
  applyErosion data w h = newArray (length data)
  /\ applyDilation data w h = newArray (length data)
  /\ applyMorphologicalCleaning data w h = newArray (length data)
  /\ applyDocumentSharpening data w h = newArray (length data)
  /\ enhancePixels data w h = newArray (length data).
Proof.
  intros Hsmall.
  assert (Hno : interior w h = []) by (apply grid_empty; lia).
  assert (He : applyErosion data w h = newArray (length data))
    by (rewrite applyErosion_pass, Hno; reflexivity).
  assert (Hd : forall d, applyDilation d w h = newArray (length d))
    by (intros d; rewrite applyDilation_pass, Hno; reflexivity).
  assert (Hs : forall d, applyDocumentSharpening d w h = newArray (length d))
    by (intros d; rewrite applyDocumentSharpening_pass, Hno; reflexivity).
  repeat split; auto.
  - unfold applyMorphologicalCleaning, copyOf. cbv zeta.
    now rewrite Hd, length_applyErosion.
  - unfold enhancePixels. cbv zeta.
    now rewrite Hs, length_applyMorphologicalCleaning,
      length_applyAdaptiveThreshold.
Qed.

Lemma narrow_image_is_erased_witness :
  enhancePixels (uniform 2 3 200 200 200 255) 2 3 = newArray 24.
Proof.
  apply (narrow_image_is_erased (uniform 2 3 200 200 200 255) 2 3). lia.
Defined.

(** X2.  An image less than fifteen pixels wide or high has no pixel
    with a whole window around it: the thresholding returns the
    grayscale image, nothing is binarized. *)
Theorem small_image_is_not_thresholded (data : buffer) (w h : Z) :
  w <= 14 \/ h <= 14 ->
  applyAdaptiveThreshold data w h = grayscale data.
Proof.
  intros Hsmall. unfold applyAdaptiveThreshold. cbv zeta.
  rewrite (loops_as_fold (fun x y out => thresholdPixel w x y out)).
  rewrite grid_empty; [reflexivity|]. rewrite halfWindow_is_7. lia.
Qed.

Lemma small_image_is_not_thresholded_witness :
  applyAdaptiveThreshold (uniform 14 20 10 20 30 255) 14 20
  = grayscale (uniform 14 20 10 20 30 255).
Proof.
  apply (small_image_is_not_thresholded (uniform 14 20 10 20 30 255) 14 20).
  lia.
Defined.

(** *** The border *)

(** X3.  Whatever the input image holds, every border pixel of the
    output of the erosion, of the dilation, of the opening, of the
    sharpening and of the whole enhancement is 0 in its four channels
    (black and transparent). *)
Theorem filters_clear_the_border (data : buffer) (w h x y c : Z) :
  length data = Z.to_nat (w * h * 4) ->
  onBorder w h x y -> 0 <= c < 4 ->
  channel (applyErosion data w h) w x y c = Some 0
  /\ channel (applyDilation data w h) w x y c = Some 0
  /\ channel (applyMorphologicalCleaning data w h) w x y c = Some 0
  /\ channel (applyDocumentSharpening data w h) w x y c = Some 0
  /\ channel (enhancePixels data w h) w x y c = Some 0.
Proof.
  intros Hlen Hb Hc. repeat split.
  - now apply eroded_border.
  - now apply dilated_border.
  - unfold applyMorphologicalCleaning, copyOf. cbv zeta.
    apply dilated_border; [now rewrite length_applyErosion|assumption..].
  - now apply sharpened_border.
  - unfold enhancePixels. cbv zeta. apply sharpened_border; try assumption.
    now rewrite length_applyMorphologicalCleaning,
      length_applyAdaptiveThreshold.
Qed.

Lemma filters_clear_the_border_witness :
  channel (enhancePixels (uniform 4 4 255 255 255 255) 4 4) 4 3 2 3 = Some 0.
Proof.
  apply (filters_clear_the_border (uniform 4 4 255 255 255 255) 4 4 3 2 3).
  - reflexivity.
  - unfold onBorder. lia.
  - lia.
Defined.


(** *** Erosion, dilation and opening *)

(** A minimum of several values is at most each of them. *)
Ltac chain_le :=
  first [ apply Z.le_min_r
        | eapply Z.le_trans; [apply Z.le_min_l|]; chain_le ].

(** The erosion of a pixel is at most the value of each pixel of its
    neighbourhood. *)
Lemma eroded_near (data : buffer) (w h qx qy dx dy v : Z) :
  length data = Z.to_nat (w * h * 4) ->
  0 <= qx < w -> 0 <= qy < h ->
  -1 <= dx <= 1 -> -1 <= dy <= 1 ->
  channel data w (qx + dx) (qy + dy) 0 = Some v ->
  exists e, channel (applyErosion data w h) w qx qy 0 = Some e
            /\ 0 <= e <= Z.max 0 v.
Proof.
  intros Hlen Hx Hy Hdx Hdy Hv.
  assert (Hcase : (1 <= qx < w - 1 /\ 1 <= qy < h - 1) \/ onBorder w h qx qy)
    by (unfold onBorder; lia).
  destruct Hcase as [[Hix Hiy]|Hb].
  - destruct (eroded_inside data w h qx qy Hlen Hix Hiy) as (-> & _).
    rewrite neighbourhood_channels. cbv beta zeta.
    assert (Ex : dx = -1 \/ dx = 0 \/ dx = 1) by lia.
    assert (Ey : dy = -1 \/ dy = 0 \/ dy = 1) by lia.
    destruct Ex as [-> | [-> | ->]]; destruct Ey as [-> | [-> | ->]];
      rewrite Hv; reads data w h; cbn [Math_min toUint8Clamp];
      (eexists; split; [reflexivity|]);
      (split; [apply Z.le_max_l|]);
      apply Z.max_le_compat_l;
      (eapply Z.le_trans; [apply Z.le_min_r|]); chain_le.
  - rewrite eroded_border by (assumption || lia).
    exists 0. split; [reflexivity|lia].
Qed.

(** X4.  At an interior pixel of an image the erosion stores, in the
    three colour channels, a byte that is at most the red value of the
    pixel, and the dilation one that is at least that value. *)
Theorem erosion_lowers_dilation_raises (data : buffer) (w h x y v : Z) :
  imageData data w h ->
  1 <= x < w - 1 -> 1 <= y < h - 1 ->
  channel data w x y 0 = Some v ->
  exists e d,
    (forall c, 0 <= c < 3 ->
               channel (applyErosion data w h) w x y c = Some e
               /\ channel (applyDilation data w h) w x y c = Some d)
    /\ 0 <= e <= v /\ v <= d <= 255.
Proof.
  intros [Hlen Hbytes] Hx Hy Hv.
  pose proof (bytes_channel data w x y 0 v Hbytes Hv) as Hbv.
  destruct (eroded_inside data w h x y Hlen Hx Hy) as (E0 & E1 & E2).
  destruct (dilated_inside data w h x y Hlen Hx Hy) as (D0 & D1 & D2).
  cbv zeta in E0, E1, E2, D0, D1, D2.
  exists (toUint8Clamp (neighbourhood Math_min (Some 255) data w x y)),
         (toUint8Clamp (neighbourhood Math_max (Some 0) data w x y)).
  split; [|split].
  - intros c Hc. assert (c = 0 \/ c = 1 \/ c = 2) as [-> | [-> | ->]] by lia;
      auto.
  - rewrite neighbourhood_channels. cbv beta zeta.
    rewrite !Z.add_0_r, Hv. reads data w h. cbn [Math_min toUint8Clamp]. lia.
  - rewrite neighbourhood_channels. cbv beta zeta.
    rewrite !Z.add_0_r, Hv. reads data w h. cbn [Math_max toUint8Clamp]. lia.
Qed.

Lemma erosion_lowers_dilation_raises_witness :
  exists e d,
    (forall c, 0 <= c < 3 ->
               channel (applyErosion speck 5 5) 5 2 2 c = Some e
               /\ channel (applyDilation speck 5 5) 5 2 2 c = Some d)
    /\ 0 <= e <= 255 /\ 255 <= d <= 255.
Proof.
  apply (erosion_lowers_dilation_raises speck 5 5 2 2 255).
  - split; [reflexivity|]. apply bytes_checked. reflexivity.
  - lia.
  - lia.
  - reflexivity.
Defined.

(** X5.  The opening never brightens: at every pixel of an image, the
    red channel after [applyMorphologicalCleaning] is a byte at most
    the red value before. *)
Theorem opening_never_brightens (data : buffer) (w h x y v : Z) :
  imageData data w h ->
  0 <= x < w -> 0 <= y < h ->
  channel data w x y 0 = Some v ->
  exists o, channel (applyMorphologicalCleaning data w h) w x y 0 = Some o
            /\ 0 <= o <= v.
Proof.
  intros [Hlen Hbytes] Hx Hy Hv.
  pose proof (bytes_channel data w x y 0 v Hbytes Hv) as Hbv.
  unfold applyMorphologicalCleaning, copyOf. cbv zeta.
  assert (Hlen' : length (applyErosion data w h) = Z.to_nat (w * h * 4))
    by now rewrite length_applyErosion.
  assert (Hcase : (1 <= x < w - 1 /\ 1 <= y < h - 1) \/ onBorder w h x y)
    by (unfold onBorder; lia).
  destruct Hcase as [[Hix Hiy]|Hb].
  - destruct (dilated_inside (applyErosion data w h) w h x y Hlen' Hix Hiy)
      as (-> & _).
    rewrite neighbourhood_channels. cbv beta zeta.
    assert (Hnear : forall dx dy,
               -1 <= dx <= 1 -> -1 <= dy <= 1 ->
               exists e, channel (applyErosion data w h) w (x + dx) (y + dy) 0
                         = Some e /\ 0 <= e <= v).
    { intros dx dy Hdx Hdy.
      destruct (eroded_near data w h (x + dx) (y + dy) (- dx) (- dy) v)
        as (e & E & He); [assumption|lia|lia|lia|lia| |].
      - replace (x + dx + - dx) with x by lia.
        replace (y + dy + - dy) with y by lia. exact Hv.
      - exists e. split; [exact E|lia]. }
    destruct (Hnear (-1) (-1)) as (e1 & -> & ?); [lia|lia|].
    destruct (Hnear 0 (-1)) as (e2 & -> & ?); [lia|lia|].
    destruct (Hnear 1 (-1)) as (e3 & -> & ?); [lia|lia|].
    destruct (Hnear (-1) 0) as (e4 & -> & ?); [lia|lia|].
    destruct (Hnear 0 0) as (e5 & -> & ?); [lia|lia|].
    destruct (Hnear 1 0) as (e6 & -> & ?); [lia|lia|].
    destruct (Hnear (-1) 1) as (e7 & -> & ?); [lia|lia|].
    destruct (Hnear 0 1) as (e8 & -> & ?); [lia|lia|].
    destruct (Hnear 1 1) as (e9 & -> & ?); [lia|lia|].
    cbn [Math_max toUint8Clamp]. eexists. split; [reflexivity|lia].
  - rewrite dilated_border by (assumption || lia).
    exists 0. split; [reflexivity|lia].
Qed.

Lemma opening_never_brightens_witness :
  exists o, channel (applyMorphologicalCleaning speck 5 5) 5 2 2 0 = Some o
            /\ 0 <= o <= 255.
Proof.
  apply (opening_never_brightens speck 5 5 2 2 255).
  - split; [reflexivity|]. apply bytes_checked. reflexivity.
  - lia.
  - lia.
  - reflexivity.
Defined.

(** *** Sharpening *)

(** The nine products of a convolution, in the order of the loops. *)
Lemma convolve_channels (data : buffer) (w x y c : Z) :
  convolve data w x y c =
  let at_ dx dy := channel data w (x + dx) (y + dy) c in
  add (add (add (add (add (add (add (add (add (Some 0)
    (mul (at_ (-1) (-1)) (Some (-1)))) (mul (at_ 0 (-1)) (Some (-1))))
    (mul (at_ 1 (-1)) (Some (-1)))) (mul (at_ (-1) 0) (Some (-1))))
    (mul (at_ 0 0) (Some 9))) (mul (at_ 1 0) (Some (-1))))
    (mul (at_ (-1) 1) (Some (-1)))) (mul (at_ 0 1) (Some (-1))))
    (mul (at_ 1 1) (Some (-1))).
Proof. reflexivity. Qed.

Lemma sharpened_inside (data : buffer) (w h x y : Z) :
  length data = Z.to_nat (w * h * 4) ->
  1 <= x < w - 1 -> 1 <= y < h - 1 ->
  forall c, 0 <= c < 3 ->
    channel (applyDocumentSharpening data w h) w x y c
    = Some (toUint8Clamp
              (Math_max (Some 0) (Math_min (Some 255) (convolve data w x y c)))).
Proof.
  intros Hlen Hx Hy c Hc. rewrite applyDocumentSharpening_pass.
  pose proof (get_pass_interior (sharpenedColour data w) w h x y
                                (newArray (length data))) as H.
  unfold sharpenedColour in H at 1.
  destruct H as (H0 & H1 & H2 & _); try assumption.
  { unfold newArray. now rewrite repeat_length. }
  assert (c = 0 \/ c = 1 \/ c = 2) as [-> | [-> | ->]] by lia; assumption.
Qed.

(** X6.  The weights of the sharpening kernel add up to 1: an interior
    pixel whose 3x3 neighbourhood holds one value in a colour channel
    keeps that value in that channel. *)
Theorem sharpening_keeps_flat_regions (data : buffer) (w h x y c v : Z) :
  length data = Z.to_nat (w * h * 4) ->
  1 <= x < w - 1 -> 1 <= y < h - 1 ->
  0 <= c < 3 -> 0 <= v <= 255 ->
  (forall dx dy, -1 <= dx <= 1 -> -1 <= dy <= 1 ->
                 channel data w (x + dx) (y + dy) c = Some v) ->
  channel (applyDocumentSharpening data w h) w x y c = Some v.
Proof.
  intros Hlen Hx Hy Hc Hv Hflat.
  rewrite (sharpened_inside data w h x y Hlen Hx Hy c Hc).
  rewrite convolve_channels. cbv beta zeta.
  rewrite (Hflat (-1) (-1)), (Hflat 0 (-1)), (Hflat 1 (-1)), (Hflat (-1) 0),
    (Hflat 0 0), (Hflat 1 0), (Hflat (-1) 1), (Hflat 0 1), (Hflat 1 1) by lia.
  cbn [add mul Math_max Math_min toUint8Clamp]. f_equal. lia.
Qed.

Lemma sharpening_keeps_flat_regions_witness :
  channel (applyDocumentSharpening (uniform 3 3 90 120 7 255) 3 3) 3 1 1 1
  = Some 120.
Proof.
  apply (sharpening_keeps_flat_regions (uniform 3 3 90 120 7 255) 3 3 1 1 1 120).
  - reflexivity.
  - lia.
  - lia.
  - lia.
  - lia.
  - intros dx dy Hdx Hdy.
    assert (Ex : dx = -1 \/ dx = 0 \/ dx = 1) by lia.
    assert (Ey : dy = -1 \/ dy = 0 \/ dy = 1) by lia.
    destruct Ex as [-> | [-> | ->]]; destruct Ey as [-> | [-> | ->]];
      reflexivity.
Defined.


(** *** Thresholding *)

(** The step of a pixel stores one binary value into its three colour
    cells. *)
Lemma thresholdPixel_own (w x y : Z) (out : buffer) :
  0 <= (y * w + x) * 4 -> (y * w + x) * 4 + 2 < Z.of_nat (length out) ->
  exists b, binary b
            /\ get (thresholdPixel w x y out) ((y * w + x) * 4) = Some b
            /\ get (thresholdPixel w x y out) ((y * w + x) * 4 + 1) = Some b
            /\ get (thresholdPixel w x y out) ((y * w + x) * 4 + 2) = Some b.
Proof.
  intros H0 H2. unfold thresholdPixel.
  destruct (localWindow out w x y) as [localSum count]. cbv zeta.
  match goal with
  | |- context [if ?c then Some 255 else Some 0] => destruct c
  end.
  - exists 255. split; [now right|].
    rewrite !get_set_other by lia.
    rewrite get_set_other with (j := (y * w + x) * 4 + 1) by lia.
    rewrite !get_set_same by (rewrite ?length_set; lia).
    repeat split; reflexivity.
  - exists 0. split; [now left|].
    rewrite !get_set_other by lia.
    rewrite get_set_other with (j := (y * w + x) * 4 + 1) by lia.
    rewrite !get_set_same by (rewrite ?length_set; lia).
    repeat split; reflexivity.
Qed.

(** X7.  After the thresholding every pixel that has a whole 15x15
    window around it is binary: its three colour channels hold the same
    value, 0 or 255. *)
Theorem threshold_is_binary_inside (data : buffer) (w h x y : Z) :
  length data = Z.to_nat (w * h * 4) ->
  7 <= x < w - 7 -> 7 <= y < h - 7 ->
  exists b, binary b /\
    forall c, 0 <= c < 3 ->
              channel (applyAdaptiveThreshold data w h) w x y c = Some b.
Proof.
  intros Hlen Hx Hy.
  assert (Hx0 : 0 <= x < w) by lia. assert (Hy0 : 0 <= y < h) by lia.
  destruct (addr_bounds w h x y Hx0 Hy0) as [H0 H3].
  unfold addr in H0, H3. cbn [fst snd] in H0, H3.
  set (P := fun out : buffer =>
              exists b, binary b
                        /\ get out ((y * w + x) * 4) = Some b
                        /\ get out ((y * w + x) * 4 + 1) = Some b
                        /\ get out ((y * w + x) * 4 + 2) = Some b).
  assert (HP : P (applyAdaptiveThreshold data w h)).
  { unfold applyAdaptiveThreshold. cbv zeta.
    rewrite (loops_as_fold (fun x y out => thresholdPixel w x y out)).
    rewrite halfWindow_is_7.
    apply (fold_establish
             (fun out p => thresholdPixel w (fst p) (snd p) out)
             (fun out => length out = length data) P (x, y)).
    - intros out q Ho. now rewrite length_thresholdPixel.
    - intros out Ho. cbn [fst snd]. apply thresholdPixel_own; lia.
    - intros out [x' y'] Hq Hne Ho (b & Hb & G0 & G1 & G2).
      apply In_grid in Hq. cbn [fst snd].
      destruct (addr_apart w x y x' y') as [Hap|Hap]; [lia|lia|assumption| |];
        unfold addr in Hap; cbn [fst snd] in Hap;
        exists b; (split; [assumption|]);
        rewrite !get_thresholdPixel_other by lia; auto.
    - apply In_grid. lia.
    - apply length_grayscale. }
  destruct HP as (b & Hb & G0 & G1 & G2).
  exists b. split; [assumption|]. intros c Hc. unfold channel.
  assert (c = 0 \/ c = 1 \/ c = 2) as [-> | [-> | ->]] by lia;
    rewrite ?Z.add_0_r; assumption.
Qed.

Lemma threshold_is_binary_inside_witness :
  exists b, binary b /\
    forall c, 0 <= c < 3 ->
      channel (applyAdaptiveThreshold (uniform 15 15 40 50 60 255) 15 15)
              15 7 7 c = Some b.
Proof.
  apply (threshold_is_binary_inside (uniform 15 15 40 50 60 255) 15 15 7 7).
  - reflexivity.
  - lia.
  - lia.
Defined.

(** X8.  A pixel less than 7 away from an edge is not thresholded: it
    holds its luma in the three colour channels. *)
Theorem threshold_keeps_luma_on_margin (data : buffer) (w h x y : Z) :
  length data = Z.to_nat (w * h * 4) ->
  0 <= x < w -> 0 <= y < h ->
  x < 7 \/ w - 7 <= x \/ y < 7 \/ h - 7 <= y ->
  forall c, 0 <= c < 3 ->
    channel (applyAdaptiveThreshold data w h) w x y c
    = Some (grayOf (channel data w x y 0) (channel data w x y 1)
                   (channel data w x y 2)).
Proof.
  intros Hlen Hx Hy Hm c Hc.
  destruct (threshold_border data w h x y Hlen Hx Hy Hm) as (G0 & G1 & G2 & _).
  assert (c = 0 \/ c = 1 \/ c = 2) as [-> | [-> | ->]] by lia; assumption.
Qed.

Lemma threshold_keeps_luma_on_margin_witness :
  channel (applyAdaptiveThreshold (uniform 16 16 255 0 0 255) 16 16) 16 3 8 1
  = Some (grayOf (Some 255) (Some 0) (Some 0)).
Proof.
  apply (threshold_keeps_luma_on_margin (uniform 16 16 255 0 0 255) 16 16 3 8);
    [reflexivity|lia|lia|lia|lia].
Defined.

(** *** Alpha *)

Lemma threshold_alpha (data : buffer) (w h x y : Z) :
  length data = Z.to_nat (w * h * 4) ->
  0 <= x < w -> 0 <= y < h ->
  channel (applyAdaptiveThreshold data w h) w x y 3
  = Some (toUint8Clamp (channel data w x y 3)).
Proof.
  intros Hlen Hx Hy. unfold channel.
  destruct (addr_bounds w h x y Hx Hy) as [H0 H3].
  unfold addr in H0, H3. cbn [fst snd] in H0, H3.
  rewrite get_threshold_frame by (intros x' y' _ _; lia).
  destruct (get_grayscale data (y * w + x)) as (_ & _ & _ & G3); [lia|lia|].
  replace (4 * (y * w + x)) with ((y * w + x) * 4) in G3 by lia.
  exact G3.
Qed.

Lemma eroded_alpha (data : buffer) (w h x y : Z) :
  length data = Z.to_nat (w * h * 4) ->
  1 <= x < w - 1 -> 1 <= y < h - 1 ->
  channel (applyErosion data w h) w x y 3
  = Some (toUint8Clamp (channel data w x y 3)).
Proof.
  intros Hlen Hx Hy. rewrite applyErosion_pass.
  pose proof (get_pass_interior (erodedColour data w) w h x y
                                (newArray (length data))) as H.
  unfold erodedColour in H at 1. cbv zeta in H.
  destruct H as (_ & _ & _ & H3); try assumption.
  unfold newArray. now rewrite repeat_length.
Qed.

Lemma dilated_alpha (data : buffer) (w h x y : Z) :
  length data = Z.to_nat (w * h * 4) ->
  1 <= x < w - 1 -> 1 <= y < h - 1 ->
  channel (applyDilation data w h) w x y 3
  = Some (toUint8Clamp (channel data w x y 3)).
Proof.
  intros Hlen Hx Hy. rewrite applyDilation_pass.
  pose proof (get_pass_interior (dilatedColour data w) w h x y
                                (newArray (length data))) as H.
  unfold dilatedColour in H at 1. cbv zeta in H.
  destruct H as (_ & _ & _ & H3); try assumption.
  unfold newArray. now rewrite repeat_length.
Qed.

Lemma sharpened_alpha (data : buffer) (w h x y : Z) :
  length data = Z.to_nat (w * h * 4) ->
  1 <= x < w - 1 -> 1 <= y < h - 1 ->
  channel (applyDocumentSharpening data w h) w x y 3
  = Some (toUint8Clamp (channel data w x y 3)).
Proof.
  intros Hlen Hx Hy. rewrite applyDocumentSharpening_pass.
  pose proof (get_pass_interior (sharpenedColour data w) w h x y
                                (newArray (length data))) as H.
  unfold sharpenedColour in H at 1.
  destruct H as (_ & _ & _ & H3); try assumption.
  unfold newArray. now rewrite repeat_length.
Qed.

(** X9.  The enhancement changes no alpha value inside the image: an
    interior pixel leaves the three steps with the alpha it had, while
    (by the clearing of the border) a border pixel leaves with alpha 0.
    The output has the length of the input. *)
Theorem enhancement_keeps_alpha_inside (data : buffer) (w h x y a : Z) :
  imageData data w h ->
  1 <= x < w - 1 -> 1 <= y < h - 1 ->
  channel data w x y 3 = Some a ->
  channel (enhancePixels data w h) w x y 3 = Some a
  /\ length (enhancePixels data w h) = length data.
Proof.
  intros [Hlen Hbytes] Hx Hy Ha.
  pose proof (bytes_channel data w x y 3 a Hbytes Ha) as Hba.
  unfold enhancePixels, applyMorphologicalCleaning, copyOf. cbv zeta.
  set (t := applyAdaptiveThreshold data w h).
  assert (Lt : length t = Z.to_nat (w * h * 4))
    by (unfold t; now rewrite length_applyAdaptiveThreshold).
  assert (Le : length (applyErosion t w h) = Z.to_nat (w * h * 4))
    by now rewrite length_applyErosion.
  assert (Ld : length (applyDilation (applyErosion t w h) w h)
               = Z.to_nat (w * h * 4))
    by now rewrite length_applyDilation.
  split.
  - rewrite sharpened_alpha, dilated_alpha, eroded_alpha by assumption.
    unfold t. rewrite threshold_alpha by (assumption || lia).
    rewrite Ha. cbn [toUint8Clamp]. f_equal. lia.
  - rewrite length_applyDocumentSharpening. congruence.
Qed.

Lemma enhancement_keeps_alpha_inside_witness :
  channel (enhancePixels (uniform 3 3 10 20 30 77) 3 3) 3 1 1 3 = Some 77.
Proof.
  apply (enhancement_keeps_alpha_inside (uniform 3 3 10 20 30 77) 3 3 1 1 77).
  - split; [reflexivity|]. apply bytes_checked. reflexivity.
  - lia.
  - lia.
  - reflexivity.
Defined.

End RasterProperties.
(* ================================================================== *)
(** ** Further properties of the field extraction *)
(* ================================================================== *)

Module FieldsProperties.

Import Fields JSFacts RegexFacts FieldsFacts Catalogue.

(** *** The final validation *)

Ltac other_label :=
  let E := fresh "E" in
  intros E;
  match goal with
  | H : str_eqb _ _ = true |- _ =>
      apply str_eqb_eq in H; rewrite H in E; vm_compute in E; discriminate
  | H : str_eqb ?l ?x = false |- _ =>
      apply str_eqb_neq in H; contradiction
  end.

(** X10.  The final validation of the licence path keeps a field
    exactly when its confidence is at least 75, its value is a valid
    card number if it is a card number, and, if it is a fee below
    confidence 80, its amount is valid.  The validators of the name,
    the address, the class and the dates reject nothing: each of them
    is overridden from a confidence that the threshold already
    demands. *)
Theorem validation_is_by_confidence (f : field) :
  keepField f = true <->
  (75 <= confidence f)%Z
  /\ (label f = lit "Card Number" -> isValidCardNumber (value f) = true)
  /\ (label f = lit "License Fee" ->
      isValidAmount (replaceFirst "$" "" (value f)) = true
      \/ (80 <= confidence f)%Z).
Proof.
  unfold keepField, minConfidence.
  destruct (confidence f <? 75)%Z eqn:Ec.
  { apply Z.ltb_lt in Ec. split; [discriminate|]. intros (H & _). lia. }
  apply Z.ltb_ge in Ec.
  assert (H75 : (75 <=? confidence f)%Z = true) by (apply Z.leb_le; lia).
  assert (H70 : (70 <=? confidence f)%Z = true) by (apply Z.leb_le; lia).
  destruct (str_eqb (label f) "Card Number") eqn:E1.
  { split.
    - intros H. repeat split; [assumption|auto|other_label].
    - intros (_ & H & _). apply H. now apply str_eqb_eq. }
  destruct (str_eqb (label f) "Name") eqn:E2.
  { rewrite H75, orb_true_r.
    split; [intros _|reflexivity]. repeat split; [assumption| |];
      other_label. }
  destruct (str_eqb (label f) "Address") eqn:E3.
  { rewrite H75, orb_true_r.
    split; [intros _|reflexivity]. repeat split; [assumption| |];
      other_label. }
  destruct (str_eqb (label f) "License Class") eqn:E4.
  { rewrite H70, orb_true_r.
    split; [intros _|reflexivity]. repeat split; [assumption| |];
      other_label. }
  destruct (str_eqb (label f) "Date of Birth" || str_eqb (label f) "Expiry Date")
    eqn:E5.
  { rewrite H70, orb_true_r.
    split; [intros _|reflexivity]. repeat split; [assumption|other_label|].
    apply orb_true_iff in E5 as [E5|E5]; other_label. }
  destruct (str_eqb (label f) "License Fee") eqn:E6.
  { split.
    - intros H. repeat split; [assumption|other_label|].
      intros _. apply orb_true_iff in H as [H|H]; [now left|right].
      now apply Z.leb_le.
    - intros (_ & _ & H). apply orb_true_iff.
      destruct H as [H|H]; [now apply str_eqb_eq|now left|right].
      now apply Z.leb_le. }
  split; [intros _|reflexivity].
  repeat split; [assumption| |]; other_label.
Qed.

Lemma validation_is_by_confidence_witness :
  keepField (Field "Name" "x" 75) = true.
Proof.
  apply (proj2 (validation_is_by_confidence (Field "Name" "x" 75))).
  split; [cbn; lia|]. split; intros E; vm_compute in E; discriminate.
Defined.


(** *** What the licence path produces *)

Lemma firstSome_Some {A B} (f : A -> option B) (l : list A) (y : B) :
  firstSome f l = Some y -> exists x, In x l /\ f x = Some y.
Proof.
  induction l as [|x l IH]; simpl; [discriminate|].
  destruct (f x) as [z|] eqn:E.
  - intros [= <-]. exists x. auto.
  - intros H. destruct (IH H) as (x' & Hin & Hx). exists x'. auto.
Qed.

Lemma sound_push (fields : list field) (f : field) :
  Forall sound fields -> sound f -> Forall sound (push fields f).
Proof.
  intros H Hf. unfold push. apply Forall_app. split; [assumption|].
  constructor; [assumption|constructor].
Qed.

Ltac row := unfold listed, licenceRows; cbn [label confidence In];
            repeat first [left; reflexivity | right].

Ltac wrong_label :=
  let E := fresh "E" in
  intros E; cbn [label] in E; vm_compute in E; discriminate.

Lemma sound_extractCardNumber fields structure :
  Forall sound fields -> Forall sound (extractCardNumber fields structure).
Proof.
  intros H. unfold extractCardNumber.
  destruct (hasLabel _ fields); [assumption|].
  destruct (firstSome _ cardPatterns) as [raw|] eqn:E; [|assumption].
  apply firstSome_Some in E as (pattern & _ & E).
  apply firstSome_Some in E as (line & _ & E).
  destruct (exec pattern line) as [h|]; [|discriminate]. cbv zeta in E.
  destruct (isValidCardNumber _) eqn:V; [|discriminate].
  injection E as <-.
  apply sound_push; [assumption|]. split; [row|].
  repeat split; try wrong_label. intros _. exact V.
Qed.

Lemma sound_extractName fields structure :
  Forall sound fields -> Forall sound (extractName fields structure).
Proof.
  intros H. unfold extractName. cbv zeta.
  destruct (hasLabel _ fields); [assumption|].
  destruct (firstSome _ _) as [name|] eqn:E; [|assumption].
  apply firstSome_Some in E as (line & _ & E).
  destruct (exec re_name line) as [h|]; [|discriminate].
  destruct (_ && _) eqn:V; [|discriminate].
  injection E as <-. apply andb_true_iff in V as [_ V].
  apply sound_push; [assumption|]. split; [row|].
  repeat split; try wrong_label. intros _. exact V.
Qed.

Lemma sound_extractAddress fields structure :
  Forall sound fields -> Forall sound (extractAddress fields structure).
Proof.
  intros H. unfold extractAddress. cbv zeta.
  destruct (hasLabel _ fields); [assumption|].
  destruct (0 <? _); [|assumption].
  destruct (isValidAddress _) eqn:V; [|assumption].
  apply sound_push; [assumption|]. split; [row|].
  repeat split; try wrong_label. intros _. exact V.
Qed.

(** The document text of the structure is the lower-cased text. *)
Lemma allText_fold (entries : list (str * nat)) (structure : DocumentStructure) :
  allText (fold_left categorize entries structure) = allText structure.
Proof.
  revert structure. induction entries as [|[line index] entries IH];
    intros structure; simpl; [reflexivity|].
  rewrite IH. reflexivity.
Qed.

Lemma allText_analyze (lines : list str) :
  allText (analyzeDocumentStructure lines) = toLowerCase (join " " lines).
Proof. unfold analyzeDocumentStructure. cbv zeta. apply allText_fold. Qed.

(** The pattern of the bare class token needs a capital letter. *)
Lemma single_class_needs_capital (s : str) :
  Forall (fun c => isUpperAZ c = false) s ->
  forall skipped bef, search re_single_class skipped bef s = None.
Proof.
  assert (Hhere : forall bef aft,
             match aft with
             | c :: _ => isUpperAZ c = false
             | [] => True
             end ->
             matchHere re_single_class bef aft = None).
  { intros bef aft Hc. unfold matchHere, re_single_class, Range.
    cbn [pattern ignoreCase Seqs m].
    destruct (xorb _ _); [|reflexivity].
    cbn [after groups AZ Nat.add]. rewrite rep_S.
    cbn [Nat.eqb]. cbv zeta. unfold AZ. cbn [m].
    unfold one. cbn [after clear_caps].
    destruct aft as [|c rest]; [reflexivity|].
    unfold class_has. cbn [existsb item_has andb orb xorb].
    change (between (code (ch "A")) (code (ch "Z")) c) with (isUpperAZ c).
    now rewrite Hc. }
  induction 1 as [|c s Hc Hs IH]; intros skipped bef; simpl.
  - now rewrite Hhere.
  - rewrite Hhere by exact Hc. apply IH.
Qed.

Lemma no_single_class (lines : list str) :
  exec re_single_class (allText (analyzeDocumentStructure lines)) = None.
Proof.
  rewrite allText_analyze. unfold exec. apply single_class_needs_capital.
  unfold toLowerCase. apply Forall_forall. intros c Hc.
  apply in_map_iff in Hc as (c' & <- & _). apply lowerChar_not_upper.
Qed.

Lemma extractLicenseClass_cases (lines : list str) (fields : list field) :
  extractLicenseClass fields (analyzeDocumentStructure lines) = fields
  \/ exists classValue,
       extractLicenseClass fields (analyzeDocumentStructure lines)
       = push fields (Field "License Class" classValue 96).
Proof.
  unfold extractLicenseClass.
  destruct (hasLabel _ fields); [now left|].
  destruct (firstSome _ _) as [classValue|].
  - right. now exists classValue.
  - rewrite no_single_class. now left.
Qed.

(** X11.  The scan for a bare class token, the fallback of
    [extractLicenseClass], never finds one: it looks for capital
    letters in the document text, which was lower-cased.  So the
    extractor pushes a class with confidence 96 or nothing, and no
    field of confidence 85 is produced. *)
Theorem class_fallback_never_fires (lines : list str) (fields : list field) :
  exec re_single_class (allText (analyzeDocumentStructure lines)) = None
  /\ (extractLicenseClass fields (analyzeDocumentStructure lines) = fields
      \/ exists classValue,
           extractLicenseClass fields (analyzeDocumentStructure lines)
           = push fields (Field "License Class" classValue 96)).
Proof.
  split; [apply no_single_class|apply extractLicenseClass_cases].
Qed.

Lemma sound_extractLicenseClass fields lines :
  Forall sound fields ->
  Forall sound (extractLicenseClass fields (analyzeDocumentStructure lines)).
Proof.
  intros H.
  destruct (extractLicenseClass_cases lines fields)
    as [->|[classValue ->]]; [assumption|].
  apply sound_push; [assumption|]. split; [row|].
  repeat split; wrong_label.
Qed.


Lemma Forall_fold {A} (Q : field -> Prop)
      (step : list field -> A -> list field) (l : list A) :
  (forall fields a, Forall Q fields -> Forall Q (step fields a)) ->
  forall fields, Forall Q fields -> Forall Q (fold_left step l fields).
Proof.
  intros Hstep. induction l as [|a l IH]; simpl; intros fields H;
    [assumption|]. apply IH. now apply Hstep.
Qed.

Lemma Forall_filter (Q : field -> Prop) (keep : field -> bool)
      (fields : list field) :
  Forall Q fields -> Forall Q (filter keep fields).
Proof.
  intros H. apply Forall_forall. intros f Hf.
  apply filter_In in Hf as [Hf _]. rewrite Forall_forall in H. now apply H.
Qed.

(** Follow the branches of an extractor whose pushes carry a label
    without a validator. *)
Ltac sound_branches :=
  repeat first
    [ assumption
    | match goal with
      | |- Forall sound (if ?c then _ else _) => destruct c eqn:?
      | |- Forall sound (match ?o with _ => _ end) => destruct o eqn:?
      | |- Forall sound (push _ (Field _ _ _)) =>
          apply sound_push; [|split; [row|repeat split; wrong_label]]
      end ].

Lemma sound_assignDate fields item :
  Forall sound fields -> Forall sound (assignDate fields item).
Proof.
  intros H. unfold assignDate. destruct item as [date context].
  sound_branches.
Qed.

Lemma sound_extractDates fields structure :
  Forall sound fields -> Forall sound (extractDates fields structure).
Proof.
  intros H. unfold extractDates. cbv zeta.
  match goal with
  | |- context [fold_left assignDate ?l fields] =>
      pose proof (Forall_fold sound assignDate l sound_assignDate fields H)
        as Hfold;
      generalize dependent (fold_left assignDate l fields)
  end.
  intros fields' Hfold. sound_branches.
Qed.

Lemma sound_extractLicenseFee fields structure :
  Forall sound fields -> Forall sound (extractLicenseFee fields structure).
Proof.
  intros H. unfold extractLicenseFee.
  destruct (hasLabel _ fields); [assumption|].
  destruct (firstSome _ _) as [amount|] eqn:E; [|assumption].
  apply firstSome_Some in E as (line & _ & E).
  destruct (exec re_fee line) as [h|]; [|discriminate].
  destruct (isValidAmount _) eqn:V; [|discriminate].
  injection E as <-.
  apply sound_push; [assumption|]. split; [row|].
  repeat split; try wrong_label. intros _.
  exists (group 1 h). split; [reflexivity|exact V].
Qed.

Lemma sound_extractLicenseFields (lines : list str) :
  Forall sound (extractLicenseFields lines).
Proof.
  unfold extractLicenseFields, validateAndFilterFields. cbv zeta.
  apply Forall_filter, sound_extractLicenseFee, sound_extractDates,
    sound_extractLicenseClass, sound_extractAddress, sound_extractName,
    sound_extractCardNumber. constructor.
Qed.

(** Fields with different labels out of [n] labels are at most [n]. *)
Lemma few_labels (labels : list str) (fields : list field) :
  NoDup (map label fields) ->
  Forall (fun f => In (label f) labels) fields ->
  length fields <= length labels.
Proof.
  intros Hu Hin. rewrite <- (length_map label fields).
  apply NoDup_incl_length; [assumption|].
  intros l Hl. apply in_map_iff in Hl as (f & <- & Hf).
  rewrite Forall_forall in Hin. now apply Hin.
Qed.

Lemma listed_label (rows : list (str * Z)) (fields : list field) :
  Forall (listed rows) fields ->
  Forall (fun f => In (label f) (map fst rows)) fields.
Proof.
  apply Forall_impl. intros f Hf. unfold listed in Hf.
  apply in_map_iff. exists (label f, confidence f). auto.
Qed.

Lemma licence_labels (lines : list str) :
  Forall (fun f => In (label f)
                      (map lit ["Card Number"; "Name"; "Address";
                                "License Class"; "Date of Birth";
                                "Expiry Date"; "License Fee"]))
         (extractLicenseFields lines).
Proof.
  eapply Forall_impl; [|exact (sound_extractLicenseFields lines)].
  intros f [Hf _].
  unfold listed, licenceRows in Hf. cbn [In] in Hf. cbn [map In].
  repeat (destruct Hf as [Hf|Hf];
          [injection Hf as <- _; tauto|]).
  destruct Hf.
Qed.

Lemma licence_fields_bound (lines : list str) :
  length (extractLicenseFields lines) <= 7.
Proof.
  destruct (well_extractLicenseFields lines) as [Hu _].
  apply (few_labels (map lit ["Card Number"; "Name"; "Address";
                              "License Class"; "Date of Birth";
                              "Expiry Date"; "License Fee"]));
    [assumption|apply licence_labels].
Qed.

(** X12.  Every field of the licence path carries one of seven labels,
    each at most once, with the confidence of its extractor (95 for the
    card number and the address, 97 for the name and the fee, 96 for
    the class, 98 or 90 for a date); a card number, a name, an address
    and a fee hold a value that their validator accepts.  There are at
    most seven fields. *)
Theorem licence_fields_are_sound (lines : list str) :
  Forall sound (extractLicenseFields lines)
  /\ NoDup (map label (extractLicenseFields lines))
  /\ length (extractLicenseFields lines) <= 7.
Proof.
  pose proof (sound_extractLicenseFields lines) as Hs.
  destruct (well_extractLicenseFields lines) as [Hu _].
  repeat split; [assumption|assumption|apply licence_fields_bound].
Qed.

(** *** What the other paths produce *)

Ltac listed_branches rows :=
  repeat first
    [ assumption
    | match goal with
      | |- Forall _ (if ?c then _ else _) => destruct c eqn:?
      | |- Forall _ (match ?o with _ => _ end) => destruct o eqn:?
      | |- Forall _ (push _ (Field _ _ _)) =>
          apply Forall_app; split; [|constructor; [|constructor]];
          [|unfold listed, rows; cbn [label confidence In];
            repeat first [left; reflexivity | right]]
      end ].

Lemma listed_invoiceLine fields line :
  Forall (listed invoiceRows) fields ->
  Forall (listed invoiceRows) (invoiceLine fields line).
Proof. intros H. unfold invoiceLine. cbv zeta. listed_branches invoiceRows. Qed.

Lemma listed_passportLine fields line :
  Forall (listed passportRows) fields ->
  Forall (listed passportRows) (passportLine fields line).
Proof.
  intros H. unfold passportLine. cbv zeta. listed_branches passportRows.
Qed.

Lemma listed_invoice (lines : list str) :
  Forall (listed invoiceRows) (extractInvoiceFields lines).
Proof. apply Forall_fold; [apply listed_invoiceLine|constructor]. Qed.

Lemma listed_passport (lines : list str) :
  Forall (listed passportRows) (extractPassportFields lines).
Proof. apply Forall_fold; [apply listed_passportLine|constructor]. Qed.

Lemma invoice_passport_bound (lines : list str) :
  length (extractInvoiceFields lines) <= 3
  /\ length (extractPassportFields lines) <= 4.
Proof.
  split.
  - apply (few_labels (map fst invoiceRows)).
    + apply (well_fold invoiceLine lines well_invoiceLine [] well_nil).
    + apply listed_label, listed_invoice.
  - apply (few_labels (map fst passportRows)).
    + apply (well_fold passportLine lines well_passportLine [] well_nil).
    + apply listed_label, listed_passport.
Qed.

(** X13.  Whatever the lines, the invoice path returns at most the
    three fields Invoice Number (90), Total Amount (95) and Date (85),
    and the passport path at most the four fields Passport Number (95),
    Name (90), Issue Date (90) and Expiry Date (90), each label at most
    once. *)
Theorem invoice_and_passport_fields (lines : list str) :
  (Forall (listed invoiceRows) (extractInvoiceFields lines)
   /\ NoDup (map label (extractInvoiceFields lines))
   /\ length (extractInvoiceFields lines) <= 3)
  /\
  (Forall (listed passportRows) (extractPassportFields lines)
   /\ NoDup (map label (extractPassportFields lines))
   /\ length (extractPassportFields lines) <= 4).
Proof.
  destruct (invoice_passport_bound lines) as [Bi Bp].
  repeat split; try assumption.
  - apply listed_invoice.
  - apply (well_fold invoiceLine lines well_invoiceLine [] well_nil).
  - apply listed_passport.
  - apply (well_fold passportLine lines well_passportLine [] well_nil).
Qed.

Lemma length_extractStandaloneFields (line : str) (fields : list field) :
  length (extractStandaloneFields line fields) <= length fields + 3.
Proof.
  unfold extractStandaloneFields, push. cbv zeta.
  repeat match goal with
         | |- context [match ?o with Some _ => _ | None => _ end] =>
             destruct o
         | |- context [if ?c then _ else _] => destruct c
         end;
    rewrite ?length_app; simpl; lia.
Qed.

Lemma extractFields_bound (text_ : str) :
  length (extractFields text_) <= 7.
Proof.
  unfold extractFields. cbv zeta.
  destruct (_ || _); [apply licence_fields_bound|].
  destruct (_ || _).
  { pose proof (invoice_passport_bound (linesOf text_)) as [H _]. lia. }
  destruct (str_eqb _ _).
  { pose proof (invoice_passport_bound (linesOf text_)) as [_ H]. lia. }
  unfold extractGenericFields.
  destruct (linesOf_cases text_) as [->|[line ->]]; simpl; [lia|].
  unfold genericLine. cbv zeta.
  match goal with
  | |- length (extractStandaloneFields _ ?fs) <= _ =>
      pose proof (length_extractStandaloneFields line fs) as H;
      assert (length fs <= 1)
  end.
  { destruct (exec re_label_value line); [|simpl; lia].
    destruct (isMeaningfulField _ _); simpl; lia. }
  lia.
Qed.


(** X14.  [extractFields] returns at most seven fields, whatever the
    text. *)
Theorem extractFields_at_most_seven (text_ : str) :
  length (extractFields text_) <= 7.
Proof. apply extractFields_bound. Qed.

(** *** Earlier lines win *)

Lemma extends_refl (fields : list field) : extends fields fields.
Proof. exists []. now rewrite app_nil_r. Qed.

Lemma extends_push (fields fields' : list field) (f : field) :
  extends fields fields' -> extends fields (push fields' f).
Proof.
  intros [more ->]. exists (more ++ [f]). unfold push. now rewrite app_assoc.
Qed.

Lemma extends_trans (a b c : list field) :
  extends a b -> extends b c -> extends a c.
Proof.
  intros [m1 ->] [m2 ->]. exists (m1 ++ m2). now rewrite app_assoc.
Qed.

Ltac extends_branches :=
  repeat first
    [ apply extends_refl
    | match goal with
      | |- extends _ (if ?c then _ else _) => destruct c
      | |- extends _ (match ?o with _ => _ end) => destruct o
      | |- extends _ (push _ _) => apply extends_push
      end ].

Lemma extends_fold {A} (step : list field -> A -> list field) (l : list A) :
  (forall fields a, extends fields (step fields a)) ->
  forall fields, extends fields (fold_left step l fields).
Proof.
  intros Hstep. induction l as [|a l IH]; simpl; intros fields.
  - apply extends_refl.
  - eapply extends_trans; [apply Hstep|apply IH].
Qed.

Lemma extends_invoiceLine fields line : extends fields (invoiceLine fields line).
Proof. unfold invoiceLine. cbv zeta. extends_branches. Qed.

Lemma extends_passportLine fields line :
  extends fields (passportLine fields line).
Proof. unfold passportLine. cbv zeta. extends_branches. Qed.

Lemma extends_genericLine fields line : extends fields (genericLine fields line).
Proof.
  unfold genericLine, extractStandaloneFields. cbv zeta. extends_branches.
Qed.

(** X15.  The loops over the lines only push: the fields found in the
    first lines of a document are returned unchanged, and first, when
    more lines follow.  So the first line that yields a label decides
    its value. *)
Theorem earlier_lines_win (lines later : list str) :
  extends (extractInvoiceFields lines) (extractInvoiceFields (lines ++ later))
  /\ extends (extractPassportFields lines)
             (extractPassportFields (lines ++ later))
  /\ extends (extractGenericFields lines)
             (extractGenericFields (lines ++ later)).
Proof.
  unfold extractInvoiceFields, extractPassportFields, extractGenericFields.
  rewrite !fold_left_app. repeat split; apply extends_fold.
  - apply extends_invoiceLine.
  - apply extends_passportLine.
  - apply extends_genericLine.
Qed.

(** *** Blank text *)

Lemma trimStart_blank (s : str) :
  Forall (fun c => isSpace c = true) s -> trimStart s = [].
Proof. induction 1 as [|c s Hc Hs IH]; simpl; [reflexivity|now rewrite Hc]. Qed.

Lemma trim_blank (s : str) :
  Forall (fun c => isSpace c = true) s -> trim s = [].
Proof. intros H. unfold trim. now rewrite (trimStart_blank s H). Qed.

(** X16.  A text of white space only (the empty text included) has no
    line: [extractFields] returns no field for it and
    [cleanExtractedText] the empty string. *)
Theorem blank_text_yields_nothing (text_ : str) :
  Forall (fun c => isSpace c = true) text_ ->
  linesOf text_ = []
  /\ extractFields text_ = []
  /\ Recognition.cleanExtractedText text_ = [].
Proof.
  intros Hblank.
  assert (Hws : Forall (fun c => isSpace c = true)
                       (replaceAll re_ws (text " ") text_)).
  { apply replaceAll_text_Forall; [|assumption].
    constructor; [reflexivity|constructor]. }
  assert (Hlines : linesOf text_ = []).
  { unfold linesOf. cbv zeta. now rewrite (trim_blank _ Hws). }
  repeat split.
  - exact Hlines.
  - unfold extractFields. cbv zeta. rewrite Hlines. reflexivity.
  - unfold Recognition.cleanExtractedText, Recognition.cleanedLines.
    cbv zeta.
    rewrite (trim_blank (replaceAll Recognition.re_unprintable (text "")
                                    (replaceAll re_ws (text " ") text_)));
      [reflexivity|].
    apply replaceAll_text_Forall; [constructor|assumption].
Qed.

Lemma blank_text_yields_nothing_witness :
  extractFields (lit "   ") = [].
Proof.
  apply (blank_text_yields_nothing (lit "   ")).
  repeat constructor.
Defined.


(** *** The document structure *)

Lemma sections_fold (l : list str) :
  forall (k : nat) (s : DocumentStructure),
    let r := fold_left categorize (combine l (seq k (length l))) s in
    headerSection r = headerSection s ++ firstn (3 - k) l
    /\ cardSection r = cardSection s ++ filter inCardSection l
    /\ addressSection r = addressSection s ++ filter inAddressSection l
    /\ classSection r = classSection s ++ filter inClassSection l
    /\ dateSection r = dateSection s ++ filter inDateSection l
    /\ feeSection r = feeSection s ++ filter inFeeSection l
    /\ lineContexts r = lineContexts s.
Proof.
  induction l as [|line l IH]; intros k s; cbn [length seq combine fold_left].
  - cbv zeta. rewrite firstn_nil. cbn [filter]. rewrite !app_nil_r. tauto.
  - cbv zeta.
    destruct (IH (S k) (categorize s (line, k)))
      as (H1 & H2 & H3 & H4 & H5 & H6 & H7).
    cbv zeta in H1, H2, H3, H4, H5, H6, H7.
    rewrite H1, H2, H3, H4, H5, H6, H7.
    unfold categorize.
    cbn [headerSection cardSection addressSection classSection dateSection
         feeSection lineContexts].
    cbn [filter].
    unfold inCardSection, inAddressSection, inClassSection, inDateSection,
      inFeeSection. cbv zeta. unfold pushIf.
    repeat split.
    + destruct (k <? 3) eqn:E.
      * apply Nat.ltb_lt in E. replace (3 - k) with (S (3 - S k)) by lia.
        cbn [firstn]. now rewrite <- app_assoc.
      * apply Nat.ltb_ge in E. replace (3 - S k) with 0 by lia.
        replace (3 - k) with 0 by lia. reflexivity.
    + destruct (_ || _); [now rewrite <- app_assoc|reflexivity].
    + destruct (_ || _); [now rewrite <- app_assoc|reflexivity].
    + destruct (_ || _); [now rewrite <- app_assoc|reflexivity].
    + destruct (_ || _); [now rewrite <- app_assoc|reflexivity].
    + destruct (_ || _); [now rewrite <- app_assoc|reflexivity].
Qed.

Lemma map_fst_indexed {A} (l : list A) : map fst (indexed l) = l.
Proof.
  unfold indexed. generalize 0 as k.
  induction l as [|x l IH]; intros k; simpl; [reflexivity|].
  now rewrite IH.
Qed.

(** X17.  The structure of a document: the header section is the first
    three lines (all of them when there are fewer); every other section
    lists, in the order of the document, the lines that pass its test,
    so a line can be in several sections; the text is the lower-cased
    lines joined by spaces; and there is one context entry per line. *)
Theorem sections_are_filters (lines : list str) :
  let structure := analyzeDocumentStructure lines in
  headerSection structure = firstn 3 lines
  /\ cardSection structure = filter inCardSection lines
  /\ addressSection structure = filter inAddressSection lines
  /\ classSection structure = filter inClassSection lines
  /\ dateSection structure = filter inDateSection lines
  /\ feeSection structure = filter inFeeSection lines
  /\ allText structure = toLowerCase (join " " lines)
  /\ map (fun entry => fst (fst entry)) (lineContexts structure) = lines.
Proof.
  cbv zeta. unfold analyzeDocumentStructure. cbv zeta. unfold indexed.
  match goal with
  | |- context [fold_left categorize _ ?s0] =>
      destruct (sections_fold lines 0 s0)
        as (H1 & H2 & H3 & H4 & H5 & H6 & H7)
  end.
  cbv zeta in H1, H2, H3, H4, H5, H6, H7.
  rewrite H1, H2, H3, H4, H5, H6, H7, allText_fold.
  cbn [headerSection cardSection addressSection classSection dateSection
       feeSection lineContexts allText app].
  repeat split.
  rewrite map_map. cbn [fst]. apply (map_fst_indexed lines).
Qed.

(** *** Context windows *)

Lemma skipn_nth {A} (l : list A) :
  forall a, skipn a l = match nth_error l a with
                        | Some x => x :: skipn (S a) l
                        | None => []
                        end.
Proof.
  induction l as [|y l IH]; intros [|a]; try reflexivity.
  cbn [skipn nth_error]. rewrite IH. destruct (nth_error l a); reflexivity.
Qed.

Lemma flat_map_nth {A} (l : list A) (n : nat) :
  forall a,
    flat_map (fun j => match nth_error l j with
                       | Some x => [x]
                       | None => []
                       end) (seq a n)
    = firstn n (skipn a l).
Proof.
  induction n as [|n IH]; intros a; [reflexivity|].
  cbn [seq flat_map]. rewrite IH, (skipn_nth l a).
  destruct (nth_error l a) as [x|] eqn:E; [reflexivity|].
  cbn [app firstn]. 
  rewrite skipn_all2; [now rewrite firstn_nil|].
  apply nth_error_None in E. lia.
Qed.

Lemma flat_map_same {A B} (f g : A -> list B) (l : list A) :
  (forall x, In x l -> f x = g x) -> flat_map f l = flat_map g l.
Proof.
  induction l as [|x l IH]; intros H; simpl; [reflexivity|].
  rewrite (H x) by now left. rewrite IH; [reflexivity|].
  intros y Hy. apply H. now right.
Qed.

Lemma firstn_of_skipn {A} (l : list A) :
  forall n k, firstn k (skipn n l) = skipn n (firstn (n + k) l).
Proof.
  induction l as [|x l IH]; intros [|n] k; cbn [skipn Nat.add];
    rewrite ?firstn_nil; try reflexivity.
  cbn [firstn skipn]. apply IH.
Qed.




(** *** The removal of duplicates *)

Lemma findIndex_found {A} (p : A -> bool) (l : list A) (x : A) :
  In x l -> p x = true ->
  exists i y, findIndex p l = Some i /\ nth_error l i = Some y /\ p y = true.
Proof.
  induction l as [|z l IH]; simpl; intros Hin Hp; [destruct Hin|].
  destruct (p z) eqn:Ez.
  - exists 0, z. auto.
  - destruct Hin as [->|Hin]; [congruence|].
    destruct (IH Hin Hp) as (i & y & -> & Hy & Hpy).
    exists (S i), y. auto.
Qed.

Lemma filteri_from_keeps {A} (p : A -> nat -> bool) (l : list A) (x : A) :
  forall k j,
    nth_error l j = Some x -> p x (k + j) = true ->
    In x (filteri_from k p l).
Proof.
  induction l as [|y l IH]; intros k [|j] Hj Hp; simpl in *; try discriminate.
  - injection Hj as ->. rewrite Nat.add_0_r in Hp. rewrite Hp. now left.
  - rewrite Nat.add_succ_r in Hp.
    destruct (p y k); [right|]; now apply (IH (S k) j).
Qed.

Lemma filteri_from_all {A} (p : A -> nat -> bool) (l : list A) :
  forall k,
    (forall j x, nth_error l j = Some x -> p x (k + j) = true) ->
    filteri_from k p l = l.
Proof.
  induction l as [|y l IH]; intros k H; simpl; [reflexivity|].
  rewrite <- (Nat.add_0_r k) at 1. rewrite (H 0 y eq_refl).
  f_equal. apply IH. intros j x Hj.
  rewrite Nat.add_succ_l, <- Nat.add_succ_r. now apply (H (S j)).
Qed.

(** X19.  The removal of duplicates of [handleFileSelect] drops only
    repeats: what it returns comes from the list; every field of the
    list is still represented by a field with its label and value; and
    a list without two fields of the same label and value is returned
    as it is. *)
Theorem removeDuplicates_drops_only_repeats (allFields : list field) :
  (forall g, In g (removeDuplicates allFields) -> In g allFields)
  /\ (forall f, In f allFields ->
        exists g, In g (removeDuplicates allFields)
                  /\ label g = label f /\ value g = value f)
  /\ (NoDup (map (fun f => (label f, value f)) allFields) ->
      removeDuplicates allFields = allFields).
Proof.
  unfold removeDuplicates, filteri. repeat split.
  - intros g Hg. apply DedupFacts.In_filteri_from in Hg as (j & Hj & _).
    now apply nth_error_In in Hj.
  - intros f Hf.
    destruct (findIndex_found
                (fun g => str_eqb (label g) (label f)
                          && str_eqb (value g) (value f)) allFields f Hf)
      as (i & g & Ei & Hg & Hsame).
    { now rewrite !str_eqb_refl. }
    apply andb_true_iff in Hsame as [El Ev].
    apply str_eqb_eq in El, Ev.
    exists g. repeat split; [|assumption|assumption].
    apply (filteri_from_keeps _ _ _ 0 i Hg).
    rewrite El, Ev, Ei. apply Nat.eqb_refl.
  - intros Hu. apply filteri_from_all. intros j x Hj.
    destruct (findIndex_found
                (fun g => str_eqb (label g) (label x)
                          && str_eqb (value g) (value x)) allFields x)
      as (i & y & Ei & Hy & Hsame).
    { now apply nth_error_In in Hj. }
    { now rewrite !str_eqb_refl. }
    rewrite Ei. apply Nat.eqb_eq. cbn [Nat.add].
    apply andb_true_iff in Hsame as [El Ev].
    apply str_eqb_eq in El, Ev.
    rewrite NoDup_nth_error in Hu. symmetry. apply Hu.
    + rewrite length_map. apply nth_error_Some. congruence.
    + rewrite !nth_error_map, Hj, Hy. cbn [option_map]. congruence.
Qed.

Lemma removeDuplicates_drops_only_repeats_witness :
  removeDuplicates [Field "Name" "Ann Lee" 97; Field "Name" "Bo Chan" 90]
  = [Field "Name" "Ann Lee" 97; Field "Name" "Bo Chan" 90].
Proof.
  apply (proj2 (proj2 (removeDuplicates_drops_only_repeats
                         [Field "Name" "Ann Lee" 97;
                          Field "Name" "Bo Chan" 90]))).
  cbn [map label value].
  constructor; [|constructor; [intros []|constructor]].
  intros [E|[]]. vm_compute in E. discriminate.
Defined.

End FieldsProperties.
(* ================================================================== *)
(** ** Further properties of the text normalisation *)
(* ================================================================== *)

Module TextProperties.

Import Fields JSFacts RegexFacts FieldsFacts Catalogue Recognition.

(** *** Trimming *)

Lemma trimStart_suffix (s : str) : exists pre, s = pre ++ trimStart s.
Proof.
  induction s as [|c s [pre IH]]; simpl.
  - now exists [].
  - destruct (isSpace c); [|now exists []].
    exists (c :: pre). simpl. now rewrite <- IH.
Qed.

Lemma trimStart_head (s : str) (c : ascii) (rest : str) :
  trimStart s = c :: rest -> isSpace c = false.
Proof.
  induction s as [|x s IH]; simpl; [discriminate|].
  destruct (isSpace x) eqn:E; [exact IH|].
  intros [= <- _]. exact E.
Qed.

Lemma trimEnd_prefix (s : str) : exists post, s = trimEnd s ++ post.
Proof.
  unfold trimEnd. destruct (trimStart_suffix (rev s)) as [pre E].
  exists (rev pre). rewrite <- rev_app_distr, <- E. now rewrite rev_involutive.
Qed.

Lemma length_trimStart (s : str) : length (trimStart s) <= length s.
Proof.
  destruct (trimStart_suffix s) as [pre E]. rewrite E at 2.
  rewrite length_app. lia.
Qed.

Lemma skipn_trimStart (s : str) :
  skipn (length s - length (trimStart s)) s = trimStart s.
Proof.
  induction s as [|c s IH]; [reflexivity|].
  cbn [trimStart]. destruct (isSpace c).
  - pose proof (length_trimStart s).
    replace (length (c :: s) - length (trimStart s))
      with (S (length s - length (trimStart s))) by (cbn [length]; lia).
    exact IH.
  - now rewrite Nat.sub_diag.
Qed.

(** A trimmed string has no white space at its ends. *)
Lemma trim_trimmed (s : str) : trimmed (trim s).
Proof.
  unfold trim, trimEnd.
  set (t := trimStart s).
  destruct (trimStart (rev t)) as [|c u] eqn:Eu; [exact I|].
  pose proof (trimStart_head _ _ _ Eu) as Hc.
  destruct (trimStart_suffix (rev t)) as [pre Epre]. rewrite Eu in Epre.
  assert (Et : t = rev u ++ c :: rev pre).
  { rewrite <- (rev_involutive t), Epre, rev_app_distr. cbn [rev].
    now rewrite <- app_assoc. }
  cbn [rev]. unfold trimmed.
  destruct (rev u ++ [c]) as [|x r] eqn:Er.
  { destruct (rev u); discriminate. }
  split.
  - destruct (rev u) as [|y v] eqn:Ev.
    + injection Er as <- _. exact Hc.
    + injection Er as <- _.
      apply (trimStart_head s y (v ++ c :: rev pre)). exact Et.
  - rewrite <- Er. now rewrite last_last.
Qed.

(** *** Single spaces *)

Lemma singleSpaced_app (a b : str) :
  singleSpaced (a ++ b) -> singleSpaced a /\ singleSpaced b.
Proof.
  induction a as [|x a IH]; [simpl; auto|].
  destruct a as [|y a'].
  - cbn [app]. intros H. split; [exact I|].
    destruct b; [exact I|]. exact (proj2 H).
  - intros H. change (singleSpaced (x :: y :: (a' ++ b))) in H.
    destruct H as [Hxy H]. destruct (IH H) as [Ha Hb].
    split; [|exact Hb]. split; assumption.
Qed.

Lemma singleSpaced_trim (s : str) : singleSpaced s -> singleSpaced (trim s).
Proof.
  intros H. unfold trim.
  destruct (trimStart_suffix s) as [pre E]. rewrite E in H.
  apply singleSpaced_app in H as [_ H].
  destruct (trimEnd_prefix (trimStart s)) as [post E']. rewrite E' in H.
  now apply singleSpaced_app in H as [H _].
Qed.

(** *** The run of white space that "\s+" takes *)

Lemma class_has_space (c : ascii) : class_has false [CSpace] c = isSpace c.
Proof. unfold class_has. cbn [existsb item_has andb]. now rewrite !orb_false_r. Qed.

Lemma rep_star_ws :
  forall fuel st,
    length (after st) < fuel ->
    exists st',
      rep (m false s_) [] fuel 0 None st (fun s => Some s) = Some st'
      /\ after st' = trimStart (after st).
Proof.
  set (body := m false s_).
  assert (Hbody : forall s k,
             body s k = one (fun x => xorb false (class_has false [CSpace] x)) s k)
    by reflexivity.
  induction fuel as [|fuel IH]; intros st Hfuel; [lia|].
  rewrite rep_S. cbv zeta. rewrite clear_caps_nil.
  cbn [Nat.eqb andb Nat.pred dec].
  rewrite Hbody. unfold one at 1.
  destruct (after st) as [|c rest] eqn:E.
  - exists st. now rewrite E.
  - rewrite class_has_space. cbn [xorb trimStart].
    destruct (isSpace c).
    + assert (Hadv : after (advance st) = rest)
        by (unfold advance; now rewrite E).
      rewrite Hadv.
      replace (length rest =? length (c :: rest)) with false.
      2:{ symmetry. apply Nat.eqb_neq. simpl. lia. }
      destruct (IH (advance st)) as (st' & -> & Hafter).
      { rewrite Hadv. simpl in Hfuel. lia. }
      exists st'. split; [reflexivity|]. now rewrite Hafter, Hadv.
    + exists st. now rewrite E.
Qed.

Lemma matchHere_ws (bef aft : str) :
  match aft with
  | c :: rest =>
      if isSpace c
      then exists cs,
          matchHere re_ws bef aft
          = Some (S (length rest - length (trimStart rest)), cs)
      else matchHere re_ws bef aft = None
  | [] => matchHere re_ws bef aft = None
  end.
Proof.
  unfold matchHere, re_ws, Plus. cbn [pattern ignoreCase].
  change (m false (Rep s_ 1 None) (MState bef aft []) (fun s => Some s))
    with (rep (m false s_) [] (1 + length aft + 1) 1 None (MState bef aft [])
              (fun s => Some s)).
  replace (1 + length aft + 1) with (S (S (length aft))) by lia.
  set (body := m false s_).
  assert (Hbody : forall s k,
             body s k = one (fun x => xorb false (class_has false [CSpace] x)) s k)
    by reflexivity.
  rewrite rep_S. cbv zeta. rewrite clear_caps_nil.
  cbn [Nat.eqb andb Nat.pred dec].
  rewrite Hbody. unfold one. cbn [after].
  destruct aft as [|c rest]; [reflexivity|].
  rewrite class_has_space. cbn [xorb].
  destruct (isSpace c); [|reflexivity].
  subst body.
  destruct (rep_star_ws (S (length (c :: rest)))
                        (advance (MState bef (c :: rest) [])))
    as (st' & -> & Hafter).
  { simpl. lia. }
  cbn [advance after] in Hafter. exists (caps st'). rewrite Hafter.
  pose proof (length_trimStart rest).
  replace (length (c :: rest) - length (trimStart rest))
    with (S (length rest - length (trimStart rest))) by (cbn [length]; lia).
  reflexivity.
Qed.

(** After ["/\s+/g"] has been replaced by a space no two white-space
    characters are next to each other, and a text that starts with
    another character still starts with it. *)
Lemma scan_ws_single :
  forall fuel bef s,
    length s < fuel ->
    let out := scan re_ws (fun w cs out => text " " w cs ++ out)
                    (fun c out => c :: out) [] fuel bef s in
    singleSpaced out
    /\ match s with
       | c :: _ => isSpace c = false -> exists out', out = c :: out'
       | [] => out = []
       end.
Proof.
  induction fuel as [|fuel IH]; intros bef s Hfuel; [lia|].
  cbv zeta. rewrite scan_unfold.
  pose proof (matchHere_ws bef s) as Hm.
  destruct s as [|c rest].
  - rewrite Hm. split; [exact I|reflexivity].
  - destruct (isSpace c) eqn:Hc.
    + destruct Hm as [cs ->].
      cbn [skipn]. rewrite skipn_trimStart.
      pose proof (length_trimStart rest) as Hle.
      match goal with
      | |- context [scan re_ws ?h ?o [] fuel ?b (trimStart rest)] =>
          destruct (IH b (trimStart rest)) as [Hs Hh];
          [simpl in Hfuel; lia|];
          cbv zeta in Hs, Hh;
          set (r := scan re_ws h o [] fuel b (trimStart rest)) in *
      end.
      split; [|discriminate].
      change (singleSpaced (" "%char :: r)).
      destruct r as [|b r'] eqn:Er; [exact I|].
      split; [|exact Hs]. intros _.
      destruct (trimStart rest) as [|x rest'] eqn:Et; [discriminate|].
      destruct Hh as [out' Eout]; [exact (trimStart_head _ _ _ Et)|].
      injection Eout as -> _. exact (trimStart_head _ _ _ Et).
    + rewrite Hm.
      match goal with
      | |- context [scan re_ws ?h ?o [] fuel ?b rest] =>
          destruct (IH b rest) as [Hs _]; [simpl in Hfuel; lia|];
          cbv zeta in Hs;
          set (r := scan re_ws h o [] fuel b rest) in *
      end.
      split; [|intros _; now exists r].
      destruct r as [|b r']; [exact I|].
      split; [|exact Hs]. intros Habs. congruence.
Qed.

Lemma replaceAll_ws_single (s : str) :
  singleSpaced (replaceAll re_ws (text " ") s).
Proof. unfold replaceAll. apply scan_ws_single. lia. Qed.

(** *** What a one-character pattern removes *)

Lemma matchHere_class (ci neg : bool) (items : list citem) (bef aft : str) :
  matchHere (RegExp (Cls neg items) ci) bef aft
  = match aft with
    | c :: _ => if xorb neg (class_has ci items c) then Some (1, []) else None
    | [] => None
    end.
Proof.
  unfold matchHere. cbn [pattern ignoreCase m]. unfold one. cbn [after].
  destruct aft as [|c rest]; [reflexivity|].
  destruct (xorb neg (class_has ci items c)); [|reflexivity].
  cbn [advance after caps length].
  replace (S (length rest) - length rest) with 1 by lia. reflexivity.
Qed.

Lemma scan_class_removed (ci neg : bool) (items : list citem) :
  forall fuel bef s,
    Forall (fun c => xorb neg (class_has ci items c) = false)
           (scan (RegExp (Cls neg items) ci)
                 (fun w cs out => text "" w cs ++ out)
                 (fun c out => c :: out) [] fuel bef s).
Proof.
  induction fuel as [|fuel IH]; intros bef s; [constructor|].
  rewrite scan_unfold, matchHere_class.
  destruct s as [|c rest]; [constructor|].
  destruct (xorb neg (class_has ci items c)) eqn:E.
  - cbn [text app lit list_ascii_of_string]. apply IH.
  - constructor; [exact E|apply IH].
Qed.

Lemma special_kept (c : ascii) :
  xorb true (class_has false [CWord; CSpace; CChar (ch "."); CChar (ch ",");
                              CChar (ch "-"); CChar (ch "/"); CChar (ch "&");
                              CChar (ch "$")] c) = false ->
  tidy c -> plain c = true.
Proof.
  intros H Ht. apply negb_false_iff in H.
  unfold class_has in H. cbn [existsb item_has andb] in H.
  rewrite !orb_false_r in H. unfold plain. cbn [existsb lit list_ascii_of_string].
  rewrite !orb_false_r.
  destruct (isWordChar c); [reflexivity|]. cbn [orb] in *.
  destruct Ht as [Hs| ->]; [|reflexivity].
  rewrite Hs in H. cbn [orb] in H.
  rewrite !(Ascii.eqb_sym c).
  change (ch ".") with "."%char in H. change (ch ",") with ","%char in H.
  change (ch "-") with "-"%char in H. change (ch "/") with "/"%char in H.
  change (ch "&") with "&"%char in H. change (ch "$") with "$"%char in H.
  rewrite H. apply orb_true_r.
Qed.

Lemma cleanExtractedText_normal (text_ : str) :
  Forall (fun c => plain c = true) (cleanExtractedText text_)
  /\ singleSpaced (cleanExtractedText text_)
  /\ trimmed (cleanExtractedText text_).
Proof.
  unfold cleanExtractedText. cbv zeta.
  set (finalText := join [newline] _).
  split; [|split].
  - apply trim_Forall.
    assert (H : Forall (fun c => xorb true
                          (class_has false
                             [CWord; CSpace; CChar (ch "."); CChar (ch ",");
                              CChar (ch "-"); CChar (ch "/"); CChar (ch "&");
                              CChar (ch "$")] c) = false /\ tidy c)
                       (replaceAll re_ws (text " ")
                                   (replaceAll re_special (text "") finalText))).
    { apply Forall_and.
      - apply replaceAll_text_Forall.
        + constructor; [reflexivity|constructor].
        + apply scan_class_removed.
      - apply replaceAll_ws_tidy. }
    eapply Forall_impl; [|exact H]. intros c [Hk Ht]. now apply special_kept.
  - apply singleSpaced_trim, replaceAll_ws_single.
  - apply trim_trimmed.
Qed.

(** X20.  The text that [cleanExtractedText] returns is normalised,
    whatever it is given: it holds only letters, digits, underscores,
    single spaces and the characters . , - / & $, and has no white
    space at either end. *)
Theorem cleaned_text_is_normalised (text_ : str) :
  Forall (fun c => plain c = true) (cleanExtractedText text_)
  /\ singleSpaced (cleanExtractedText text_)
  /\ trimmed (cleanExtractedText text_).
Proof. apply cleanExtractedText_normal. Qed.

(** X21.  The lines that [extractFields] works on are normalised: each
    is not empty, has no white space at its ends and no two white-space
    characters in a row, and its only white space is the space. *)
Theorem lines_are_normalised (text_ : str) :
  Forall (fun line => line <> []
                      /\ trimmed line /\ singleSpaced line
                      /\ Forall tidy line)
         (linesOf text_).
Proof.
  unfold linesOf. cbv zeta.
  set (w := replaceAll re_ws (text " ") text_).
  assert (Ht : Forall tidy w) by apply replaceAll_ws_tidy.
  rewrite (split_absent newline (trim w)).
  2:{ apply trim_Forall. eapply Forall_impl; [|exact Ht].
      apply tidy_not_newline. }
  cbn [map filter].
  destruct (0 <? length (trim (trim w))) eqn:E; [|constructor].
  constructor; [|constructor].
  repeat split.
  - intros E0. rewrite E0 in E. discriminate.
  - apply trim_trimmed.
  - apply singleSpaced_trim, singleSpaced_trim, replaceAll_ws_single.
  - now apply trim_Forall, trim_Forall.
Qed.

End TextProperties.
(* ================================================================== *)
(** ** Further properties of the recognition *)
(* ================================================================== *)

Module RecognitionProperties.

Import Recognition Workers Catalogue TextProperties.

(** [performOCR] started after other work: what it returns and what it
    adds to the trace, by the answers of the factory and of the
    engine. *)
Lemma performOCR_from (fac : factory) (eng : engine) (imageData : image)
      (trace : list event) :
  performOCR imageData fac eng trace =
  match fac trace true with
  | Thrown e => (Thrown e, trace ++ [NoWorker true])
  | Ok _ =>
      match eng (trace ++ [CreateWorker true]) imageData with
      | Thrown e =>
          (Thrown e,
           trace ++ [CreateWorker true; Recognize imageData; Terminate])
      | Ok r1 =>
          let firstResult :=
            Result (cleanExtractedText (text_of r1)) (confidence_of r1) in
          if (confidence_of r1 <? 40)%Z then
            match fac (trace ++ beforeFallbackWorker imageData) false with
            | Thrown _ =>
                (Ok firstResult,
                 trace ++ beforeFallbackWorker imageData
                       ++ [NoWorker false; ConsoleWarn])
            | Ok _ =>
                match eng (trace ++ beforeFallback imageData) imageData with
                | Ok r2 =>
                    (Ok (if (confidence_of r1 <? confidence_of r2)%Z
                         then Result (cleanExtractedText (text_of r2))
                                     (confidence_of r2)
                         else firstResult),
                     trace ++ beforeFallback imageData
                           ++ [Recognize imageData; Terminate])
                | Thrown _ =>
                    (Ok firstResult,
                     trace ++ beforeFallback imageData
                           ++ [Recognize imageData; Terminate; ConsoleWarn])
                end
            end
          else (Ok firstResult,
                trace ++ [CreateWorker true; Recognize imageData; Terminate])
      end
  end.
Proof.
  cbv beta iota zeta delta
      [performOCR performFallbackOCR bind tryCatch emit recognize ret
                  throw beforeFallback beforeFallbackWorker createWorker
                  terminate].
  destruct (fac trace true) as [u|e]; [|reflexivity].
  destruct (eng (trace ++ [CreateWorker true]) imageData) as [[t1 c1]|e];
    [|(rewrite <- ?app_assoc; reflexivity)].
  cbv beta iota delta [text_of confidence_of].
  destruct (c1 <? 40)%Z; [|(rewrite <- ?app_assoc; reflexivity)].
  rewrite <- !app_assoc. cbn [app].
  destruct (fac _ false) as [u'|e];
    [|(rewrite <- ?app_assoc; reflexivity)].
  rewrite <- !app_assoc. cbn [app].
  destruct (eng _ imageData) as [[t2 c2]|e];
    [|(rewrite <- ?app_assoc; reflexivity)].
  cbv beta iota delta [text_of confidence_of].
  destruct (c1 <? c2)%Z; (rewrite <- ?app_assoc; reflexivity).
Qed.

Lemma performFallbackOCR_from (fac : factory) (eng : engine)
      (imageData : image) (trace : list event) :
  performFallbackOCR imageData fac eng trace =
  match fac trace false with
  | Thrown e => (Thrown e, trace ++ [NoWorker false])
  | Ok _ =>
      (match eng (trace ++ [CreateWorker false]) imageData with
       | Ok r => Ok (Result (text_of r) (confidence_of r))
       | Thrown e => Thrown e
       end,
       trace ++ [CreateWorker false; Recognize imageData; Terminate])
  end.
Proof.
  cbv beta iota zeta delta
      [performFallbackOCR bind tryCatch emit recognize ret throw
                          createWorker terminate].
  destruct (fac trace false) as [u|e]; [|reflexivity].
  destruct (eng (trace ++ [CreateWorker false]) imageData) as [[t1 c1]|e];
    (rewrite <- ?app_assoc; reflexivity).
Qed.

(** X22.  [performOCR] throws exactly when its worker cannot be created
    or the first recognition throws.  It then throws that error: in the
    first case without having called the engine, in the second after it
    has terminated its worker, and in neither does it try the fallback.
    A fallback that fails, for want of a worker or in its recognition,
    is only logged: the cleaned first result is returned. *)
Theorem performOCR_throws_only_first_error (fac : factory) (eng : engine)
        (imageData : image) :
  (forall e,
      fac [] true = Thrown e ->
      run (performOCR imageData) fac eng = (Thrown e, [NoWorker true]))
  /\ (forall e,
        fac [] true = Ok tt ->
        eng [CreateWorker true] imageData = Thrown e ->
        run (performOCR imageData) fac eng
        = (Thrown e, [CreateWorker true; Recognize imageData; Terminate]))
  /\ (forall first,
        fac [] true = Ok tt ->
        eng [CreateWorker true] imageData = Ok first ->
        exists res, fst (run (performOCR imageData) fac eng) = Ok res)
  /\ (forall first e,
        fac [] true = Ok tt ->
        eng [CreateWorker true] imageData = Ok first ->
        (confidence_of first < 40)%Z ->
        fac (beforeFallbackWorker imageData) false = Thrown e ->
        run (performOCR imageData) fac eng
        = (Ok (Result (cleanExtractedText (text_of first))
                      (confidence_of first)),
           beforeFallbackWorker imageData ++ [NoWorker false; ConsoleWarn]))
  /\ (forall first e,
        fac [] true = Ok tt ->
        eng [CreateWorker true] imageData = Ok first ->
        (confidence_of first < 40)%Z ->
        fac (beforeFallbackWorker imageData) false = Ok tt ->
        eng (beforeFallback imageData) imageData = Thrown e ->
        run (performOCR imageData) fac eng
        = (Ok (Result (cleanExtractedText (text_of first))
                      (confidence_of first)),
           beforeFallback imageData
             ++ [Recognize imageData; Terminate; ConsoleWarn])).
Proof.
  unfold run. rewrite (performOCR_from fac eng imageData []). cbn [app].
  split; [|split; [|split; [|split]]].
  - intros e ->. reflexivity.
  - intros e -> ->. reflexivity.
  - intros first -> ->. cbv zeta.
    destruct (confidence_of first <? 40)%Z; [|eexists; reflexivity].
    destruct (fac _ false); [|eexists; reflexivity].
    destruct (eng _ imageData); eexists; reflexivity.
  - intros first e -> -> Hlow ->. cbv zeta.
    apply Z.ltb_lt in Hlow. now rewrite Hlow.
  - intros first e -> -> Hlow -> ->. cbv zeta.
    apply Z.ltb_lt in Hlow. now rewrite Hlow.
Qed.

(** A factory that cannot create a worker: the engine is not called. *)
Lemma performOCR_throws_only_first_error_witness :
  run (performOCR (lit "page"))
      (fun _ _ => Thrown (lit "Failed to load the engine")) hesitantEngine
  = (Thrown (lit "Failed to load the engine"), [NoWorker true]).
Proof.
  apply (proj1 (performOCR_throws_only_first_error
                  (fun _ _ => Thrown (lit "Failed to load the engine"))
                  hesitantEngine (lit "page"))).
  reflexivity.
Defined.

(** X23.  Each worker is released: in every run of [performOCR] and of
    [performFallbackOCR], whatever the factory and the engine answer
    and whatever was done before, at most one of the workers that the
    run creates is alive at any time, and none is alive at its end. *)
Theorem workers_are_released (fac : factory) (eng : engine)
        (imageData : image) (trace : list event) :
  (let trace' := snd (performOCR imageData fac eng trace) in
   exists added,
     trace' = trace ++ added
     /\ Forall (fun n => n <= 1) (alive 0 added)
     /\ leftAlive added = 0)
  /\
  (let trace' := snd (performFallbackOCR imageData fac eng trace) in
   exists added,
     trace' = trace ++ added
     /\ Forall (fun n => n <= 1) (alive 0 added)
     /\ leftAlive added = 0).
Proof.
  split; cbv zeta.
  - rewrite performOCR_from.
    destruct (fac trace true) as [u|e].
    + destruct (eng (trace ++ [CreateWorker true]) imageData) as [r1|e].
      * cbv zeta. destruct (confidence_of r1 <? 40)%Z.
        -- destruct (fac _ false).
           ++ destruct (eng _ imageData); cbn [snd]; eexists;
                (split; [reflexivity|]); split;
                try reflexivity; repeat constructor.
           ++ cbn [snd]. eexists. split; [reflexivity|].
              split; [repeat constructor|reflexivity].
        -- cbn [snd]. eexists. split; [reflexivity|].
           split; [repeat constructor|reflexivity].
      * cbn [snd]. eexists. split; [reflexivity|].
        split; [repeat constructor|reflexivity].
    + cbn [snd]. eexists. split; [reflexivity|].
      split; [repeat constructor|reflexivity].
  - rewrite performFallbackOCR_from.
    destruct (fac trace false); cbn [snd]; eexists;
      (split; [reflexivity|]); (split; [repeat constructor|reflexivity]).
Qed.

(** X24.  The text of every result of [performOCR] went through
    [cleanExtractedText], the one of the fallback too: it holds only
    letters, digits, underscores, single spaces and the characters
    . , - / & $, and has no white space at its ends. *)
Theorem recognised_text_is_normalised (fac : factory) (eng : engine)
        (imageData : image) (res : result) :
  fst (run (performOCR imageData) fac eng) = Ok res ->
  (exists raw, text_of res = cleanExtractedText raw)
  /\ Forall (fun c => plain c = true) (text_of res)
  /\ singleSpaced (text_of res)
  /\ trimmed (text_of res).
Proof.
  intros Hres.
  assert (Hraw : exists raw, text_of res = cleanExtractedText raw).
  { unfold run in Hres. rewrite performOCR_from in Hres. cbn [app] in Hres.
    destruct (fac [] true) as [u|e]; [|discriminate].
    destruct (eng [CreateWorker true] imageData) as [r1|e]; [|discriminate].
    cbv zeta in Hres.
    destruct (confidence_of r1 <? 40)%Z.
    - destruct (fac _ false) as [u'|e].
      + destruct (eng _ imageData) as [r2|e]; cbn [fst] in Hres.
        * destruct (confidence_of r1 <? confidence_of r2)%Z;
            injection Hres as <-; eexists; reflexivity.
        * injection Hres as <-. eexists; reflexivity.
      + cbn [fst] in Hres. injection Hres as <-. eexists; reflexivity.
    - cbn [fst] in Hres. injection Hres as <-. eexists; reflexivity. }
  split; [exact Hraw|]. destruct Hraw as [raw ->].
  apply cleanExtractedText_normal.
Qed.

Lemma recognised_text_is_normalised_witness :
  trimmed (text_of (Result (cleanExtractedText (lit "Total 12.50")) 85)).
Proof.
  apply (recognised_text_is_normalised
           workers hesitantEngine (lit "page")
           (Result (cleanExtractedText (lit "Total 12.50")) 85)).
  reflexivity.
Defined.

End RecognitionProperties.
(* ================================================================== *)
(** ** Properties of the processing of several pages *)
(* ================================================================== *)

Module BatchProperties.

Import Fields Recognition Catalogue Batch.
Import JSFacts FieldsFacts FieldsProperties TextProperties RecognitionProperties.

(** *** One page of [handleFileSelect] *)

Lemma processPage_run (enh : enhancer) (fac : factory) (eng : engine)
      (page : pageImage) (i : nat) (vars : progress) (trace : list event) :
  processPage (page, i) enh fac eng (vars, trace) =
  let failed v :=
    addConfidence 0
      (pushText (errorPlaceholder (pageNumberOr (pageNumber page) (i + 1))) v) in
  match enh (imageData page) with
  | Thrown _ => (Ok tt, (failed vars, trace))
  | Ok enhancedImage =>
      let vars1 := if Nat.eqb i 0 then setPreview enhancedImage vars else vars in
      match performOCR enhancedImage fac eng trace with
      | (Ok r, trace') =>
          (Ok tt,
           (addConfidence (confidence_of r)
              (pushFields (extractFields (text_of r))
                 (pushText (entryOf page (text_of r)) vars1)),
            trace'))
      | (Thrown _, trace') => (Ok tt, (failed vars1, trace'))
      end
  end.
Proof.
  cbv beta iota zeta delta [processPage tryCatchB bindB enhance].
  destruct (enh (imageData page)) as [enhancedImage|e]; [|reflexivity].
  assert (Hocr : forall v,
             @ocr progress _ (performOCR enhancedImage) enh fac eng (v, trace)
             = (fst (performOCR enhancedImage fac eng trace),
                (v, snd (performOCR enhancedImage fac eng trace)))).
  { intros v. unfold ocr. cbn [fst snd].
    now destruct (performOCR enhancedImage fac eng trace). }
  destruct (Nat.eqb i 0);
    cbv beta iota delta [modify retB fst snd];
    rewrite Hocr;
    destruct (performOCR enhancedImage fac eng trace) as [[r|e] trace'];
    cbn [fst snd]; unfold entryOf;
    try reflexivity;
    destruct (pageNumber page) as [[|n]|]; reflexivity.
Qed.


(** What a successful recognition returns comes from the engine. *)
Lemma performOCR_result (fac : factory) (eng : engine)
      (enhancedImage : image) (trace : list event) (r : result) :
  fst (performOCR enhancedImage fac eng trace) = Ok r ->
  (exists raw, text_of r = cleanExtractedText raw)
  /\ (exists trace' r', eng trace' enhancedImage = Ok r'
                        /\ confidence_of r = confidence_of r').
Proof.
  rewrite performOCR_from.
  destruct (fac trace true) as [u|e]; [|discriminate].
  destruct (eng (trace ++ [CreateWorker true]) enhancedImage) as [r1|e] eqn:E1;
    [|discriminate].
  cbv zeta.
  destruct (confidence_of r1 <? 40)%Z.
  - destruct (fac _ false) as [u'|e].
    + destruct (eng (trace ++ beforeFallback enhancedImage) enhancedImage)
        as [r2|e] eqn:E2; cbn [fst].
      * destruct (confidence_of r1 <? confidence_of r2)%Z;
          intros [= <-]; (split; [eexists; reflexivity|]).
        -- exists (trace ++ beforeFallback enhancedImage), r2. auto.
        -- exists (trace ++ [CreateWorker true]), r1. auto.
      * intros [= <-]. split; [eexists; reflexivity|].
        exists (trace ++ [CreateWorker true]), r1. auto.
    + cbn [fst]. intros [= <-]. split; [eexists; reflexivity|].
      exists (trace ++ [CreateWorker true]), r1. auto.
  - cbn [fst]. intros [= <-]. split; [eexists; reflexivity|].
    exists (trace ++ [CreateWorker true]), r1. auto.
Qed.

(** A recognition that throws where [performOCR] calls the engine first
    makes [performOCR] throw, whether or not it gets its worker. *)
Lemma performOCR_first_throws (fac : factory) (eng : engine)
      (enhancedImage : image) (trace : list event) (e : str) :
  eng (trace ++ [CreateWorker true]) enhancedImage = Thrown e ->
  exists e', fst (performOCR enhancedImage fac eng trace) = Thrown e'.
Proof.
  intros H. rewrite performOCR_from.
  destruct (fac trace true) as [u|e0]; [|eexists; reflexivity].
  rewrite H. eexists. reflexivity.
Qed.

Lemma performOCR_hopeless (fac : factory) (eng : engine)
      (enhancedImage : image) (trace : list event) :
  (forall trace', exists e, eng trace' enhancedImage = Thrown e) ->
  exists e trace', performOCR enhancedImage fac eng trace = (Thrown e, trace').
Proof.
  intros H.
  destruct (H (trace ++ [CreateWorker true])) as [e He].
  destruct (performOCR_first_throws fac eng enhancedImage trace e He)
    as [e' He'].
  destruct (performOCR enhancedImage fac eng trace) as [o trace'].
  cbn [fst] in He'. subst o. eexists. eexists. reflexivity.
Qed.

(** What one page adds to the variables of the loop. *)
Lemma processPage_adds (enh : enhancer) (fac : factory) (eng : engine)
      (page : pageImage) (i : nat) (vars : progress) (trace : list event) :
  exists entry fs c preview trace',
    processPage (page, i) enh fac eng (vars, trace)
    = (Ok tt,
       (Progress (allExtractedText vars ++ [entry]) (allFields vars ++ fs)
                 (totalConfidence vars + c)%Z preview,
        trace'))
    /\ entry = entryFor page i (reading enh fac eng page trace)
    /\ (entry = errorPlaceholder (pageNumberOr (pageNumber page) (i + 1))
        \/ exists raw, entry = entryOf page (cleanExtractedText raw))
    /\ (percent eng -> (0 <= c <= 100)%Z)
    /\ length fs <= 7.
Proof.
  rewrite processPage_run. cbv zeta. unfold reading.
  destruct (enh (imageData page)) as [enhancedImage|e] eqn:Eenh.
  - set (vars1 := if Nat.eqb i 0 then setPreview enhancedImage vars else vars).
    assert (Hsame : allExtractedText vars1 = allExtractedText vars
                    /\ allFields vars1 = allFields vars
                    /\ totalConfidence vars1 = totalConfidence vars).
    { unfold vars1. destruct (Nat.eqb i 0); auto. }
    destruct Hsame as (Ht & Hf & Hc).
    destruct (performOCR enhancedImage fac eng trace) as [[r|e] trace']
      eqn:Eocr.
    + assert (Hr : fst (performOCR enhancedImage fac eng trace) = Ok r)
        by now rewrite Eocr.
      destruct (performOCR_result _ _ _ _ _ Hr)
        as ([raw Eraw] & t' & r' & Er' & Ec).
      exists (entryOf page (text_of r)), (extractFields (text_of r)),
        (confidence_of r), (enhancedPreview vars1), trace'.
      unfold addConfidence, pushFields, pushText.
      cbn [allExtractedText allFields totalConfidence enhancedPreview fst
           entryFor].
      rewrite Ht, Hf, Hc.
      split; [reflexivity|]. split; [reflexivity|].
      split; [right; exists raw; now rewrite Eraw|].
      split; [|apply extractFields_bound].
      intros H. rewrite Ec. apply (H _ _ _ Er').
    + exists (errorPlaceholder (pageNumberOr (pageNumber page) (i + 1))), [],
        0%Z, (enhancedPreview vars1), trace'.
      unfold addConfidence, pushText.
      cbn [allExtractedText allFields totalConfidence enhancedPreview fst
           entryFor].
      rewrite Ht, Hf, Hc, app_nil_r.
      split; [reflexivity|]. split; [reflexivity|].
      split; [now left|]. split; [lia|simpl; lia].
  - exists (errorPlaceholder (pageNumberOr (pageNumber page) (i + 1))), [],
      0%Z, (enhancedPreview vars), trace.
    unfold addConfidence, pushText.
    cbn [allExtractedText allFields totalConfidence enhancedPreview entryFor].
    rewrite app_nil_r.
    split; [reflexivity|]. split; [reflexivity|].
    split; [now left|]. split; [lia|simpl; lia].
Qed.

(** What the loop adds, from any page index and any state: each page
    leaves the entry of what its enhancement and its recognition give
    at the trace that the pages before it leave. *)
Lemma processPages_from (enh : enhancer) (fac : factory) (eng : engine) :
  forall (pages : list pageImage) (k : nat) (vars : progress)
         (trace : list event),
  exists entries fs c preview trace',
    forEach (combine pages (seq k (length pages))) processPage enh fac eng
            (vars, trace)
    = (Ok tt,
       (Progress (allExtractedText vars ++ entries) (allFields vars ++ fs)
                 (totalConfidence vars + c)%Z preview,
        trace'))
    /\ length entries = length pages
    /\ (forall j page,
          nth_error pages j = Some page ->
          exists entry,
            nth_error entries j = Some entry
            /\ entry
               = entryFor page (k + j)
                   (reading enh fac eng page
                      (snd (snd (forEach
                                   (combine (firstn j pages)
                                            (seq k (length (firstn j pages))))
                                   processPage enh fac eng (vars, trace)))))
            /\ (entry = errorPlaceholder
                          (pageNumberOr (pageNumber page) (k + j + 1))
                \/ exists raw, entry = entryOf page (cleanExtractedText raw)))
    /\ (percent eng -> (0 <= c <= 100 * Z.of_nat (length pages))%Z)
    /\ length fs <= 7 * length pages.
Proof.
  induction pages as [|page pages IH]; intros k vars trace.
  - exists [], [], 0%Z, (enhancedPreview vars), trace.
    cbn [length seq combine forEach]. unfold retB.
    rewrite !app_nil_r, Z.add_0_r. destruct vars as [t f c p].
    cbn [allExtractedText allFields totalConfidence enhancedPreview].
    split; [reflexivity|]. split; [reflexivity|].
    split; [intros [|j] page Hj; discriminate|].
    split; [intros _; lia|simpl; lia].
  - cbn [length seq combine forEach]. unfold bindB at 1.
    destruct (processPage_adds enh fac eng page k vars trace)
      as (entry & fs & c & preview & trace1 & Hrun & Hentry & Hclean
          & Hc & Hfs).
    rewrite Hrun.
    match goal with
    | |- context [forEach _ processPage enh fac eng (?v, trace1)] =>
        destruct (IH (S k) v trace1)
          as (entries & fs' & c' & preview' & trace2 & Hrest & Hlen & Hnth
              & Hc' & Hfs')
    end.
    rewrite Hrest.
    cbn [allExtractedText allFields totalConfidence enhancedPreview].
    exists (entry :: entries), (fs ++ fs'), (c + c')%Z, preview', trace2.
    split; [rewrite <- !app_assoc, Z.add_assoc; reflexivity|].
    split; [cbn [length]; now rewrite Hlen|].
    split; [|split].
    + intros [|j] page' Hj; cbn [nth_error] in *.
      * injection Hj as <-. exists entry.
        cbn [firstn length seq combine forEach]. unfold retB. cbn [snd].
        rewrite !Nat.add_0_r. auto.
      * destruct (Hnth j page' Hj) as (entry' & E & H1 & H2).
        exists entry'. split; [exact E|].
        cbn [firstn length seq combine forEach]. unfold bindB at 1.
        rewrite Hrun.
        replace (k + S j) with (S k + j) by lia. auto.
    + intros H. specialize (Hc H). specialize (Hc' H). cbn [length]. lia.
    + rewrite length_app. cbn [length]. lia.
Qed.

(** The entry of a page that was read is never the error placeholder:
    the placeholder starts with a line break, the heading of a page
    with an equals sign, and a cleaned text with neither. *)
Lemma entryOf_not_placeholder (page : pageImage) (raw : str) (n : nat) :
  entryOf page (cleanExtractedText raw) <> errorPlaceholder n.
Proof.
  assert (Hclean : cleanExtractedText raw <> errorPlaceholder n).
  { intros H. destruct (cleanExtractedText_normal raw) as (_ & _ & Ht).
    rewrite H in Ht. unfold errorPlaceholder in Ht. cbn [app] in Ht.
    destruct Ht as [Ht _]. discriminate. }
  unfold entryOf.
  destruct (pageNumber page) as [[|m]|]; try exact Hclean.
  unfold pageText, errorPlaceholder. cbn [app lit list_ascii_of_string].
  intros H. discriminate.
Qed.

Lemma length_filteri_from {A} (p : A -> nat -> bool) (l : list A) (k : nat) :
  length (filteri_from k p l) <= length l.
Proof.
  revert k. induction l as [|x l IH]; intros k; simpl; [lia|].
  specialize (IH (S k)). destruct (p x k); simpl; lia.
Qed.

(** X25.  A page that fails does not abort the batch.  Whatever the
    enhancer, the factory and the engine do, the loop of
    [handleFileSelect] ends normally with one text entry per page, in
    the order of the pages.  The entry of a page is decided by what
    happens to that page in this run, at the trace that the pages
    before it leave: it is the error placeholder if and only if the
    enhancement of the page or its recognition throws there, as when
    the page gets no worker or the engine throws on the first call for
    it, and otherwise the cleaned text that the recognition returns,
    under its heading when the page has a number. *)
Theorem batch_survives_failures (enh : enhancer) (fac : factory)
        (eng : engine) (imagesToProcess : list pageImage) :
  exists vars trace,
    runB (processPages imagesToProcess) enh fac eng
         (initially imagesToProcess)
    = (Ok tt, (vars, trace))
    /\ length (allExtractedText vars) = length imagesToProcess
    /\ forall i page,
         nth_error imagesToProcess i = Some page ->
         let before := traceAt enh fac eng imagesToProcess i in
         let failure :=
           errorPlaceholder (pageNumberOr (pageNumber page) (i + 1)) in
         exists entry,
           nth_error (allExtractedText vars) i = Some entry
           /\ entry = entryFor page i (reading enh fac eng page before)
           /\ (entry = failure
               <-> exists e, reading enh fac eng page before = Thrown e)
           /\ (entry = failure
               \/ exists raw, entry = entryOf page (cleanExtractedText raw))
           /\ (forall e, enh (imageData page) = Thrown e -> entry = failure)
           /\ (forall enhancedImage e,
                 enh (imageData page) = Ok enhancedImage ->
                 fac before true = Thrown e ->
                 entry = failure)
           /\ (forall enhancedImage e,
                 enh (imageData page) = Ok enhancedImage ->
                 eng (before ++ [CreateWorker true]) enhancedImage = Thrown e ->
                 entry = failure)
           /\ (forall enhancedImage r,
                 enh (imageData page) = Ok enhancedImage ->
                 fst (performOCR enhancedImage fac eng before) = Ok r ->
                 entry = entryOf page (text_of r))
           /\ (unreadable enh eng page -> entry = failure).
Proof.
  unfold traceAt, runB, processPages, indexed.
  destruct (processPages_from enh fac eng imagesToProcess 0
                              (initially imagesToProcess) [])
    as (entries & fs & c & preview & trace & -> & Hlen & Hnth & _).
  eexists. eexists. split; [reflexivity|].
  cbn [allExtractedText initially app]. split; [exact Hlen|].
  intros i page Hi. cbv zeta.
  destruct (Hnth i page Hi) as (entry & E & H1 & H2).
  exists entry. cbn [Nat.add] in H1, H2.
  split; [exact E|]. split; [exact H1|].
  set (before := snd (snd (forEach _ processPage enh fac eng _))) in *.
  clearbody before.
  split.
  { destruct (reading enh fac eng page before) as [r|e] eqn:Er;
      cbn [entryFor] in H1.
    - split; [|intros [e He]; discriminate].
      intros Hfail. exfalso.
      assert (Hraw : exists raw, text_of r = cleanExtractedText raw).
      { unfold reading in Er.
        destruct (enh (imageData page)) as [img|e]; [|discriminate].
        apply (performOCR_result fac eng img before r Er). }
      destruct Hraw as [raw Hraw]. rewrite Hraw in H1.
      apply (entryOf_not_placeholder page raw
               (pageNumberOr (pageNumber page) (i + 1))).
      congruence.
    - split; [intros _; eexists; reflexivity|intros _; exact H1]. }
  split; [exact H2|].
  unfold reading in H1.
  split; [|split; [|split; [|split]]].
  - intros e He. now rewrite He in H1.
  - intros img e He Hf. rewrite He in H1.
    rewrite performOCR_from, Hf in H1. exact H1.
  - intros img e He Ht. rewrite He in H1.
    destruct (performOCR_first_throws fac eng img before e Ht) as [e' He'].
    now rewrite He' in H1.
  - intros img r He Hr. rewrite He, Hr in H1. exact H1.
  - intros [[e He]|(img & He & Hall)].
    + now rewrite He in H1.
    + rewrite He in H1.
      destruct (performOCR_hopeless fac eng img before Hall)
        as (e & t & Ho).
      now rewrite Ho in H1.
Qed.

(** Two pages; the engine throws in this run on the second one only,
    once it has seen the first. *)
Lemma batch_survives_failures_witness :
  exists vars trace,
    runB (processPages [PageImage (lit "p1") (Some 1);
                        PageImage (lit "p1") (Some 2)])
         (fun img => Ok img) workers
         (fun trace _ =>
            if 1 <? length trace then Thrown (lit "out of memory")
            else Ok (Result (lit "Total 12.50") 85))
         (initially [PageImage (lit "p1") (Some 1);
                     PageImage (lit "p1") (Some 2)])
    = (Ok tt, (vars, trace))
    /\ length (allExtractedText vars) = 2
    /\ nth_error (allExtractedText vars) 1 = Some (errorPlaceholder 2).
Proof.
  destruct (batch_survives_failures
              (fun img => Ok img) workers
              (fun trace _ =>
                 if 1 <? length trace then Thrown (lit "out of memory")
                 else Ok (Result (lit "Total 12.50") 85))
              [PageImage (lit "p1") (Some 1); PageImage (lit "p1") (Some 2)])
    as (vars & trace & E & Hlen & Hnth).
  exists vars, trace. split; [exact E|]. split; [exact Hlen|].
  destruct (Hnth 1 (PageImage (lit "p1") (Some 2)) eq_refl)
    as (entry & -> & _ & _ & _ & _ & _ & Hthrows & _).
  f_equal. apply (Hthrows (lit "p1") (lit "out of memory")); reflexivity.
Defined.


Lemma hesitantEngine_percent : percent hesitantEngine.
Proof.
  intros trace img r. unfold hesitantEngine.
  destruct (fallbackAttempted trace); intros [= <-]; cbn; lia.
Qed.


(** *** [processDocument] *)

Lemma recognizePage_run (enh : enhancer) (fac : factory) (eng : engine)
      (pageImage : image) (i : nat) (a : aggregate) (trace : list event) :
  recognizePage (pageImage, i) enh fac eng (a, trace) =
  match performOCR pageImage fac eng trace with
  | (Ok r, trace') =>
      (Ok tt,
       (Aggregate (aggregatedText a
                     ++ ([newline] ++ lit "=== Page " ++ String_ (i + 1)
                           ++ lit " ===" ++ [newline])
                     ++ text_of r ++ [newline])
                  (confidences a ++ [orZero (confidence_of r)]),
        trace'))
  | (Thrown _, trace') => (Ok tt, (a, trace' ++ [ConsoleWarn]))
  end.
Proof.
  cbv beta iota zeta delta [recognizePage tryCatchB bindB ocr modify emit
                                          fst snd].
  destruct (performOCR pageImage fac eng trace) as [[r|e] trace']; reflexivity.
Qed.

Lemma orZero_same (c : Z) : orZero c = c.
Proof.
  unfold orZero. destruct (Z.eqb_spec c 0) as [->|]; reflexivity.
Qed.

(** What the loop over the pages adds. *)
Lemma recognizePages_from (enh : enhancer) (fac : factory) (eng : engine) :
  forall (pageImages : list image) (k : nat) (a : aggregate)
         (trace : list event),
  exists more cs trace',
    forEach (combine pageImages (seq k (length pageImages))) recognizePage
            enh fac eng (a, trace)
    = (Ok tt, (Aggregate (aggregatedText a ++ more) (confidences a ++ cs),
               trace'))
    /\ length cs <= length pageImages
    /\ (percent eng -> Forall (fun c => 0 <= c <= 100)%Z cs)
    /\ ((forall img, In img pageImages ->
                     forall t, exists e, eng t img = Thrown e) ->
        more = [] /\ cs = []).
Proof.
  induction pageImages as [|img imgs IH]; intros k a trace.
  - exists [], [], trace. cbn [length seq combine forEach]. unfold retB.
    rewrite !app_nil_r. destruct a. repeat split; auto.
  - cbn [length seq combine forEach]. unfold bindB at 1.
    rewrite recognizePage_run.
    destruct (performOCR img fac eng trace) as [[r|e] trace1] eqn:Eocr.
    + match goal with
      | |- context [forEach _ recognizePage enh fac eng (?v, trace1)] =>
          destruct (IH (S k) v trace1)
            as (more' & cs' & trace2 & -> & Hlen & Hc & Hnone)
      end.
      cbn [aggregatedText confidences].
      exists ((([newline] ++ lit "=== Page " ++ String_ (k + 1)
                          ++ lit " ===" ++ [newline])
                 ++ text_of r ++ [newline]) ++ more'),
        (orZero (confidence_of r) :: cs'), trace2.
      split; [|split; [|split]].
      * rewrite <- !app_assoc. reflexivity.
      * cbn [length]. lia.
      * intros Hp. constructor; [|now apply Hc].
        rewrite orZero_same.
        assert (Hr : fst (performOCR img fac eng trace) = Ok r)
          by now rewrite Eocr.
        destruct (performOCR_result _ _ _ _ _ Hr) as (_ & t' & r' & Er' & ->).
        apply (Hp _ _ _ Er').
      * intros H. exfalso.
        destruct (performOCR_hopeless fac eng img trace) as (e & t & Habs);
          [apply H; now left|congruence].
    + destruct (IH (S k) a (trace1 ++ [ConsoleWarn]))
        as (more' & cs' & trace2 & -> & Hlen & Hc & Hnone).
      exists more', cs', trace2.
      split; [reflexivity|]. split; [cbn [length]; lia|].
      split; [exact Hc|].
      intros H. apply Hnone. intros img' Hin. apply H. now right.
Qed.

Lemma roundedQuotient_between (sum lo hi : Z) (n : nat) :
  0 < n ->
  (Z.of_nat n * lo <= sum <= Z.of_nat n * hi)%Z ->
  (lo <= roundedQuotient sum n <= hi)%Z.
Proof.
  intros Hn Hsum. unfold roundedQuotient. split.
  - apply Z.div_le_lower_bound; lia.
  - apply Z.lt_succ_r. apply Z.div_lt_upper_bound; lia.
Qed.

Lemma sum_between (lo hi : Z) (cs : list Z) :
  Forall (fun c => lo <= c <= hi)%Z cs ->
  forall acc,
    (acc + Z.of_nat (length cs) * lo <= fold_left Z.add cs acc
     <= acc + Z.of_nat (length cs) * hi)%Z.
Proof.
  induction 1 as [|c cs Hc Hcs IH]; intros acc; cbn [fold_left length].
  - lia.
  - specialize (IH (acc + c)%Z). lia.
Qed.

Lemma averageOf_between (lo hi : Z) (cs : list Z) :
  (lo <= 0 <= hi)%Z ->
  Forall (fun c => lo <= c <= hi)%Z cs ->
  (lo <= averageOf cs <= hi)%Z.
Proof.
  intros H0 Hcs. unfold averageOf.
  destruct (0 <? length cs) eqn:E; [|lia].
  apply Nat.ltb_lt in E.
  apply roundedQuotient_between; [assumption|].
  pose proof (sum_between lo hi cs Hcs 0%Z). lia.
Qed.



End BatchProperties.
(* ================================================================== *)
(** ** Properties of the contrast adjustment *)
(* ================================================================== *)

Module ContrastProperties.

Import Raster RasterFacts Enhancer Contrast RasterProperties.
Local Open Scope Z_scope.

(** *** Stores of doubles *)

Lemma length_setF (d : buffer) (i : Z) (x : PrimFloat.float) :
  length (setF d i x) = length d.
Proof. unfold setF. destruct (i <? 0); [reflexivity|apply length_store]. Qed.

Lemma get_setF_other (d : buffer) (i j : Z) (x : PrimFloat.float) :
  i <> j -> get (setF d i x) j = get d j.
Proof.
  intros H. unfold get, setF.
  destruct (j <? 0) eqn:Ej; [reflexivity|].
  destruct (i <? 0) eqn:Ei; [reflexivity|].
  apply Z.ltb_ge in Ei, Ej. apply nth_store_other. lia.
Qed.

Lemma store_outside (d : buffer) (i : nat) (v : Z) :
  (length d <= i)%nat -> store d i v = d.
Proof.
  revert i. induction d as [|x d IH]; intros [|i] H; simpl in *;
    try reflexivity; try lia.
  f_equal. apply IH. lia.
Qed.

(** A store into a cell of the array replaces its value; a store
    outside is ignored. *)
Lemma get_setF_same (d : buffer) (i : Z) (x : PrimFloat.float) :
  get (setF d i x) i
  = match get d i with
    | Some _ => Some (toUint8ClampF x)
    | None => None
    end.
Proof.
  unfold get, setF. destruct (i <? 0) eqn:Ei; [reflexivity|].
  destruct (nth_error d (Z.to_nat i)) as [v|] eqn:E.
  - apply nth_store_same. apply nth_error_Some. congruence.
  - apply nth_error_None in E. now rewrite store_outside, (proj2 (nth_error_None _ _)).
Qed.

(** *** One pixel *)

Lemma adjustPixel_steps (data : buffer) (k : nat) :
  adjustPixel data k =
  let i := 4 * Z.of_nat k in
  let d0 := setF data (i + 0) (adjusted (toNumber (get data (i + 0)))) in
  let d1 := setF d0 (i + 1) (adjusted (toNumber (get d0 (i + 1)))) in
  setF d1 (i + 2) (adjusted (toNumber (get d1 (i + 2)))).
Proof. reflexivity. Qed.

Lemma length_adjustPixel (data : buffer) (k : nat) :
  length (adjustPixel data k) = length data.
Proof. rewrite adjustPixel_steps. cbv zeta. now rewrite !length_setF. Qed.

Lemma get_adjustPixel_other (data : buffer) (k : nat) (j : Z) :
  j < 4 * Z.of_nat k \/ 4 * Z.of_nat k + 2 < j ->
  get (adjustPixel data k) j = get data j.
Proof.
  intros H. rewrite adjustPixel_steps. cbv zeta.
  rewrite !get_setF_other by lia. reflexivity.
Qed.

Lemma get_adjustPixel_own (data : buffer) (k : nat) (j : Z) :
  4 * Z.of_nat k <= j <= 4 * Z.of_nat k + 2 ->
  get (adjustPixel data k) j = rewritten (get data j).
Proof.
  intros H. rewrite adjustPixel_steps. cbv zeta. unfold rewritten.
  assert (j = 4 * Z.of_nat k + 0 \/ j = 4 * Z.of_nat k + 1
          \/ j = 4 * Z.of_nat k + 2) as [-> | [-> | ->]] by lia.
  - rewrite !get_setF_other by lia. rewrite get_setF_same.
    destruct (get data (4 * Z.of_nat k + 0)); reflexivity.
  - rewrite get_setF_other by lia. rewrite get_setF_same.
    rewrite !get_setF_other by lia.
    destruct (get data (4 * Z.of_nat k + 1)); reflexivity.
  - rewrite get_setF_same. rewrite !get_setF_other by lia.
    destruct (get data (4 * Z.of_nat k + 2)); reflexivity.
Qed.

(** *** The loop *)

Lemma get_adjust_frame (n : nat) :
  forall (a : nat) (data : buffer) (j : Z),
    j < 4 * Z.of_nat a \/ 4 * Z.of_nat (a + n) <= j \/ j mod 4 = 3 ->
    get (fold_left adjustPixel (seq a n) data) j = get data j.
Proof.
  induction n as [|n IH]; intros a data j H; cbn [seq fold_left];
    [reflexivity|].
  rewrite IH.
  - apply get_adjustPixel_other.
    destruct H as [H|[H|H]]; [lia|lia|].
    pose proof (Z.div_mod j 4 ltac:(lia)). lia.
  - destruct H as [H|[H|H]]; [lia|lia|auto].
Qed.

Lemma get_adjust_hit (n : nat) :
  forall (a : nat) (data : buffer) (j : Z),
    4 * Z.of_nat a <= j < 4 * Z.of_nat (a + n) -> j mod 4 <> 3 ->
    get (fold_left adjustPixel (seq a n) data) j = rewritten (get data j).
Proof.
  induction n as [|n IH]; intros a data j H Hm; cbn [seq fold_left]; [lia|].
  destruct (Z_lt_dec j (4 * Z.of_nat (S a))) as [Hin|Hout].
  - rewrite get_adjust_frame by lia.
    apply get_adjustPixel_own.
    pose proof (Z.div_mod j 4 ltac:(lia)).
    pose proof (Z.mod_pos_bound j 4 ltac:(lia)). lia.
  - rewrite IH by (assumption || lia).
    now rewrite get_adjustPixel_other by lia.
Qed.

Lemma adjustPixels_fold (data : buffer) :
  adjustPixels data
  = fold_left adjustPixel (seq 0 (Nat.div (length data + 3) 4)) data.
Proof. reflexivity. Qed.

(** *** Bytes *)

Lemma adjustedByte_table :
  forallb (fun v => adjustedByte v =? brightened v) (range 0 256) = true.
Proof. vm_compute. reflexivity. Qed.

Lemma adjustedByte_brightened (v : Z) :
  0 <= v <= 255 -> adjustedByte v = brightened v.
Proof.
  intros H. pose proof adjustedByte_table as T.
  rewrite forallb_forall in T. apply Z.eqb_eq, T, In_range. lia.
Qed.

(** X28.  The contrast adjustment of [enhanceImage] brightens: in an
    array of bytes every colour value becomes 4, 5 or 6 more (4 below
    70, 6 from 187 on), up to 255, and no alpha value changes.  The
    array keeps its length. *)
Theorem contrast_adds_brightness (data : buffer) (i v : Z) :
  bytes data -> get data i = Some v ->
  get (adjustPixels data) i
  = Some (if i mod 4 =? 3 then v else brightened v)
  /\ v <= (if i mod 4 =? 3 then v else brightened v) <= 255
  /\ length (adjustPixels data) = length data.
Proof.
  intros Hb Hv. pose proof (bytes_get data i v Hb Hv) as Hr.
  assert (Hi : 0 <= i < Z.of_nat (length data)).
  { unfold get in Hv. destruct (i <? 0) eqn:E; [discriminate|].
    apply Z.ltb_ge in E. split; [assumption|].
    assert (Hlt : (Z.to_nat i < length data)%nat)
      by (apply nth_error_Some; congruence).
    lia. }
  rewrite adjustPixels_fold. repeat split.
  - destruct (Z.eqb_spec (i mod 4) 3) as [E|E].
    + rewrite get_adjust_frame by auto. exact Hv.
    + rewrite get_adjust_hit; [| |assumption].
      * rewrite Hv. unfold rewritten. f_equal.
        apply (adjustedByte_brightened v Hr).
      * split; [lia|].
        assert (Hd : (length data <= 4 * ((length data + 3) / 4))%nat).
        { pose proof (Nat.div_mod (length data + 3) 4 ltac:(lia)).
          pose proof (Nat.mod_upper_bound (length data + 3) 4 ltac:(lia)).
          lia. }
        lia.
  - destruct (i mod 4 =? 3); [lia|]. unfold brightened.
    destruct (v <? 70); [lia|]. destruct (v <? 187); lia.
  - destruct (i mod 4 =? 3); [lia|]. unfold brightened. lia.
  - generalize (seq 0 (Nat.div (length data + 3) 4)). intros ks.
    revert data Hb Hv Hi. induction ks as [|k ks IH]; intros data _ _ _;
      cbn [fold_left]; [reflexivity|].
    assert (H : forall d, length (fold_left adjustPixel ks d) = length d).
    { clear. induction ks as [|k ks IH]; intros d; cbn [fold_left];
        [reflexivity|]. now rewrite IH, length_adjustPixel. }
    now rewrite H, length_adjustPixel.
Qed.

Lemma contrast_adds_brightness_witness :
  get (adjustPixels [10; 100; 250; 128]) 1 = Some 105.
Proof.
  apply (contrast_adds_brightness [10; 100; 250; 128] 1 100).
  - apply bytes_checked. reflexivity.
  - reflexivity.
Defined.

End ContrastProperties.
(* ================================================================== *)
(** ** Properties of the document history *)
(* ================================================================== *)

Module StorageProperties.

Import Fields JSFacts Recognition Storage.
Import PrimFloat.

(** *** The JSON text of a record *)

Lemma throughJSON_number_twice (x : option float) :
  throughJSON_number (throughJSON_number x) = throughJSON_number x.
Proof.
  destruct x as [v|]; [|reflexivity]. cbn [throughJSON_number].
  destruct (is_finite v) eqn:Ef; [|reflexivity].
  destruct (is_zero v) eqn:Ez; cbn [throughJSON_number].
  - reflexivity.
  - now rewrite Ef, Ez.
Qed.

Lemma throughJSON_twice (doc : DocumentRecord) :
  throughJSON (throughJSON doc) = throughJSON doc.
Proof.
  unfold throughJSON. cbn [id fileName fileType timestamp extractedText
                             confidence fields imageData enhancedImageData].
  now rewrite throughJSON_number_twice.
Qed.

Lemma settled_map (history : list DocumentRecord) :
  settled (map throughJSON history).
Proof.
  unfold settled. rewrite map_map. apply map_ext. apply throughJSON_twice.
Qed.

Lemma light_map (history : list DocumentRecord) :
  light history -> light (map throughJSON history).
Proof.
  unfold light. intros H. apply Forall_map.
  eapply Forall_impl; [|exact H]. intros doc Hd. exact Hd.
Qed.

Lemma light_filter (keep : DocumentRecord -> bool)
      (history : list DocumentRecord) :
  light history -> light (filter keep history).
Proof.
  unfold light. intros H. apply Forall_forall. intros doc Hdoc.
  apply filter_In in Hdoc as [Hdoc _].
  rewrite Forall_forall in H. now apply H.
Qed.

(** What is stored reads back as it is. *)
Lemma reachable_settled (hasRoom : list DocumentRecord -> bool)
      (store : localStorage) :
  reachable hasRoom store -> settled (getDocumentHistory store).
Proof.
  induction 1 as [|document store Hr IH|id_ store Hr IH|store Hr IH];
    unfold saveDocument, deleteDocument, clearHistory, setItem; cbv zeta.
  - reflexivity.
  - destruct (hasRoom _); cbn [snd getDocumentHistory];
      [apply settled_map|exact IH].
  - destruct (hasRoom _); cbn [snd getDocumentHistory];
      [apply settled_map|exact IH].
  - reflexivity.
Qed.

Lemma unused_id_kept (i : str) (history : list DocumentRecord) :
  Forall (fun doc => id doc <> i) history ->
  filter (fun doc => negb (str_eqb (id doc) i)) history = history.
Proof.
  induction 1 as [|doc history Hd Hh IH]; cbn [filter]; [reflexivity|].
  rewrite (proj2 (str_eqb_neq _ _) Hd). cbn [negb]. now rewrite IH.
Qed.

(** X29.  The history never holds an image: whatever documents are
    saved and deleted, starting from an empty storage and whether or
    not the storage has room for each write, every stored record is
    without its image and its enhanced image. *)
Theorem stored_history_holds_no_image
        (hasRoom : list DocumentRecord -> bool) (store : localStorage) :
  reachable hasRoom store -> light (getDocumentHistory store).
Proof.
  induction 1 as [|document store Hr IH|id_ store Hr IH|store Hr IH];
    unfold saveDocument, deleteDocument, clearHistory, setItem; cbv zeta.
  - constructor.
  - destruct (hasRoom _); cbn [snd getDocumentHistory]; [|exact IH].
    apply light_map. constructor; [split; reflexivity|exact IH].
  - destruct (hasRoom _); cbn [snd getDocumentHistory]; [|exact IH].
    now apply light_map, light_filter.
  - constructor.
Qed.

Lemma stored_history_holds_no_image_witness :
  light (getDocumentHistory
           (snd (saveDocument
                   (fun _ => true)
                   (Document (lit "1") (lit "scan.png") (lit "image/png") 1
                             (lit "Total 12.50") (Some 85%float) None
                             (Some (lit "data:image/png;base64,AAAA"))
                             (Some (lit "data:image/png;base64,BBBB")))
                   None))).
Proof.
  apply (stored_history_holds_no_image (fun _ => true)).
  apply reach_save, reach_empty.
Defined.

(** X30.  In a storage that the functions have written: a save that
    finds room puts the record, without its images and as its JSON text
    reads back, in front of the history; a save or a deletion that
    finds no room throws and leaves the history as it was.  A deletion
    removes every record with the identifier and keeps the others in
    their order, so it changes nothing when no record has the
    identifier, and deleting a document just saved under an unused
    identifier gives the history back. *)
Theorem delete_undoes_save (hasRoom : list DocumentRecord -> bool)
        (store : localStorage) (document : DocumentRecord) (id_ : str) :
  reachable hasRoom store ->
  let history := getDocumentHistory store in
  let kept := filter (fun doc => negb (str_eqb (id doc) id_)) history in
  (hasRoom (withoutImages document :: history) = true ->
   saveDocument hasRoom document store
   = (Ok tt, Some (throughJSON (withoutImages document) :: history)))
  /\ (hasRoom (withoutImages document :: history) = false ->
      saveDocument hasRoom document store
      = (Thrown (lit "QuotaExceededError"), store))
  /\ (hasRoom kept = true ->
      deleteDocument hasRoom id_ store = (Ok tt, Some kept)
      /\ Forall (fun doc => id doc <> id_) kept
      /\ (Forall (fun doc => id doc <> id_) history -> kept = history))
  /\ (hasRoom kept = false ->
      deleteDocument hasRoom id_ store
      = (Thrown (lit "QuotaExceededError"), store))
  /\ (Forall (fun doc => id doc <> id document) history ->
      hasRoom (withoutImages document :: history) = true ->
      hasRoom history = true ->
      getDocumentHistory
        (snd (deleteDocument hasRoom (id document)
                             (snd (saveDocument hasRoom document store))))
      = history).
Proof.
  intros Hr. pose proof (reachable_settled hasRoom store Hr) as Hs.
  unfold settled in Hs. cbv zeta.
  unfold saveDocument, deleteDocument, setItem. cbv zeta.
  split; [|split; [|split; [|split]]].
  - intros ->. cbn [map]. now rewrite Hs.
  - intros ->. reflexivity.
  - intros ->. split; [|split].
    + f_equal. f_equal.
      assert (Hk : settled
                     (filter (fun doc => negb (str_eqb (id doc) id_))
                             (getDocumentHistory store))).
      { unfold settled. rewrite <- Hs at 2.
        generalize (getDocumentHistory store). intros l.
        induction l as [|doc l IH]; cbn [map filter]; [reflexivity|].
        destruct (negb (str_eqb (id doc) id_)) eqn:E.
        - cbn [map]. rewrite IH.
          change (id (throughJSON doc)) with (id doc). now rewrite E.
        - change (id (throughJSON doc)) with (id doc). now rewrite E. }
      exact Hk.
    + apply Forall_forall. intros doc Hdoc.
      apply filter_In in Hdoc as [_ Hdoc].
      apply negb_true_iff in Hdoc. now apply str_eqb_neq.
    + apply unused_id_kept.
  - intros ->. reflexivity.
  - intros Hnew Hroom1 Hroom2. rewrite Hroom1.
    cbn [snd getDocumentHistory map filter].
    change (id (throughJSON (withoutImages document))) with (id document).
    rewrite str_eqb_refl. cbn [negb].
    rewrite Hs, (unused_id_kept _ _ Hnew), Hroom2.
    cbn [snd getDocumentHistory]. exact Hs.
Qed.

Lemma delete_undoes_save_witness :
  getDocumentHistory
    (snd (deleteDocument (fun _ => true) (lit "7")
            (snd (saveDocument
                    (fun _ => true)
                    (Document (lit "7") (lit "a.pdf") (lit "application/pdf")
                              7 (lit "text") (Some 90%float) None None None)
                    None))))
  = [].
Proof.
  apply (proj2 (proj2 (proj2 (proj2
           (delete_undoes_save
              (fun _ => true) None
              (Document (lit "7") (lit "a.pdf") (lit "application/pdf")
                        7 (lit "text") (Some 90%float) None None None)
              (lit "7") (reach_empty _)))))).
  - constructor.
  - reflexivity.
  - reflexivity.
Defined.

End StorageProperties.
